(** * Evidence pipeline of the predictive-maintenance agent

    A shallow embedding of the deterministic core of the repository:
    - [app/utils/toon.py]            the TOON codec,
    - [app/core/tools.py]            the risk-label tool,
    - [app/core/fusion.py]           late fusion and the narrative,
    - [app/core/service_age_node.py] the maintenance compliance evaluator,
    - [app/core/feature_node.py]     the adaptive baseline statistics,
    - [app/core/orchestrator.py]     the stage wrappers that merge partial updates.

    Conventions.  A Python [str] is a list of characters ([str]); a character
    is one of the 256 code points below U+0100; [str.lower] is modelled on all
    of them, [str.capitalize] on those whose upper case is one such code
    point (all but [µ], [ß] and [ÿ]).  A Python [float] is a rational ([Q]); the
    codec rounds to binary64 where it reads and writes floats, the scores and
    statistics are computed exactly unless a binary64 function is named.  A
    Python [int] is a [Z].  A [dict] whose order matters (the codec iterates
    over it) is an association list in insertion order; a [dict] used as the
    running state of the pipeline is a [gmap]. *)

From Stdlib Require Import List Ascii String ZArith QArith Qabs Qround Qpower Lia Lqa Bool.
From stdpp Require Import base option gmap strings list.
Import ListNotations.

Set Default Proof Using "Type".

Open Scope Z_scope.
Set Warnings "-register-all".

(** ** Python strings *)

Definition str := list ascii.

(** A string literal of the source. *)
Definition lit (s : string) : str := list_ascii_of_string s.

Definition ascii_eqb (a b : ascii) : bool := Ascii.eqb a b.

(** [ch in s] for a single character [ch]. *)
Fixpoint contains (ch : ascii) (s : str) : bool :=
  match s with
  | [] => false
  | c :: r => if ascii_eqb c ch then true else contains ch r
  end.

(** [str.isspace], the characters that [str.strip] removes: tab, LF, VT,
    FF, CR, FS, GS, RS, US, the space, NEL (0x85) and the no-break space
    (0xA0). *)
Definition is_space (c : ascii) : bool :=
  let n := nat_of_ascii c in
  (((9 <=? n) && (n <=? 13)) || ((28 <=? n) && (n <=? 32)) || (n =? 133) || (n =? 160))%nat.

(** The white space that [int] and [float] skip around a number: the same
    without FS, GS, RS and US. *)
Definition is_number_space (c : ascii) : bool :=
  let n := nat_of_ascii c in
  (((9 <=? n) && (n <=? 13)) || (n =? 32) || (n =? 133) || (n =? 160))%nat.

Fixpoint lstrip (s : str) : str :=
  match s with
  | c :: r => if is_space c then lstrip r else s
  | [] => []
  end.

Definition rstrip (s : str) : str := rev (lstrip (rev s)).

(** [s.strip()] *)
Definition strip (s : str) : str := rstrip (lstrip s).

Fixpoint number_lstrip (s : str) : str :=
  match s with
  | c :: r => if is_number_space c then number_lstrip r else s
  | [] => []
  end.

(** The text of a number without the white space around it. *)
Definition number_strip (s : str) : str := rev (number_lstrip (rev (number_lstrip s))).

(** [sep.join(parts)] *)
Fixpoint join (sep : str) (parts : list str) : str :=
  match parts with
  | [] => []
  | [p] => p
  | p :: rest => p ++ sep ++ join sep rest
  end.

Definition is_digit (c : ascii) : bool :=
  let n := nat_of_ascii c in ((48 <=? n) && (n <=? 57))%nat.

Definition digit_val (c : ascii) : Z := Z.of_nat (nat_of_ascii c) - 48.

Definition digit_char (d : Z) : ascii := ascii_of_nat (Z.to_nat (48 + d)).

Definition is_nil {A} (l : list A) : bool :=
  match l with [] => true | _ => false end.

(** ** Decimal output of integers: [str(n)] *)

Fixpoint digits_fuel (fuel : nat) (n : Z) (acc : str) : str :=
  match fuel with
  | O => acc
  | S f =>
      let acc' := digit_char (n mod 10) :: acc in
      if n <? 10 then acc' else digits_fuel f (n / 10) acc'
  end.

(** Decimal digits of a non-negative integer, most significant first. *)
Definition str_of_nonneg (n : Z) : str :=
  digits_fuel (S (Z.to_nat (Z.log2 n))) n [].

Definition str_of_int (z : Z) : str :=
  if z <? 0 then "-"%char :: str_of_nonneg (- z) else str_of_nonneg z.

(** Value of a run of digits read after [acc]. *)
Definition digits_value (acc : Z) (ds : str) : Z :=
  fold_left (fun a c => a * 10 + digit_val c) ds acc.

(** ** Fixed-point output of floats: [f"{x:.Nf}"] *)

(** Round to the nearest integer, ties to even (the rule of float
    formatting). *)
Definition round_half_even (q : Q) : Z :=
  let n := Qnum q in
  let d := Z.pos (Qden q) in
  let fl := n / d in
  let r2 := 2 * (n mod d) in
  if r2 <? d then fl
  else if d <? r2 then fl + 1
  else if Z.even fl then fl else fl + 1.

(** Zeros in front, up to [width] characters. *)
Definition pad_zeros (width : nat) (s : str) : str :=
  repeat "0"%char (width - length s) ++ s.

Definition format_fixed (prec : nat) (x : Q) : str :=
  let p := 10 ^ Z.of_nat prec in
  let scaled := round_half_even (Qabs x * inject_Z p)%Q in
  let sign := if Qle_bool 0 x then [] else ["-"%char] in
  let ipart := str_of_nonneg (scaled / p) in
  match prec with
  | O => sign ++ ipart
  | _ => sign ++ ipart ++ "."%char :: pad_zeros prec (str_of_nonneg (scaled mod p))
  end.

(** [round(x, ndigits)]: to the nearest multiple of [10^-ndigits], ties to
    even. *)
Definition py_round (ndigits : nat) (x : Q) : Q :=
  (inject_Z (round_half_even (x * inject_Z (10 ^ Z.of_nat ndigits))) /
   inject_Z (10 ^ Z.of_nat ndigits))%Q.

(** [min(a, b)] and [max(a, b)] of two floats: the first argument unless
    the second is strictly smaller (larger). *)
Definition py_min (a b : Q) : Q := if Qle_bool a b then a else b.

(** ** Python values *)

(** A float: a finite value is an exact rational. *)
Inductive pyfloat : Type :=
| FNan
| FInf (negative : bool)
| FFin (q : Q).

(** *** binary64

    The finite floats are the rationals [m * 2^q] with [|m| < 2^53] and
    [q >= -1074] below [2^1024]; a result that is not one of them is
    replaced by the nearest one. *)

Definition pow2 (e : Z) : Q := (inject_Z 2 ^ e)%Q.

(** For [a > 0], the exponent [e] with [2^e <= a < 2^(e+1)]. *)
Definition floor_log2 (a : Q) : Z :=
  let e0 := Z.log2 (Qnum a) - Z.log2 (Z.pos (Qden a)) in
  if Qle_bool (pow2 e0) a then e0 else e0 - 1.

(** The exponent of the last bit of the floats around [a > 0]: 53 bits of
    mantissa, and the spacing of the smallest normal numbers below them. *)
Definition b64_quantum (a : Q) : Z := Z.max (floor_log2 a) (-1022) - 52.

(** The float nearest to [a > 0], ties to the even mantissa; infinity from
    [2^1024 - 2^970] on. *)
Definition b64_round_pos (a : Q) : pyfloat :=
  let q := b64_quantum a in
  let m := round_half_even (a / pow2 q) in
  let v := (inject_Z m * pow2 q)%Q in
  if Qle_bool (pow2 1024) v then FInf false else FFin (Qred v).

(** Correct rounding of an exact result (the sign of a zero is not
    modelled). *)
Definition b64_round (x : Q) : pyfloat :=
  if Qeq_bool x 0 then FFin 0
  else if Qle_bool 0 x then b64_round_pos x
  else match b64_round_pos (- x) with
       | FFin v => FFin (Qred (- v))
       | FInf _ => FInf true
       | FNan => FNan
       end.

(** The rationals that are floats. *)
Definition is_b64 (q : Q) : bool :=
  match b64_round q with
  | FFin v => Qeq_bool v q
  | _ => false
  end.

(** The rounded result of an operation that stays in range. *)
Definition fl (x : Q) : Q :=
  match b64_round x with
  | FFin v => v
  | _ => x
  end.

Inductive value : Type :=
| VNone
| VBool (b : bool)
| VInt (z : Z)
| VFloat (x : pyfloat)
| VStr (s : str)
| VList (l : list value)
| VDict (d : list (str * value)).

(** A dict in insertion order. *)
Definition record := list (str * value).

(** * [app/core/tools.py] and [app/core/fusion.py] *)

Module Fusion.

Inductive RiskLevel := LOW | MEDIUM | HIGH | CRITICAL.

(** [RiskLevel.value] *)
Definition RiskLevel_value (r : RiskLevel) : str :=
  match r with
  | LOW => lit "low"
  | MEDIUM => lit "medium"
  | HIGH => lit "high"
  | CRITICAL => lit "critical"
  end.

(** Position in the ordered scale low < medium < high < critical. *)
Definition rank (r : RiskLevel) : nat :=
  match r with LOW => 0 | MEDIUM => 1 | HIGH => 2 | CRITICAL => 3 end.

(** [fusion._risk_from_prob] *)
Definition _risk_from_prob (prob : Q) : RiskLevel :=
  if Qle_bool (85 # 100) prob then CRITICAL
  else if Qle_bool (60 # 100) prob then HIGH
  else if Qle_bool (35 # 100) prob then MEDIUM
  else LOW.

(** [tools.get_risk_threshold_label], the value under ["risk_label"]. *)
Definition get_risk_threshold_label (prob : Q) : str :=
  if Qle_bool (85 # 100) prob then lit "critical"
  else if Qle_bool (60 # 100) prob then lit "high"
  else if Qle_bool (35 # 100) prob then lit "medium"
  else lit "low".

Record VisionResult := {
  has_leaks : bool;
  has_cracks : bool;
  visual_risk_score : Q
}.

Record HistoryResult := {
  overdue_tasks : list str
}.

(** The attributes of the state that [fuse_and_explain] reads.  The two
    scores read with [getattr(state, name, 0.0)] are optional: the schema
    [AgentState] declares neither, so [None] stands for the missing
    attribute. *)
Record AgentState := {
  sensor_risk_score : Q;
  vision_result : option VisionResult;
  history_result : option HistoryResult;
  history_risk_score : option Q;
  service_age_risk_score : option Q;
  transactional_risk_score : option Q;
  triggered_sensors : list str
}.

Record FinalReport := {
  fused_score : Q;
  status_label : str;
  explanation : str;
  top_signals : list str;
  action_items : list str;
  modality_contributions : list (string * (Q * Q));
  manual_context : value;
  anomaly_query : value
}.

Definition nominal_weights : gmap string Q :=
  {[ "sensor" := 8 # 10; "vision" := 2 # 10; "history" := 1 # 10;
     "service_age" := 2 # 10; "transactional" := 2 # 10 ]}%Q.

(** [sum(d.values())] *)
Definition sum_values (d : gmap string Q) : Q :=
  map_fold (fun _ v acc => (acc + v)%Q) 0%Q d.

(** The weights after the normalisation step. *)
Definition fusion_weights : gmap string Q :=
  let total_weight := sum_values nominal_weights in
  if Qeq_bool total_weight 1 then nominal_weights
  else (fun v => (v / total_weight)%Q) <$> nominal_weights.

(** [fusion_weights[k]] *)
Definition weight (k : string) : Q := default 0%Q (fusion_weights !! k).

Definition sensor_score (st : AgentState) : Q := sensor_risk_score st.

Definition vision_score (st : AgentState) : Q :=
  match vision_result st with
  | Some v => visual_risk_score v
  | None => 0%Q
  end.

(** [history_risk_score or 0.0] *)
Definition history_score (st : AgentState) : Q :=
  match history_risk_score st with
  | Some h => if Qeq_bool h 0 then 0%Q else h
  | None => 0%Q
  end.

Definition service_age_score (st : AgentState) : Q :=
  default 0%Q (service_age_risk_score st).

Definition transactional_score (st : AgentState) : Q :=
  default 0%Q (transactional_risk_score st).

Definition fused_prob (st : AgentState) : Q :=
  (weight "sensor" * sensor_score st +
   weight "vision" * vision_score st +
   weight "history" * history_score st +
   weight "service_age" * service_age_score st +
   weight "transactional" * transactional_score st)%Q.

(** [f"{w*100:.0f}%, {s:.2f}"] *)
Definition pct_and_score (w s : Q) : str :=
  format_fixed 0 (w * 100)%Q ++ lit "%, " ++ format_fixed 2 s.

Definition vision_has_leaks (st : AgentState) : bool :=
  match vision_result st with Some v => has_leaks v | None => false end.

Definition vision_has_cracks (st : AgentState) : bool :=
  match vision_result st with Some v => has_cracks v | None => false end.

Definition history_overdue (st : AgentState) : list str :=
  match history_result st with Some h => overdue_tasks h | None => [] end.

(** Truth value of a float: non-zero. *)
Definition truthy (q : Q) : bool := negb (Qeq_bool q 0).

Definition gt_half (q : Q) : bool := negb (Qle_bool q (5 # 10)).

Definition build_explanation (st : AgentState) : str :=
  let e0 :=
    lit "The risk score is a weighted fusion of all available modalities: " ++
    lit "Sensor (" ++ pct_and_score (weight "sensor") (sensor_score st) ++ lit "), " ++
    lit "Vision (" ++ pct_and_score (weight "vision") (vision_score st) ++ lit "), " ++
    lit "History (" ++ pct_and_score (weight "history") (history_score st) ++ lit "), " ++
    lit "Service Age (" ++ pct_and_score (weight "service_age") (service_age_score st) ++ lit "), " ++
    lit "Transactional (" ++ pct_and_score (weight "transactional") (transactional_score st) ++ lit "). " in
  let e1 :=
    if vision_has_leaks st
    then e0 ++ lit " Visual seal leak detected (contributes " ++ format_fixed 2 (vision_score st) ++ lit ")."
    else e0 in
  let e2 :=
    if negb (is_nil (history_overdue st))
    then e1 ++ lit " History risk impact " ++ format_fixed 2 (history_score st) ++ lit "."
    else e1 in
  let e3 :=
    if gt_half (service_age_score st)
    then e2 ++ lit " Service age anomaly detected (score " ++ format_fixed 2 (service_age_score st) ++ lit ")."
    else e2 in
  let e4 :=
    if gt_half (transactional_score st)
    then e3 ++ lit " Outstanding transactional/maintenance risk (score " ++ format_fixed 2 (transactional_score st) ++ lit ")."
    else e3 in
  let e5 :=
    if negb (truthy (sensor_score st) || truthy (vision_score st) || truthy (history_score st)
             || truthy (service_age_score st) || truthy (transactional_score st))
    then e4 ++ lit " No significant risk factors detected."
    else e4 in
  strip e5.

Definition build_top_signals (st : AgentState) : list str :=
  map (fun sensor => lit "Historical " ++ sensor ++ lit " Spike") (triggered_sensors st) ++
  (if vision_has_leaks st then [lit "Vision: Leak detected in casting image"] else []) ++
  (if vision_has_cracks st then [lit "Vision: Crack detected in casting image"] else []) ++
  map (fun task => lit "History overdue: " ++ task) (take 3 (history_overdue st)) ++
  (if gt_half (service_age_score st) then [lit "Service age anomaly detected"] else []) ++
  (if gt_half (transactional_score st) then [lit "Outstanding transactional/maintenance risk"] else []).

Definition build_action_items (st : AgentState) : list str :=
  let items :=
    (if vision_has_leaks st then [lit "Inspect for leaks immediately."] else []) ++
    (if vision_has_cracks st then [lit "Inspect for cracks immediately."] else []) ++
    (if negb (is_nil (history_overdue st)) then [lit "Perform overdue maintenance tasks."] else []) ++
    (if gt_half (service_age_score st) then [lit "Check overdue service schedule."] else []) ++
    (if gt_half (transactional_score st) then [lit "Review outstanding maintenance requests."] else []) in
  if is_nil items then [lit "Continue routine monitoring."] else items.

(** [fuse_and_explain].  The last two entries are read with
    [getattr(state, name, None)] from an [AgentState], which has no such
    attribute: both are [None]. *)
Definition fuse_and_explain (st : AgentState) : FinalReport :=
  {| fused_score := fused_prob st;
     status_label := get_risk_threshold_label (fused_prob st);
     explanation := build_explanation st;
     top_signals := build_top_signals st;
     action_items := build_action_items st;
     modality_contributions :=
       [("sensor", (sensor_score st, weight "sensor"));
        ("vision", (vision_score st, weight "vision"));
        ("history", (history_score st, weight "history"));
        ("service_age", (service_age_score st, weight "service_age"));
        ("transactional", (transactional_score st, weight "transactional"))];
     manual_context := VNone;
     anomaly_query := VNone |}.

Definition in_unit (q : Q) : Prop := (0 <= q /\ q <= 1)%Q.

(** Every score that the state carries lies in [0,1]. *)
Definition scores_in_unit (st : AgentState) : Prop :=
  in_unit (sensor_risk_score st) /\
  (forall v, vision_result st = Some v -> in_unit (visual_risk_score v)) /\
  (forall h, history_risk_score st = Some h -> in_unit h) /\
  (forall a, service_age_risk_score st = Some a -> in_unit a) /\
  (forall t, transactional_risk_score st = Some t -> in_unit t).

(** The five scores that enter the fusion, in the order of the weights. *)
Definition scores (st : AgentState) : list Q :=
  [sensor_score st; vision_score st; history_score st; service_age_score st;
   transactional_score st].

(** Sum of the nominal weights. *)
Definition nominal_total : Q := ((8 # 10) + (2 # 10) + (1 # 10) + (2 # 10) + (2 # 10))%Q.

(** Scenario A: the sensor model reports 0.9 and no other stage produced
    anything. *)
Definition scenario_A : AgentState :=
  {| sensor_risk_score := 9 # 10;
     vision_result := None;
     history_result := None;
     history_risk_score := None;
     service_age_risk_score := None;
     transactional_risk_score := None;
     triggered_sensors := [] |}.

(** A state in which every modality reports: the five scores are all
    different from 0. *)
Definition all_modalities : AgentState :=
  {| sensor_risk_score := 9 # 10;
     vision_result := Some {| has_leaks := true; has_cracks := false;
                              visual_risk_score := 5 # 10 |};
     history_result := None;
     history_risk_score := Some (5 # 10);
     service_age_risk_score := Some (4 # 10);
     transactional_risk_score := Some (2 # 10);
     triggered_sensors := [] |}.

End Fusion.

(** * [app/core/service_age_node.py] *)

Module ServiceAge.

(** Rows of the three tables of [app/db/models.py]; a timestamp is a number
    that grows with time. *)
Record ServiceScheduleRow := {
  sched_pump_id : str;
  sched_task_name : str;
  sched_interval_hours : Z
}.

Record WorkDoneLogRow := {
  log_pump_id : str;
  log_task_name : str;
  hours_at_service : Z;
  timestamp : Z
}.

Record MaintenanceRequestRow := {
  req_pump_id : str;
  description : str;
  priority : str;
  status : str
}.

Record Database := {
  service_schedules : list ServiceScheduleRow;
  work_done_logs : list WorkDoneLogRow;
  maintenance_requests : list MaintenanceRequestRow
}.

(** [SELECT task_name, interval_hours FROM service_schedules
     WHERE pump_id = :pump_id] *)
Definition sched_rows (db : Database) (pump_id : str) : list (str * Z) :=
  map (fun r => (sched_task_name r, sched_interval_hours r))
      (filter (fun r => sched_pump_id r = pump_id) (service_schedules db)).

(** [a] comes no later than [b] under
    [ORDER BY timestamp DESC, hours_at_service DESC]. *)
Definition sorts_before (a b : WorkDoneLogRow) : bool :=
  (timestamp b <? timestamp a) ||
  ((timestamp a =? timestamp b) && (hours_at_service b <=? hours_at_service a)).

(** The first row under that order. *)
Fixpoint first_row (rows : list WorkDoneLogRow) : option WorkDoneLogRow :=
  match rows with
  | [] => None
  | r :: rest =>
      match first_row rest with
      | None => Some r
      | Some b => if sorts_before r b then Some r else Some b
      end
  end.

Definition matching_logs (db : Database) (pump_id task_name : str) : list WorkDoneLogRow :=
  filter (fun r => log_pump_id r = pump_id /\ log_task_name r = task_name) (work_done_logs db).

(** [SELECT hours_at_service FROM work_done_logs
     WHERE pump_id = :pump_id AND task_name = :task_name
     ORDER BY timestamp DESC, hours_at_service DESC LIMIT 1] *)
Definition log_row (db : Database) (pump_id task_name : str) : option Z :=
  hours_at_service <$> first_row (matching_logs db pump_id task_name).

(** [SELECT description, priority, status FROM maintenance_requests
     WHERE pump_id = :pump_id AND status = 'OPEN'], in table order: the
     [ORDER BY priority DESC] of the text column is left to the store. *)
Definition open_req_rows (db : Database) (pump_id : str) : list (str * str * str) :=
  map (fun r => (description r, priority r, status r))
      (filter (fun r => req_pump_id r = pump_id /\ status r = lit "OPEN") (maintenance_requests db)).

Record OverdueTask := {
  task_name : str;
  overdue_hours : Z;
  interval_hours : Z;
  last_done : Z;
  current_total_hours : Z
}.

(** [last_done] of one scheduled task. *)
Definition last_done_of (db : Database) (pump_id task : str) : Z :=
  match log_row db pump_id task with
  | Some h => h
  | None => 0
  end.

(** One iteration of the loop over [sched_rows]: the entry appended to
    [overdue_tasks], if any. *)
Definition check_task (db : Database) (pump_id : str) (current : Z) (sched : str * Z)
  : option OverdueTask :=
  let '(task, interval) := sched in
  let last := last_done_of db pump_id task in
  let overdue := (current - last) - interval in
  if 0 <? overdue
  then Some {| task_name := task; overdue_hours := overdue; interval_hours := interval;
               last_done := last; current_total_hours := current |}
  else None.

Definition overdue_tasks (db : Database) (pump_id : str) (current : Z) : list OverdueTask :=
  omap (check_task db pump_id current) (sched_rows db pump_id).

(** [int(df["Operational_Hours"].max())] of the historical file, when the
    file is there, can be read and has the column. *)
Definition hours_from_history (hist : option (list Z)) : option Z :=
  match hist with
  | Some (h :: t) => Some (fold_right Z.max h t)
  | _ => None
  end.

Inductive NodeResult :=
| InvestigatorError (msg : str)
| Evaluated (overdue : list OverdueTask) (open_requests : list (str * str * str))
| Unchanged.

(** The store as the handler meets it: the modules of the database layer
    (or of the data-frame library) cannot be imported, or the session or one
    of its queries fails, or the three tables answer. *)
Inductive Store :=
| NoModule
| NoSession
| Tables (db : Database).

(** [service_age_node].  Every exception inside the handler gives the state
    back as it came ([Unchanged]).  The imports stand at the head of the
    [try] block, before the hours are looked at; the session is opened after
    the hours are settled.  The text appended to [anomaly_query] is not
    modelled. *)
Definition service_age_node (pump_id : str) (current_hours : option Z)
    (hist : option (list Z)) (store : Store) : NodeResult :=
  match store with
  | NoModule => Unchanged
  | _ =>
      let current :=
        match current_hours with
        | Some c => Some c
        | None => hours_from_history hist
        end in
      match current with
      | None => InvestigatorError (lit "Missing current_total_hours and cannot infer from historical_logs.")
      | Some c =>
          match store with
          | Tables d => Evaluated (overdue_tasks d pump_id c) (open_req_rows d pump_id)
          | _ => Unchanged
          end
      end
  end.

(** A pump with two scheduled tasks: one serviced twice, one never. *)
Definition sample_db : Database :=
  {| service_schedules :=
       [ {| sched_pump_id := lit "P-001"; sched_task_name := lit "Oil change";
            sched_interval_hours := 500 |};
         {| sched_pump_id := lit "P-001"; sched_task_name := lit "Seal check";
            sched_interval_hours := 1200 |} ];
     work_done_logs :=
       [ {| log_pump_id := lit "P-001"; log_task_name := lit "Oil change";
            hours_at_service := 300; timestamp := 10 |};
         {| log_pump_id := lit "P-001"; log_task_name := lit "Oil change";
            hours_at_service := 700; timestamp := 20 |} ];
     maintenance_requests := [] |}.

(** A seal check logged at 1100 hours, later than every other entry, and the
    store with that row. *)
Definition seal_check_row : WorkDoneLogRow :=
  {| log_pump_id := lit "P-001"; log_task_name := lit "Seal check";
     hours_at_service := 1100; timestamp := 30 |}.

Definition serviced_db : Database :=
  {| service_schedules := service_schedules sample_db;
     work_done_logs := seal_check_row :: work_done_logs sample_db;
     maintenance_requests := maintenance_requests sample_db |}.

End ServiceAge.

(** * [app/core/feature_node.py] *)

Module Baseline.

Section Stats.

(** Three functions of the data-frame library, which computes them in
    binary64: [Series.quantile], [Series.mean] and [Series.std]. *)
Variable quantile : Q -> list Q -> Q.
Variable mean : list Q -> Q.
Variable std : list Q -> Q.

(** [Series.drop_nulls] *)
Definition drop_nulls (col : list (option Q)) : list Q := omap id col.

(** [vals[-100:]] *)
Definition last_100 (l : list Q) : list Q := drop (length l - 100)%nat l.

Definition Qlt_bool (a b : Q) : bool := negb (Qle_bool b a).

Record SensorStats := {
  adaptive_threshold : option Q;
  rolling_mean : option Q;
  drift_score : option Q
}.

(** The divisor of the drift score. *)
Definition global_std (vals : list Q) : Q :=
  if Qlt_bool 0 (std vals) then std vals else 1%Q.

(** The body of the loop over the sensors, for one column of the frame. *)
Definition sensor_stats (col : list (option Q)) : SensorStats :=
  let vals := drop_nulls col in
  if (length vals <? 10)%nat
  then {| adaptive_threshold := None; rolling_mean := None; drift_score := None |}
  else
    let p95_val := quantile (95 # 100) vals in
    let mean_val := if (100 <=? length vals)%nat then mean (last_100 vals) else mean vals in
    let global_mean := mean vals in
    {| adaptive_threshold := Some p95_val;
       rolling_mean := Some mean_val;
       drift_score := Some ((mean_val - global_mean) / global_std vals)%Q |}.

(** The outlier check of one sensor against its live value. *)
Definition triggered (current_val : option Q) (st : SensorStats) : bool :=
  match current_val, adaptive_threshold st with
  | Some c, Some t => Qlt_bool t c
  | _, _ => false
  end.

(** What the node found on disk. *)
Inductive HistoryFile :=
| Missing
| TooLarge
| NotCsv
| MissingColumns
| Frame (vibration temperature pressure : list (option Q)).

Record Result := {
  adaptive_thresholds : list (string * option Q);
  rolling_means : list (string * option Q);
  drift_scores : list (string * option Q);
  is_historical_outlier : bool;
  triggered_sensors : list string;
  history_risk_score : option Q
}.

Definition sensors : list string := ["Vibration"; "Temperature"; "Pressure"]%string.

Definition _empty_history : Result :=
  {| adaptive_thresholds := map (fun s => (s, None)) sensors;
     rolling_means := map (fun s => (s, None)) sensors;
     drift_scores := map (fun s => (s, None)) sensors;
     is_historical_outlier := false;
     triggered_sensors := [];
     history_risk_score := None |}.

(** [feature_node], without the encoded summaries.  [live] gives the
    current value of each sensor, if it is a number. *)
Definition feature_node (file : HistoryFile) (live : string -> option Q) : Result :=
  match file with
  | Frame v t p =>
      let cols := [("Vibration"%string, v); ("Temperature"%string, t); ("Pressure"%string, p)] in
      let stats := map (fun '(s, c) => (s, sensor_stats c)) cols in
      let trig := map fst (filter (fun '(s, st) => triggered (live s) st = true) stats) in
      let is_outlier := negb (bool_decide (trig = [])) in
      {| adaptive_thresholds := map (fun '(s, st) => (s, adaptive_threshold st)) stats;
         rolling_means := map (fun '(s, st) => (s, rolling_mean st)) stats;
         drift_scores := map (fun '(s, st) => (s, drift_score st)) stats;
         is_historical_outlier := is_outlier;
         triggered_sensors := trig;
         history_risk_score := if is_outlier then Some (5 # 10)%Q else None |}
  | _ => _empty_history
  end.

End Stats.

(** Concrete instances of the three library functions: the nearest-rank
    quantile of a sorted copy, and mean and standard deviation by the
    textbook formulas evaluated in binary64, every operation rounded, the
    sums taken in the order of the series (the library may sum in another
    order). *)
Definition sum_b64 (l : list Q) : Q := fold_left (fun acc x => fl (acc + x)%Q) l 0%Q.

Definition mean_b64 (l : list Q) : Q :=
  fl (sum_b64 l / inject_Z (Z.of_nat (length l)))%Q.

(** The square root to [bits] binary places, rounded down. *)
Definition sqrt_bits (bits : Z) (x : Q) : Q :=
  (Z.sqrt (Qnum x * 4 ^ bits / Z.pos (Qden x)) # Z.to_pos (2 ^ bits))%Q.

Definition std_b64 (l : list Q) : Q :=
  let m := mean_b64 l in
  let squares := map (fun x => fl (fl (x - m) * fl (x - m))%Q) l in
  fl (sqrt_bits 300 (fl (sum_b64 squares / inject_Z (Z.of_nat (length l) - 1))%Q)).

Fixpoint insert_sorted (x : Q) (l : list Q) : list Q :=
  match l with
  | [] => [x]
  | y :: r => if Qle_bool x y then x :: l else y :: insert_sorted x r
  end.

Definition sort (l : list Q) : list Q := fold_right insert_sorted [] l.

Definition quantile_nearest (p : Q) (l : list Q) : Q :=
  let idx := round_half_even (inject_Z (Z.of_nat (length l) - 1) * p)%Q in
  nth (Z.to_nat idx) (sort l) 0%Q.

(** Sample columns: nine readings and a gap, ten readings, and a sensor
    stuck at one value. *)
Definition nine_samples : list (option Q) :=
  [Some 1; Some 2; None; Some 3; Some 4; Some 5; Some 6; Some 7; Some 8; Some 9]%Q.

Definition ten_samples : list (option Q) :=
  [Some 1; Some 2; None; Some 3; Some 4; Some 5; Some 6; Some 7; Some 8; Some 9; Some 10]%Q.

Definition stuck_sensor : list (option Q) := repeat (Some (5 # 2)%Q) 12.

(** A sensor stuck at 0.1, the float nearest to one tenth, for 101
    readings. *)
Definition stuck_at_tenth : list (option Q) := repeat (Some (fl (1 # 10))) 101.

End Baseline.

(** * [app/utils/toon.py] *)

Module Toon.

Definition PAIR_SEP : ascii := "|".
Definition KV_SEP : ascii := ":".
Definition LIST_SEP : ascii := "~".
Definition NEST_OPEN : ascii := "(".
Definition NEST_CLOSE : ascii := ")".

(** *** Characters *)

Definition is_upper (c : ascii) : bool :=
  let n := nat_of_ascii c in ((65 <=? n) && (n <=? 90))%nat.

Definition is_lower (c : ascii) : bool :=
  let n := nat_of_ascii c in ((97 <=? n) && (n <=? 122))%nat.

(** The letters with an accent: [À]..[Þ] without the multiplication sign,
    and [à]..[þ] without the division sign. *)
Definition is_upper_latin1 (c : ascii) : bool :=
  let n := nat_of_ascii c in ((192 <=? n) && (n <=? 222) && negb (n =? 215))%nat.

Definition is_lower_latin1 (c : ascii) : bool :=
  let n := nat_of_ascii c in ((224 <=? n) && (n <=? 254) && negb (n =? 247))%nat.

(** [c.upper()], for every character but [µ], [ß] and [ÿ], whose upper
    case is not one character below U+0100. *)
Definition to_upper (c : ascii) : ascii :=
  if is_lower c || is_lower_latin1 c then ascii_of_nat (nat_of_ascii c - 32) else c.

(** [c.lower()]. *)
Definition to_lower (c : ascii) : ascii :=
  if is_upper c || is_upper_latin1 c then ascii_of_nat (nat_of_ascii c + 32) else c.

(** [s.lower()] *)
Definition lower (s : str) : str := map to_lower s.

(** [s.capitalize()] *)
Definition capitalize (s : str) : str :=
  match s with
  | [] => []
  | c :: r => to_upper c :: lower r
  end.

(** [s.split(sep)] for a one-character separator. *)
Fixpoint split_on (sep : ascii) (s : str) : list str :=
  match s with
  | [] => [[]]
  | c :: r =>
      if ascii_eqb c sep then [] :: split_on sep r
      else match split_on sep r with
           | p :: ps => (c :: p) :: ps
           | [] => [[c]]
           end
  end.

(** *** Key compression *)

Definition _snake_to_short_pascal (key : str) : str :=
  concat (map (fun p => if (length p <=? 4)%nat then capitalize p else capitalize (take 4 p))
              (split_on "_" key)).

Definition is_newline (c : ascii) : bool := ascii_eqb c "010".

(** [_CAMEL_RE_1.sub(r"\1_\2", s)] for the pattern [(.)([A-Z][a-z]+)].
    [copy] is 0 while searching for a match; inside a match it counts the
    characters still to be copied unseen (3 after the first group, 1 while
    the run of lower-case letters lasts). *)
Fixpoint camel_re_1_sub (copy : nat) (s : str) : str :=
  match s with
  | [] => []
  | c :: t =>
      let scan :=
        match t with
        | u :: l :: _ =>
            if negb (is_newline c) && is_upper u && is_lower l
            then c :: "_"%char :: camel_re_1_sub 3 t
            else c :: camel_re_1_sub 0 t
        | _ => c :: camel_re_1_sub 0 t
        end in
      match copy with
      | S (S n) => c :: camel_re_1_sub (S n) t
      | 1%nat => if is_lower c then c :: camel_re_1_sub 1 t else scan
      | O => scan
      end
  end.

(** [_CAMEL_RE_2.sub(r"\1_\2", s)] for the pattern [([a-z0-9])([A-Z])]. *)
Fixpoint camel_re_2_sub (s : str) : str :=
  match s with
  | [] => []
  | a :: t =>
      match t with
      | b :: r =>
          if (is_lower a || is_digit a) && is_upper b
          then a :: "_"%char :: b :: camel_re_2_sub r
          else a :: camel_re_2_sub t
      | [] => [a]
      end
  end.

Definition _pascal_to_snake (key : str) : str :=
  lower (camel_re_2_sub (camel_re_1_sub 0 key)).

(** *** Numbers in text *)

(** Number of decimal digits. *)
Definition ndigits (n : Z) : Z := Z.of_nat (length (str_of_nonneg n)).

Definition pow10 (e : Z) : Q := (inject_Z 10 ^ e)%Q.

(** For [a > 0], the exponent [e] with [10^e <= a < 10^(e+1)]. *)
Definition floor_log10 (a : Q) : Z :=
  let e0 := ndigits (Qnum a) - ndigits (Z.pos (Qden a)) in
  if Qle_bool (pow10 e0) a then e0 else e0 - 1.

(** Four significant digits of [a > 0]: a mantissa in [1000, 9999] and the
    decimal exponent of its first digit. *)
Definition sig4 (a : Q) : Z * Z :=
  let e := floor_log10 a in
  let m := round_half_even (a / pow10 (e - 3))%Q in
  if m =? 10000 then (1000, e + 1) else (m, e).

Fixpoint drop_zeros (s : str) : str :=
  match s with
  | c :: r => if ascii_eqb c "0" then drop_zeros r else s
  | [] => []
  end.

Definition strip_trailing_zeros (s : str) : str := rev (drop_zeros (rev s)).

Definition with_point (ip fp : str) : str :=
  match fp with
  | [] => ip
  | _ => ip ++ "."%char :: fp
  end.

Definition format_4g_pos (a : Q) : str :=
  let '(m, e) := sig4 a in
  let ds := str_of_nonneg m in
  if (-4 <=? e) && (e <? 4) then
    if 0 <=? e
    then with_point (take (Z.to_nat (e + 1)) ds)
                    (strip_trailing_zeros (drop (Z.to_nat (e + 1)) ds))
    else lit "0." ++ repeat "0"%char (Z.to_nat (- e - 1)) ++ strip_trailing_zeros ds
  else
    with_point (take 1 ds) (strip_trailing_zeros (drop 1 ds)) ++
    "e"%char :: (if e <? 0 then "-"%char else "+"%char) ::
    pad_zeros 2 (str_of_nonneg (Z.abs e)).

(** [f"{x:.4g}"] *)
Definition format_4g (x : pyfloat) : str :=
  match x with
  | FNan => lit "nan"
  | FInf false => lit "inf"
  | FInf true => lit "-inf"
  | FFin q =>
      if Qeq_bool q 0 then lit "0"
      else if Qle_bool 0 q then format_4g_pos q
      else "-"%char :: format_4g_pos (- q)%Q
  end.

(** Reads the longest prefix of the form digit ("_"? digit)*; returns the
    number read on top of [acc], the count of digits and the rest. *)
Fixpoint read_digits (s : str) (acc : Z) (n : nat) : Z * nat * str :=
  match s with
  | c :: r =>
      if is_digit c then
        let acc' := acc * 10 + digit_val c in
        match r with
        | u :: ((d :: _) as r') =>
            if ascii_eqb u "_" && is_digit d
            then read_digits r' acc' (S n)
            else read_digits r acc' (S n)
        | _ => read_digits r acc' (S n)
        end
      else (acc, n, s)
  | [] => (acc, n, [])
  end.

Definition parse_digits (s : str) : option Z :=
  match read_digits s 0 0 with
  | (v, S _, []) => Some v
  | _ => None
  end.

(** [sys.get_int_max_str_digits()]: the longest decimal text that [int]
    reads and [str] writes. *)
Definition max_str_digits : nat := 4300.

Definition count_digits (s : str) : nat := length (List.filter is_digit s).

(** The ints that [str] writes: at most [max_str_digits] digits. *)
Definition int_fits (z : Z) : bool := Z.abs z <? 10 ^ Z.of_nat max_str_digits.

(** [int(s)]: [None] stands for [ValueError], which a text of more than
    [max_str_digits] digits raises as well. *)
Definition parse_int (s : str) : option Z :=
  if (max_str_digits <? count_digits s)%nat then None
  else
    match number_strip s with
    | c :: r =>
        if ascii_eqb c "-" then Z.opp <$> parse_digits r
        else if ascii_eqb c "+" then parse_digits r
        else parse_digits (c :: r)
    | [] => None
    end.

(** The unsigned part of a float literal, with its exact value. *)
Definition parse_decimal_body (s : str) : option pyfloat :=
  let ls := lower s in
  if bool_decide (ls = lit "inf") || bool_decide (ls = lit "infinity") then Some (FInf false)
  else if bool_decide (ls = lit "nan") then Some FNan
  else
    let '(ip, ni, r1) := read_digits s 0 0 in
    let '(mant, nf, r3) :=
      match r1 with
      | c :: r2 => if ascii_eqb c "." then read_digits r2 ip 0 else (ip, O, r1)
      | [] => (ip, O, r1)
      end in
    if (ni + nf =? 0)%nat then None
    else
      let finish (e : Z) := Some (FFin (Qred (inject_Z mant * pow10 (e - Z.of_nat nf)))) in
      match r3 with
      | [] => finish 0
      | c :: r4 =>
          if ascii_eqb (to_lower c) "e" then
            match r4 with
            | sgn :: r5 =>
                if ascii_eqb sgn "-" then
                  match parse_digits r5 with Some e => finish (- e) | None => None end
                else if ascii_eqb sgn "+" then
                  match parse_digits r5 with Some e => finish e | None => None end
                else
                  match parse_digits r4 with Some e => finish e | None => None end
            | [] => None
            end
          else None
      end.

Definition negate (x : pyfloat) : pyfloat :=
  match x with
  | FNan => FNan
  | FInf b => FInf (negb b)
  | FFin q => FFin (Qred (- q))
  end.

(** The exact value of a float literal. *)
Definition parse_decimal (s : str) : option pyfloat :=
  match number_strip s with
  | c :: r =>
      if ascii_eqb c "-" then negate <$> parse_decimal_body r
      else if ascii_eqb c "+" then parse_decimal_body r
      else parse_decimal_body (c :: r)
  | [] => None
  end.

(** The float that stands for an exact value. *)
Definition to_b64 (x : pyfloat) : pyfloat :=
  match x with
  | FFin q => b64_round q
  | _ => x
  end.

(** [float(s)]: the float nearest to the value of the literal; [None]
    stands for [ValueError]. *)
Definition parse_float (s : str) : option pyfloat := to_b64 <$> parse_decimal s.

(** *** Encode *)

(** The test [value is None or value == "" or value == [] or value == {}]. *)
Definition is_empty (v : value) : bool :=
  match v with
  | VNone | VStr [] | VList [] | VDict [] => true
  | _ => false
  end.

(** [_encode_value]; the inner loop is [encode_dict] with the default
    [alias_keys=True]. *)
Fixpoint _encode_value (v : value) : str :=
  match v with
  | VNone => []
  | VBool b => if b then lit "1" else lit "0"
  | VFloat x => format_4g x
  | VInt z => str_of_int z
  | VList l => join [LIST_SEP] (map _encode_value l)
  | VDict d =>
      NEST_OPEN ::
      join [PAIR_SEP]
        ((fix parts (d : record) : list str :=
            match d with
            | [] => []
            | (key, x) :: rest =>
                if is_empty x then parts rest
                else (_snake_to_short_pascal key ++ KV_SEP :: _encode_value x) :: parts rest
            end) d)
      ++ [NEST_CLOSE]
  | VStr s => s
  end.

Fixpoint encode_parts (alias_keys : bool) (data : record) : list str :=
  match data with
  | [] => []
  | (key, x) :: rest =>
      if is_empty x then encode_parts alias_keys rest
      else ((if alias_keys then _snake_to_short_pascal key else key) ++ KV_SEP :: _encode_value x)
           :: encode_parts alias_keys rest
  end.

Definition encode_dict (alias_keys : bool) (data : record) : str :=
  join [PAIR_SEP] (encode_parts alias_keys data).

(** The pairs that [encode_dict] does not omit. *)
Definition kept (d : record) : record :=
  List.filter (fun kv => negb (is_empty (snd kv))) d.

(** [_encode_value] with the two ways in which the call can fail; [None]
    stands for the exception.  [str(value)] raises [ValueError] on an [int]
    of more than [max_str_digits] digits, and the interpreter raises
    [RecursionError] when the calls nest too deep: [room] is the number of
    levels that the stack still takes, a level being a call of [encode] or
    of [_encode_value] with the frames of [encode_dict] and of the generator
    that it opens. *)
Fixpoint _encode_value_within (room : nat) (v : value) : option str :=
  match room with
  | O => None
  | S n =>
      match v with
      | VNone => Some []
      | VBool b => Some (if b then lit "1" else lit "0")
      | VFloat x => Some (format_4g x)
      | VInt z => if int_fits z then Some (str_of_int z) else None
      | VList l => join [LIST_SEP] <$> mapM (_encode_value_within n) l
      | VDict d =>
          (fun parts => NEST_OPEN :: join [PAIR_SEP] parts ++ [NEST_CLOSE]) <$>
          mapM (fun kv =>
                  (fun text => _snake_to_short_pascal (fst kv) ++ KV_SEP :: text) <$>
                  _encode_value_within n (snd kv))
               (kept d)
      | VStr s => Some s
      end
  end.

Definition encode_dict_within (room : nat) (alias_keys : bool) (data : record) : option str :=
  join [PAIR_SEP] <$>
  mapM (fun kv =>
          (fun text => (if alias_keys then _snake_to_short_pascal (fst kv) else fst kv)
                       ++ KV_SEP :: text) <$>
          _encode_value_within room (snd kv))
       (kept data).

(** [encode] on a dict, with the default [alias_keys=True], given the room
    on the stack. *)
Definition encode (room : nat) (obj : record) : option str :=
  match room with
  | O => None
  | S n => encode_dict_within n true obj
  end.

(** The number of levels that writing a value takes. *)
Fixpoint height (v : value) : nat :=
  match v with
  | VList l => S (list_max (map height l))
  | VDict d =>
      S ((fix deepest (d : record) : nat :=
            match d with
            | [] => O
            | (_, x) :: rest =>
                if is_empty x then deepest rest else Nat.max (height x) (deepest rest)
            end) d)
  | _ => 1%nat
  end.

(** Every [int] that is written has a text. *)
Fixpoint printable (v : value) : bool :=
  match v with
  | VInt z => int_fits z
  | VList l => forallb printable l
  | VDict d =>
      (fix all (d : record) : bool :=
         match d with
         | [] => true
         | (_, x) :: rest => (is_empty x || printable x) && all rest
         end) d
  | _ => true
  end.

(** *** Decode *)

Definition _try_numeric (s : str) : value :=
  match parse_int s with
  | Some z => VInt z
  | None =>
      match parse_float s with
      | Some x => VFloat x
      | None => VStr s
      end
  end.

(** The loop of [_split_respecting_nesting]. *)
Fixpoint split_loop (s : str) (depth : Z) (current : str) (parts : list str) : list str :=
  match s with
  | [] => match current with [] => parts | _ => parts ++ [current] end
  | ch :: r =>
      if ascii_eqb ch NEST_OPEN then split_loop r (depth + 1) (current ++ [ch]) parts
      else if ascii_eqb ch NEST_CLOSE then split_loop r (depth - 1) (current ++ [ch]) parts
      else if ascii_eqb ch PAIR_SEP && (depth =? 0) then split_loop r depth [] (parts ++ [current])
      else split_loop r depth (current ++ [ch]) parts
  end.

Definition _split_respecting_nesting (s : str) : list str := split_loop s 0 [] [].

(** [pair.partition(KV_SEP)], or [None] when [KV_SEP not in pair]. *)
Fixpoint partition_kv (pair : str) : option (str * str) :=
  match pair with
  | [] => None
  | c :: r =>
      if ascii_eqb c KV_SEP then Some ([], r)
      else match partition_kv r with
           | Some (k, v) => Some (c :: k, v)
           | None => None
           end
  end.

(** [result[key] = v] on a dict in insertion order. *)
Fixpoint dict_set (key : str) (v : value) (d : record) : record :=
  match d with
  | [] => [(key, v)]
  | (k', v') :: r =>
      if bool_decide (k' = key) then (key, v) :: r else (k', v') :: dict_set key v r
  end.

Definition starts_with (c : ascii) (s : str) : bool :=
  match s with
  | c' :: _ => ascii_eqb c' c
  | [] => false
  end.

Definition ends_with (c : ascii) (s : str) : bool := starts_with c (rev s).

(** [_decode_value], given the decoder for a nested record. *)
Definition _decode_value (dec : str -> option record) (raw : str) : option value :=
  match raw with
  | [] => Some VNone
  | _ =>
      if starts_with NEST_OPEN raw && ends_with NEST_CLOSE raw
      then VDict <$> dec (removelast (tl raw))
      else if contains LIST_SEP raw
      then Some (VList (map _try_numeric (split_on LIST_SEP raw)))
      else Some (_try_numeric raw)
  end.

(** One iteration of the loop over the pairs. *)
Definition decode_pair (dec : str -> option record) (acc : option record) (pair : str)
  : option record :=
  match acc with
  | None => None
  | Some result =>
      match partition_kv pair with
      | None => Some result
      | Some (key, v) =>
          match _decode_value dec (strip v) with
          | Some x => Some (dict_set (_pascal_to_snake (strip key)) x result)
          | None => None
          end
      end
  end.

(** [decode], in mutual recursion with [_decode_value].  [room] is the
    number of nested calls of [decode] that the interpreter's stack still
    takes; [None] stands for the [RecursionError] raised when they are used
    up.  The code raises nothing else: the [ValueError] of [int] and [float]
    is caught in [_try_numeric]. *)
Fixpoint decode (room : nat) (toon_str : str) : option record :=
  match room with
  | O => None
  | S n =>
      if is_nil toon_str || is_nil (strip toon_str) then Some []
      else fold_left (decode_pair (decode n)) (_split_respecting_nesting toon_str) (Some [])
  end.

(** The opening brackets of a text. *)
Definition count_open (s : str) : nat :=
  length (List.filter (fun c => ascii_eqb c NEST_OPEN) s).

(** A record inside a record, [n] times over: [A:(A:(...A:1...))]. *)
Fixpoint deep (n : nat) : str :=
  match n with
  | O => lit "A:1"
  | S m => lit "A:(" ++ deep m ++ [NEST_CLOSE]
  end.

(** What [decode] returns for it. *)
Fixpoint deep_record (n : nat) : record :=
  match n with
  | O => [(lit "a", VInt 1)]
  | S m => [(lit "a", VDict (deep_record m))]
  end.

(** *** Records that the codec carries faithfully *)

(** Characters that steer [_split_respecting_nesting]. *)
Definition structural (c : ascii) : bool :=
  ascii_eqb c PAIR_SEP || ascii_eqb c NEST_OPEN || ascii_eqb c NEST_CLOSE.

Definition no_struct (s : str) : bool := forallb (fun c => negb (structural c)) s.

(** Not empty and without white space at either end. *)
Definition trimmed (s : str) : bool :=
  match s, rev s with
  | c :: _, d :: _ => negb (is_space c) && negb (is_space d)
  | _, _ => false
  end.

(** A text that is taken for nothing else: no separator or bracket in it,
    no white space around it, and not the spelling of a number. *)
Definition plain_text (s : str) : bool :=
  trimmed s && no_struct s && negb (contains LIST_SEP s) &&
  match _try_numeric s with VStr _ => true | _ => false end.

(** A scalar that is written and read back as itself or as its number: a
    boolean, an [int] that [str] prints, a float (a binary64 number, an
    infinity or a NaN), or a plain text. *)
Definition scalar_ok (v : value) : bool :=
  match v with
  | VBool _ => true
  | VInt z => int_fits z
  | VFloat (FFin q) => is_b64 q
  | VFloat _ => true
  | VStr s => plain_text s
  | _ => false
  end.

(** A value without a record inside: an omitted value, a scalar, or a list
    of at least two scalars. *)
Definition flat_ok (v : value) : bool :=
  is_empty v || scalar_ok v ||
  match v with
  | VList l => (2 <=? length l)%nat && forallb scalar_ok l
  | _ => false
  end.

(** A character that may stand in a key: an ASCII character that is
    neither a bracket nor a separator. *)
Definition key_char (c : ascii) : bool := negb (structural c || ascii_eqb c KV_SEP).

Definition is_ascii (c : ascii) : bool := (nat_of_ascii c <? 128)%nat.

Definition key_ok (key : str) : bool :=
  forallb (fun c => key_char c && is_ascii c) key.

(** The key under which a pair comes back. *)
Definition decoded_key (key : str) : str :=
  _pascal_to_snake (strip (_snake_to_short_pascal key)).

(** No two pairs that are written come back under the same key. *)
Definition no_collision (d : record) : bool :=
  bool_decide (NoDup (map (fun kv => decoded_key (fst kv)) (kept d))).

Definition flat_record_ok (d : record) : bool :=
  forallb (fun kv => key_ok (fst kv) && flat_ok (snd kv)) d && no_collision d.

(** A flat value or one level of nested record. *)
Definition value_ok (v : value) : bool :=
  flat_ok v ||
  match v with
  | VDict d => flat_record_ok d
  | _ => false
  end.

Definition record_ok (r : record) : bool :=
  forallb (fun kv => key_ok (fst kv) && value_ok (snd kv)) r && no_collision r.

(** What comes back for a float: the value cut to four significant digits,
    as an [int] when the text shows neither point nor exponent, and
    otherwise as the float nearest to that decimal number. *)
Definition float_back (x : pyfloat) : value :=
  match x with
  | FFin q =>
      if Qeq_bool q 0 then VInt 0
      else
        let neg := negb (Qle_bool 0 q) in
        let '(m, e) := sig4 (if neg then - q else q)%Q in
        let sm := if neg then - m else m in
        if (0 <=? e) && (e <? 4) && (m mod 10 ^ (3 - e) =? 0)
        then VInt (sm / 10 ^ (3 - e))
        else VFloat (b64_round (Qred (inject_Z sm * pow10 (e - 3))))
  | _ => VFloat x
  end.

(** What comes back for a value. *)
Definition back_scalar (v : value) : value :=
  match v with
  | VBool b => VInt (if b then 1 else 0)
  | VFloat x => float_back x
  | _ => v
  end.

Definition back_flat (v : value) : value :=
  match v with
  | VList l => VList (map back_scalar l)
  | _ => back_scalar v
  end.

Definition back_pairs (f : value -> value) (d : record) : record :=
  map (fun kv => (decoded_key (fst kv), f (snd kv))) (kept d).

Definition back_value (v : value) : value :=
  match v with
  | VDict d => VDict (back_pairs back_flat d)
  | _ => back_flat v
  end.

(** What comes back for a record. *)
Definition back (r : record) : record := back_pairs back_value r.

(** *** Records that keep their framing *)

(** A value whose text holds no bracket and no pair separator. *)
Definition quiet (v : value) : bool := no_struct (_encode_value v).

(** What [_decode_value] makes of the text of such a value. *)
Definition reread (v : value) : value :=
  default VNone (_decode_value (fun _ => None) (strip (_encode_value v))).

(** What comes back for a value of a record that keeps its framing, at
    any depth of nested records. *)
Fixpoint reread_value (v : value) : value :=
  match v with
  | VDict d =>
      VDict ((fix pairs (d : record) : record :=
                match d with
                | [] => []
                | (key, x) :: rest =>
                    if is_empty x then pairs rest
                    else (decoded_key key, reread_value x) :: pairs rest
                end) d)
  | _ => reread v
  end.

(** What comes back for such a record. *)
Definition returned (r : record) : record := back_pairs reread_value r.

(** Every float in the value is a Python float: a binary64 number, an
    infinity or a NaN. *)
Fixpoint floats_b64 (v : value) : bool :=
  match v with
  | VFloat (FFin q) => is_b64 q
  | VList l => forallb floats_b64 l
  | VDict d =>
      (fix all (d : record) : bool :=
         match d with
         | [] => true
         | (_, x) :: rest => floats_b64 x && all rest
         end) d
  | _ => true
  end.

(** A value that keeps its framing: one whose text holds no bracket and no
    pair separator, or a record, nested to any depth, whose pairs that are
    written have such values under ASCII keys without brackets and
    separators, and come back under distinct keys. *)
Fixpoint legible_value (v : value) : bool :=
  match v with
  | VDict d =>
      (fix all (d : record) : bool :=
         match d with
         | [] => true
         | (key, x) :: rest => (is_empty x || key_ok key && legible_value x) && all rest
         end) d
      && no_collision d
  | _ => is_empty v || quiet v
  end.

(** A record whose text the scanner cuts where [encode_dict] joined it. *)
Definition legible (r : record) : bool :=
  legible_value (VDict r) && floats_b64 (VDict r).

(** *** The properties of the codec as the specification words them *)

Definition is_scalar (v : value) : bool :=
  match v with
  | VNone | VBool _ | VInt _ | VFloat _ | VStr _ => true
  | _ => false
  end.

(** A scalar, a string or a list of scalars. *)
Definition spec_flat (v : value) : bool :=
  is_scalar v ||
  match v with
  | VList l => forallb is_scalar l
  | _ => false
  end.

(** No two keys with the same alias. *)
Definition no_alias_collision (d : record) : bool :=
  bool_decide (NoDup (map (fun kv => _snake_to_short_pascal (fst kv)) d)).

(** The records of the round-trip property: scalars, strings, lists of
    scalars and one level of nested record, without alias collisions. *)
Definition spec_record (r : record) : bool :=
  forallb (fun kv =>
             spec_flat (snd kv) ||
             match snd kv with
             | VDict d => forallb (fun kv' => spec_flat (snd kv')) d && no_alias_collision d
             | _ => false
             end) r
  && no_alias_collision r.

(** Brackets that do not match: a closing bracket without an opening one,
    or an opening bracket that is never closed. *)
Fixpoint balanced_from (depth : nat) (s : str) : bool :=
  match s with
  | [] => (depth =? 0)%nat
  | c :: r =>
      if ascii_eqb c NEST_OPEN then balanced_from (S depth) r
      else if ascii_eqb c NEST_CLOSE then
        match depth with
        | O => false
        | S d => balanced_from d r
        end
      else balanced_from depth r
  end.

Definition unbalanced (s : str) : bool := negb (balanced_from 0 s).

(** A value that comes back as it is: neither a boolean nor a float, nor a
    list with one. *)
Definition verbatim (v : value) : bool :=
  match v with
  | VInt _ | VStr _ => true
  | VList l => forallb (fun x => match x with VInt _ | VStr _ => true | _ => false end) l
  | _ => false
  end.

(** The number that a value stands for. *)
Definition number_value (v : value) : option Q :=
  match v with
  | VInt z => Some (inject_Z z)
  | VFloat (FFin q) => Some q
  | _ => None
  end.

(** *** Sample records and texts *)

Definition single_reading : record := [(lit "readings", VList [VInt 7])].

Definition serial_number : record := [(lit "serial", VStr (lit "007"))].

Definition colliding_keys : record := [(lit "ab", VInt 1); (lit "a_b", VInt 2)].

Definition note_and_flag : record :=
  [(lit "note", VStr (lit "(")); (lit "flag", VBool true)].

Definition pump_report : record :=
  [(lit "pump_id", VStr (lit "P-001"));
   (lit "vibration_level", VFloat (b64_round (321 # 100)));
   (lit "is_running", VBool true);
   (lit "comment", VStr []);
   (lit "operational_hours", VInt 1200);
   (lit "top_features", VList [VStr (lit "vibration_level"); VStr (lit "temperature")]);
   (lit "last_service", VDict [(lit "task_name", VStr (lit "Oil change"));
                               (lit "hours_at_service", VInt 700);
                               (lit "signed_off", VBool false)])].

(** *** Notions for the proofs *)

(** A character of the text of a float. *)
Definition number_char (c : ascii) : bool :=
  is_digit c || ascii_eqb c "." || ascii_eqb c "e" || ascii_eqb c "+" || ascii_eqb c "-".

(** A text that begins and ends with a digit and is made of the characters
    of numbers. *)
Definition number_text (T : str) : Prop :=
  (exists c r, T = c :: r /\ is_digit c = true) /\
  (exists d r, rev T = d :: r /\ is_digit d = true) /\
  Forall (fun c => number_char c = true) T.

(** Every part with its separator. *)
Definition with_sep (parts : list str) : str :=
  concat (map (fun p => p ++ [PAIR_SEP]) parts).


(** A text that [_decode_value] hands to [_try_numeric] unchanged. *)
Definition clean (s : str) : Prop :=
  trimmed s = true /\ no_struct s = true /\ contains LIST_SEP s = false.

(** No bracket at all. *)
Definition no_brackets (s : str) : bool :=
  forallb (fun c => negb (ascii_eqb c NEST_OPEN || ascii_eqb c NEST_CLOSE)) s.

(** A text that the scanner crosses inside a bracket, to come out of it at
    the depth at which it went in. *)
Definition crosses (p : str) : Prop :=
  forall depth rest cur parts,
    (0 < depth)%Z ->
    split_loop (p ++ rest) depth cur parts = split_loop rest depth (cur ++ p) parts.

(** A text that the scanner crosses at depth 0 without splitting. *)
Definition segment (p : str) : Prop :=
  p <> [] /\
  forall rest cur parts,
    split_loop (p ++ rest) 0 cur parts = split_loop rest 0 (cur ++ p) parts.

(** The text of one pair. *)
Definition pair_text (kv : str * value) : str :=
  _snake_to_short_pascal (fst kv) ++ KV_SEP :: _encode_value (snd kv).

(** *** Key names *)

(** One part of an alias: [p.capitalize()] or [p[:4].capitalize()]. *)
Definition short_part (p : str) : str :=
  if (length p <=? 4)%nat then capitalize p else capitalize (take 4 p).

(** A segment of a key that survives the alias: at least two characters,
    all of them lower-case letters. *)
Definition plain_segment (p : str) : Prop :=
  (2 <= length p)%nat /\ Forall (fun c => is_lower c = true) p.

(** A capitalised part: an upper-case letter and a run of lower-case
    letters. *)
Definition word (w : str) : Prop :=
  exists u l ls, w = u :: l :: ls /\ is_upper u = true /\
                 Forall (fun c => is_lower c = true) (l :: ls).

(** Empty, or with an upper-case letter in front. *)
Definition upper_start (s : str) : Prop :=
  match s with
  | [] => True
  | c :: _ => is_upper c = true
  end.

(** *** What [decode] can return *)

Definition number_or_text (v : value) : bool :=
  match v with
  | VInt _ | VFloat _ | VStr _ => true
  | _ => false
  end.

(** A value as [decode] builds it: nothing, a number, a text, a list of at
    least two numbers or texts, or a record of such values; never a
    boolean. *)
Fixpoint decoded_value_ok (v : value) : bool :=
  match v with
  | VNone | VInt _ | VFloat _ | VStr _ => true
  | VBool _ => false
  | VList l => (2 <=? length l)%nat && forallb number_or_text l
  | VDict d =>
      (fix all (d : record) : bool :=
         match d with
         | [] => true
         | (_, x) :: rest => decoded_value_ok x && all rest
         end) d
  end.

Definition shaped (d : record) : Prop := decoded_value_ok (VDict d) = true.

(** The round trip, with the same room on the stack for both calls. *)
Definition round_trip (room : nat) (r : record) : option record :=
  encode room r ≫= decode room.

End Toon.

(** * [app/core/tools.py]: the calculator toolkit *)

Module Tools.

Record ServiceGap := {
  hours_remaining : Z;
  is_overdue : bool;
  percentage_of_life_used : Q
}.

(** [calculate_service_gap] *)
Definition calculate_service_gap (current_hours last_service_hours interval : Z) : ServiceGap :=
  let hours_remaining := Z.max 0 (interval - (current_hours - last_service_hours)) in
  let is_overdue := interval <=? current_hours - last_service_hours in
  let percentage_of_life_used :=
    if 0 <? interval
    then py_min 1 (inject_Z (current_hours - last_service_hours) / inject_Z interval)
    else 0%Q in
  {| hours_remaining := hours_remaining;
     is_overdue := is_overdue;
     percentage_of_life_used := py_round 3 percentage_of_life_used |}.

(** The dict that [unit_converter] returns: a result or an error text. *)
Inductive Conversion :=
| Converted (result : Q)
| Unsupported (error : str).

(** [unit_converter] *)
Definition unit_converter (value : Q) (from_unit to_unit : str) : Conversion :=
  let v := value in
  let f := Toon.lower from_unit in
  let t := Toon.lower to_unit in
  let pair_is (a b : string) := bool_decide (f = lit a) && bool_decide (t = lit b) in
  if pair_is "c" "f" || pair_is "celsius" "fahrenheit" then Converted (v * 9 / 5 + 32)%Q
  else if pair_is "f" "c" || pair_is "fahrenheit" "celsius" then Converted ((v - 32) * 5 / 9)%Q
  else if pair_is "bar" "psi" then Converted (v * (145038 # 10000))%Q
  else if pair_is "psi" "bar" then Converted (v / (145038 # 10000))%Q
  else if pair_is "days" "hours" then Converted (v * 24)%Q
  else if pair_is "hours" "days" then Converted (v / 24)%Q
  else Unsupported (lit "Unsupported conversion: " ++ f ++ lit " to " ++ t).

(** The dict that [risk_scaler] returns. *)
Inductive Scaled :=
| Fused (fused_score : Q) (weights : list Q)
| ScalerError (error : str).

Definition base_weights : list Q := [5 # 10; 3 # 10; 2 # 10]%Q.

(** [s is not None and s != 0] *)
Definition is_present (s : option Q) : bool :=
  match s with
  | Some q => negb (Qeq_bool q 0)
  | None => false
  end.

(** [s or 0.0] *)
Definition or_zero (s : option Q) : Q :=
  match s with
  | Some q => if Qeq_bool q 0 then 0%Q else q
  | None => 0%Q
  end.

(** [sum(xs)] *)
Definition py_sum (xs : list Q) : Q := fold_left Qplus xs 0%Q.

(** [risk_scaler] *)
Definition risk_scaler (raw_scores : list (option Q)) : Scaled :=
  let scores := raw_scores in
  if negb (length scores =? 3)%nat
  then ScalerError (lit "raw_scores must be [sensor, vision, history]")
  else
    let present := map is_present scores in
    if negb (existsb id present) then Fused 0 [0; 0; 0]%Q
    else
      let active_weights := map (fun '(w, p) => if p : bool then w else 0%Q) (zip base_weights present) in
      let total := py_sum active_weights in
      if Qeq_bool total 0 then Fused 0 [0; 0; 0]%Q
      else
        let norm_weights := map (fun w => (w / total)%Q) active_weights in
        let fused := py_sum (map (fun '(w, s) => (w * or_zero s)%Q) (zip norm_weights scores)) in
        Fused (py_round 4 fused) norm_weights.

End Tools.

(** * [app/models/sensor_model.py]: the feature vector *)

Module SensorModel.

(** [schemas.SensorReading] *)
Record SensorReading := {
  pump_id : str;
  temperature : option Q;
  vibration : option Q;
  pressure : option Q;
  flow_rate : option Q;
  rpm : option Q;
  operational_hours : Z
}.

Definition STRICT_FEATURE_ORDER : list string :=
  ["Temperature"; "Vibration"; "Pressure"; "Flow_Rate"; "RPM"; "Operational_Hours"]%string.

Definition DEFAULT_FEATURE_COLS : list string :=
  ["Operational_Hours"; "Vibration"; "Temperature"; "Pressure"; "Flow_Rate"]%string.

(** [_coerce_float] on what [payload.get] gives for a reading: a number, or
    [None] for a field that [model_dump(exclude_none=True)] left out. *)
Definition _coerce_float (value : option Q) : Q :=
  match value with
  | None => 0%Q
  | Some q => q
  end.

Definition _reading_to_strict_feature_list (reading : SensorReading) : list Q :=
  [_coerce_float (temperature reading);
   _coerce_float (vibration reading);
   _coerce_float (pressure reading);
   _coerce_float (flow_rate reading);
   _coerce_float (rpm reading);
   _coerce_float (Some (inject_Z (operational_hours reading)))].

(** [_reading_to_features], for the column list [_feature_cols] of the
    module. *)
Definition _reading_to_features (_feature_cols : list string) (reading : SensorReading)
  : list Q :=
  let strict_list := _reading_to_strict_feature_list reading in
  let strict_map : gmap string Q := list_to_map (zip STRICT_FEATURE_ORDER strict_list) in
  map (fun col => default 0%Q (strict_map !! col)) _feature_cols.

(** The reading with 0 in place of every missing value. *)
Definition zero_filled (reading : SensorReading) : SensorReading :=
  {| pump_id := pump_id reading;
     temperature := Some (_coerce_float (temperature reading));
     vibration := Some (_coerce_float (vibration reading));
     pressure := Some (_coerce_float (pressure reading));
     flow_rate := Some (_coerce_float (flow_rate reading));
     rpm := Some (_coerce_float (rpm reading));
     operational_hours := operational_hours reading |}.

End SensorModel.

(** * [app/core/orchestrator.py] *)

Module Orchestrator.

(** The running state: the dict handed from stage to stage. *)
Abbreviation state := (gmap string value).

Section Stages.

(** [str(v)], as used by the f-strings that extend [anomaly_query]. *)
Variable py_str : value -> str.

(** [merged = dict(state); merged.update(result)] *)
Definition merge (st result : state) : state := result ∪ st.

(** [if key not in merged and key in state: merged[key] = state[key]] *)
Definition reassert (key : string) (st merged : state) : state :=
  match merged !! key, st !! key with
  | None, Some v => <[key := v]> merged
  | _, _ => merged
  end.

(** The block under the comment "Always preserve manual_context and
    anomaly_query". *)
Definition preserve (st merged : state) : state :=
  reassert "anomaly_query" st (reassert "manual_context" st merged).

(** Truth value of a Python object. *)
Definition py_truthy (v : value) : bool :=
  match v with
  | VNone => false
  | VBool b => b
  | VInt z => negb (z =? 0)
  | VFloat (FFin q) => negb (Qeq_bool q 0)
  | VFloat _ => true
  | VStr s => negb (is_nil s)
  | VList l => negb (is_nil l)
  | VDict d => negb (is_nil d)
  end.

(** [merged["anomaly_query"] = merged.get("anomaly_query", "") + text];
    [None] stands for the [TypeError] of adding a string to a value that is
    not one. *)
Definition append_query (text : str) (merged : state) : option state :=
  match default (VStr []) (merged !! "anomaly_query") with
  | VStr prev => Some (<["anomaly_query" := VStr (prev ++ text)]> merged)
  | _ => None
  end.

(** [sensor_node], given the partial update of the inner node. *)
Definition sensor_node (st result : state) : option state :=
  let merged := preserve st (merge st result) in
  match result !! "sensor_anomaly" with
  | Some a =>
      if py_truthy a
      then append_query (lit " Sensor anomaly detected: " ++ py_str a ++ lit ".") merged
      else Some merged
  | None => Some merged
  end.

(** [feature_node], given the partial update of the inner node. *)
Definition feature_node (st result : state) : state :=
  preserve st (merge st result).

(** [service_age_node]: [result = None] when the inner node raises; any
    exception gives the state back. *)
Definition service_age_node (st : state) (result : option state) : state :=
  match result with
  | None => st
  | Some result =>
      let merged := preserve st (merge st result) in
      match result !! "service_age_anomaly" with
      | Some a =>
          if py_truthy a
          then default st (append_query (lit " Service age anomaly detected: " ++ py_str a ++ lit ".") merged)
          else merged
      | None => merged
      end
  end.

(** [manual_context_node], given the parsed answer of the knowledge
    service. *)
Definition manual_context_node (st : state) (manual_json : value) : state :=
  <["manual_context" := manual_json]> st.

(** *** Building an [AgentState] from the state dict

    The fields that the fusion reads, with their declared types; the
    coercions of the validation library are not modelled.  Keys that the
    schema does not declare are dropped. *)

Fixpoint dict_get (key : str) (d : record) : option value :=
  match d with
  | [] => None
  | (k, v) :: r => if bool_decide (k = key) then Some v else dict_get key r
  end.

Definition as_float (v : value) : option Q :=
  match v with
  | VFloat (FFin q) => Some q
  | VInt z => Some (inject_Z z)
  | _ => None
  end.

Definition as_bool (v : value) : option bool :=
  match v with VBool b => Some b | _ => None end.

Definition as_str (v : value) : option str :=
  match v with VStr s => Some s | _ => None end.

Definition as_str_list (v : value) : option (list str) :=
  match v with
  | VList l => mapM as_str l
  | _ => None
  end.

(** A field with a default. *)
Definition field {A} (conv : value -> option A) (dflt : A) (v : option value) : option A :=
  match v with
  | None => Some dflt
  | Some x => conv x
  end.

(** An optional field: absent or [None] gives [None]. *)
Definition optional {A} (conv : value -> option A) (v : option value) : option (option A) :=
  match v with
  | None | Some VNone => Some None
  | Some x => Some <$> conv x
  end.

Definition unit_interval (q : Q) : bool := Qle_bool 0 q && Qle_bool q 1.

Definition validate_vision (v : value) : option Fusion.VisionResult :=
  match v with
  | VDict d =>
      leaks ← field as_bool false (dict_get (lit "has_leaks") d);
      cracks ← field as_bool false (dict_get (lit "has_cracks") d);
      score ← field as_float 0%Q (dict_get (lit "visual_risk_score") d);
      if unit_interval score
      then Some {| Fusion.has_leaks := leaks; Fusion.has_cracks := cracks;
                   Fusion.visual_risk_score := score |}
      else None
  | _ => None
  end.

Definition validate_history (v : value) : option Fusion.HistoryResult :=
  match v with
  | VDict d =>
      tasks ← field as_str_list [] (dict_get (lit "overdue_tasks") d);
      Some {| Fusion.overdue_tasks := tasks |}
  | _ => None
  end.

Definition validate (st : state) : option Fusion.AgentState :=
  _ ← st !! "pump_id" ≫= as_str;
  _ ← st !! "current_total_hours" ≫= (fun v => match v with VInt z => Some z | _ => None end);
  sensor ← field as_float 0%Q (st !! "sensor_risk_score");
  vision ← optional validate_vision (st !! "vision_result");
  history ← optional validate_history (st !! "history_result");
  hist_score ← optional as_float (st !! "history_risk_score");
  trig ← field as_str_list [] (st !! "triggered_sensors");
  Some {| Fusion.sensor_risk_score := sensor;
          Fusion.vision_result := vision;
          Fusion.history_result := history;
          Fusion.history_risk_score := hist_score;
          Fusion.service_age_risk_score := None;
          Fusion.transactional_risk_score := None;
          Fusion.triggered_sensors := trig |}.

Definition VFloatQ (q : Q) : value := VFloat (FFin q).

(** [final_json] of [fuse_and_explain] as a partial update. *)
Definition report_update (r : Fusion.FinalReport) : state :=
  {[ "fused_score" := VFloatQ (Fusion.fused_score r);
     "status_label" := VStr (Fusion.status_label r);
     "explanation" := VStr (Fusion.explanation r);
     "top_signals" := VList (map VStr (Fusion.top_signals r));
     "action_items" := VList (map VStr (Fusion.action_items r));
     "modality_contributions" :=
       VDict (map (fun '(k, (sc, w)) =>
                     (lit k, VDict [(lit "score", VFloatQ sc); (lit "weight", VFloatQ w)]))
                  (Fusion.modality_contributions r));
     "manual_context" := Fusion.manual_context r;
     "anomaly_query" := Fusion.anomaly_query r ]}.

(** The default report for a state that does not validate. *)
Definition fallback : state :=
  {[ "fused_score" := VFloatQ 0;
     "status_label" := VStr (lit "low");
     "explanation" := VStr (lit "Unable to process: incomplete state");
     "top_signals" := VList [];
     "action_items" := VList [VStr (lit "Check system configuration")] ]}.

(** [if key in state: fallback[key] = state[key]] *)
Definition copy_key (key : string) (st fb : state) : state :=
  match st !! key with
  | Some v => <[key := v]> fb
  | None => fb
  end.

Definition fallback_for (st : state) : state :=
  copy_key "request_id" st (copy_key "current_total_hours" st (copy_key "pump_id" st fallback)).

(** [fusion_node] *)
Definition fusion_node (st : state) : state :=
  match validate st with
  | None => merge st (fallback_for st)
  | Some agent =>
      let update := report_update (Fusion.fuse_and_explain agent) in
      preserve st (merge st update)
  end.

(** [vision_node]: [summary = None] when there is no image to look at;
    the result is [None] when the node raises. *)
Definition vision_node (st : state) (summary : option str) : option state :=
  match validate st with
  | None => None
  | Some _ =>
      match summary with
      | None => Some st
      | Some text =>
          let merged := preserve st (<["vision_summary" := VStr text]> st) in
          append_query (lit " vision_summary: " ++ text ++ lit ";") merged
      end
  end.

(** What the collaborators of one run answer. *)
Record Answers := {
  sensor_result : state;
  service_age_result : option state;
  feature_result : state;
  manual_json : value;
  vision_summary : option str
}.

(** The linear graph of [build_graph]: sensor, service age, feature,
    manual context, vision, fusion; what a node returns is the state of the
    next one. *)
Definition run_graph (a : Answers) (initial : state) : option state :=
  s1 ← sensor_node initial (sensor_result a);
  let s2 := service_age_node s1 (service_age_result a) in
  let s3 := feature_node s2 (feature_result a) in
  let s4 := manual_context_node s3 (manual_json a) in
  s5 ← vision_node s4 (vision_summary a);
  Some (fusion_node s5).

End Stages.

(** *** Routing *)

(** [route_modalities]; [modalities] holds the name of each entry of
    [available_modalities] (the value of the enum member, or its text). *)
Definition route_modalities (modalities : list str) : list string :=
  let norm_modalities := map Toon.lower modalities in
  let listed (name : string) := bool_decide (lit name ∈ norm_modalities) in
  let nodes :=
    (if listed "sensor" then ["sensor_node"%string] else []) ++
    (if listed "text" then ["text_node"%string] else []) ++
    (if listed "vision" then ["vision_node"%string] else []) ++
    (if listed "historical" || listed "history" then ["feature_node"%string] else []) in
  if is_nil nodes then ["fusion_node"%string] else nodes.

(** The nodes that [build_graph] registers, in the order of its edges. *)
Definition graph_nodes : list string :=
  ["sensor_node"; "service_age_node"; "feature_node"; "manual_context_node";
   "vision_node"; "fusion_node"]%string.

(** The keys of the report that the fusion stage merges into the state. *)
Definition report_keys : list string :=
  ["fused_score"; "status_label"; "explanation"; "top_signals"; "action_items";
   "modality_contributions"; "manual_context"; "anomaly_query"]%string.

(** The keys of the state that [validate] reads. *)
Definition validated_keys : list string :=
  ["pump_id"; "current_total_hours"; "sensor_risk_score"; "vision_result";
   "history_result"; "history_risk_score"; "triggered_sensors"]%string.

(** *** The graph with the updates of the inner nodes *)

Section Graph.

Variable py_str : value -> str.
Variable quantile : Q -> list Q -> Q.
Variable mean : list Q -> Q.
Variable std : list Q -> Q.

(** [nodes/sensor_node.sensor_node].  [has_sensor_input] tells whether the
    validated state carries a sensor input; [prediction] is the answer of
    the model, [None] when no model is loaded.  The result is [None] when
    the text cannot be appended to [anomaly_query]. *)
Definition sensor_update (st : state) (has_sensor_input : bool) (prediction : option Q)
  : option state :=
  match validate st with
  | None => Some ∅
  | Some _ =>
      if negb has_sensor_input then Some ∅
      else
        match default (VStr []) (st !! "anomaly_query") with
        | VStr prev_query =>
            match prediction with
            | None =>
                Some {[ "sensor_risk_score" := VFloatQ 0;
                        "anomaly_query" := VStr (prev_query ++ lit " sensor_risk_score: 0.0;") ]}
            | Some p =>
                Some {[ "sensor_risk_score" := VFloatQ p;
                        "anomaly_query" :=
                          VStr (prev_query ++ lit " sensor_risk_score: " ++ py_str (VFloatQ p)
                                ++ lit ";") ]}
            end
        | _ => None
        end
  end.

Definition overdue_entry (t : ServiceAge.OverdueTask) : value :=
  VDict [(lit "task_name", VStr (ServiceAge.task_name t));
         (lit "overdue_hours", VInt (ServiceAge.overdue_hours t));
         (lit "interval_hours", VInt (ServiceAge.interval_hours t));
         (lit "last_done", VInt (ServiceAge.last_done t));
         (lit "current_total_hours", VInt (ServiceAge.current_total_hours t))].

Definition request_entry (r : str * str * str) : value :=
  let '(d, p, s) := r in
  VDict [(lit "description", VStr d); (lit "priority", VStr p); (lit "status", VStr s)].

(** The dict that [service_age_node.service_age_node] returns for what it
    found; the handler of the node returns the state itself, also when the
    text cannot be appended to [anomaly_query]. *)
Definition service_age_update (st : state) (r : ServiceAge.NodeResult) : state :=
  match r with
  | ServiceAge.InvestigatorError msg => {[ "investigator_error" := VStr msg ]}
  | ServiceAge.Unchanged => st
  | ServiceAge.Evaluated overdue open_requests =>
      let overdue_tasks := VList (map overdue_entry overdue) in
      let open_requests := VList (map request_entry open_requests) in
      match default (VStr []) (st !! "anomaly_query") with
      | VStr prev_query =>
          {[ "overdue_tasks" := overdue_tasks;
             "open_requests" := open_requests;
             "anomaly_query" :=
               VStr (prev_query ++ lit " overdue_tasks: " ++ py_str overdue_tasks ++
                     lit "; open_requests: " ++ py_str open_requests ++ lit ";") ]}
      | _ => st
      end
  end.

Definition optional_float (v : option Q) : value :=
  match v with
  | Some q => VFloatQ q
  | None => VNone
  end.

Definition stats_dict (l : list (string * option Q)) : value :=
  VDict (map (fun '(s, v) => (lit s, optional_float v)) l).

(** The seven keys that every result of [feature_node.feature_node]
    carries. *)
Definition history_update (res : Baseline.Result) (historical_toon_string : value) : state :=
  {[ "adaptive_thresholds" := stats_dict (Baseline.adaptive_thresholds res);
     "rolling_means" := stats_dict (Baseline.rolling_means res);
     "drift_scores" := stats_dict (Baseline.drift_scores res);
     "is_historical_outlier" := VBool (Baseline.is_historical_outlier res);
     "historical_toon_string" := historical_toon_string;
     "history_risk_score" := optional_float (Baseline.history_risk_score res);
     "triggered_sensors" := VList (map (fun s => VStr (lit s)) (Baseline.triggered_sensors res)) ]}.

(** The texts of the result that are not modelled: the two encoded
    summaries, the report appended to [anomaly_query] and the message of an
    exception. *)
Record FeatureTexts := {
  historical_toon : str;
  transactional_toon : value;
  report : str;
  error_text : str
}.

(** The dict that [feature_node.feature_node] returns.  An exception while
    the frame is processed, such as appending to an [anomaly_query] that is
    not a string, gives the empty result with the message. *)
Definition feature_update (st : state) (file : Baseline.HistoryFile) (live : string -> option Q)
    (texts : FeatureTexts) : state :=
  match file with
  | Baseline.Missing => history_update Baseline._empty_history VNone
  | Baseline.TooLarge =>
      history_update Baseline._empty_history (VStr (lit "File too large (>50MB)"))
  | Baseline.NotCsv =>
      history_update Baseline._empty_history (VStr (lit "Invalid file type (not CSV)"))
  | Baseline.MissingColumns =>
      history_update Baseline._empty_history (VStr (lit "CSV missing required columns"))
  | Baseline.Frame _ _ _ =>
      match default (VStr []) (st !! "anomaly_query") with
      | VStr prev_query =>
          <["anomaly_query" := VStr (prev_query ++ report texts)]>
            (<["transactional_toon_string" := transactional_toon texts]>
               (history_update (Baseline.feature_node quantile mean std file live)
                               (VStr (historical_toon texts))))
      | _ => history_update Baseline._empty_history (VStr (error_text texts))
      end
  end.

(** What the services outside the program answer during one run. *)
Record Collaborators := {
  has_sensor_input : bool;
  prediction : option Q;
  investigation : ServiceAge.NodeResult;
  history_file : Baseline.HistoryFile;
  live_values : string -> option Q;
  feature_texts : FeatureTexts;
  knowledge : value;
  image_summary : option str
}.

(** The compiled graph of [build_graph], each wrapper with its inner
    node. *)
Definition build_graph (c : Collaborators) (initial : state) : option state :=
  r1 ← sensor_update initial (has_sensor_input c) (prediction c);
  s1 ← sensor_node py_str initial r1;
  let s2 := service_age_node py_str s1 (Some (service_age_update s1 (investigation c))) in
  let s3 := feature_node s2 (feature_update s2 (history_file c) (live_values c) (feature_texts c)) in
  let s4 := manual_context_node s3 (knowledge c) in
  s5 ← vision_node s4 (image_summary c);
  Some (fusion_node s5).

End Graph.


(** A state as the fusion stage receives it: identifiers, the sensor
    score, the anomaly text gathered so far and the knowledge context. *)
Definition state_before_fusion : state :=
  {[ "pump_id" := VStr (lit "P-001");
     "current_total_hours" := VInt 1200;
     "sensor_risk_score" := VFloatQ (9 # 10);
     "anomaly_query" := VStr (lit " sensor_risk_score: 0.9;");
     "manual_context" :=
       VDict [(lit "normal_range", VStr (lit "Max Pressure: 60 psi"));
              (lit "causes", VStr (lit "Vibration: Loose magnet"));
              (lit "warranty", VStr (lit "12 months"))] ]}.

(** A rendering of values, for runs in which the wording of [str(v)] is
    not at stake. *)
Definition plain_str (v : value) : str := Toon._encode_value v.

(** A fresh state as the API builds it, and one run: the model answers 0.9,
    the store holds the sample schedule, there is no history file and no
    image. *)
Definition fresh_state : state :=
  {[ "pump_id" := VStr (lit "P-001");
     "current_total_hours" := VInt 1200;
     "sensor_risk_score" := VFloatQ 0 ]}.

Definition sample_run : Collaborators :=
  {| has_sensor_input := true;
     prediction := Some (9 # 10)%Q;
     investigation :=
       ServiceAge.service_age_node (lit "P-001") (Some 1200) None
         (ServiceAge.Tables ServiceAge.sample_db);
     history_file := Baseline.Missing;
     live_values := fun _ => None;
     feature_texts :=
       {| historical_toon := []; transactional_toon := VNone; report := []; error_text := [] |};
     knowledge := VDict [(lit "causes", VStr (lit "Vibration: Loose magnet"))];
     image_summary := None |}.

(** The same run seen from the wrappers: what the inner nodes hand back. *)
Definition sample_answers : Answers :=
  {| sensor_result := {[ "sensor_risk_score" := VFloatQ (9 # 10) ]};
     service_age_result := None;
     feature_result := ∅;
     manual_json := VDict [(lit "causes", VStr (lit "Vibration: Loose magnet"))];
     vision_summary := None |}.

End Orchestrator.

(** * Properties *)

Local Open Scope Q_scope.

(** Case analysis over all 256 characters. *)
Ltac all_chars c :=
  destruct c as [[] [] [] [] [] [] [] []]; vm_compute; try reflexivity; try discriminate.

(** ** Risk labels *)

Section RiskLabel.

Import Fusion.

Lemma Qle_bool_false (a b : Q) : Qle_bool a b = false <-> b < a.
Proof.
  split; intros H.
  - apply Qnot_le_lt. intros Hle. apply Qle_bool_iff in Hle. congruence.
  - destruct (Qle_bool a b) eqn:E; [|reflexivity].
    apply Qle_bool_iff in E. exfalso. apply (Qlt_not_le _ _ H E).
Qed.

Lemma risk_label_agrees (p : Q) :
  get_risk_threshold_label p = RiskLevel_value (_risk_from_prob p).
Proof.
  unfold get_risk_threshold_label, _risk_from_prob.
  repeat destruct (Qle_bool _ p); reflexivity.
Qed.

Ltac label_cases p :=
  unfold _risk_from_prob;
  destruct (Qle_bool (85 # 100) p) eqn:?H85;
  destruct (Qle_bool (60 # 100) p) eqn:?H60;
  destruct (Qle_bool (35 # 100) p) eqn:?H35;
  repeat match goal with
         | H : Qle_bool _ _ = true |- _ => apply Qle_bool_iff in H
         | H : Qle_bool _ _ = false |- _ => apply Qle_bool_false in H
         end.

(** C2.  The label is a function of the probability that depends only on its
    value, is given by the thresholds 0.85, 0.60 and 0.35, never decreases
    when the probability grows, and puts each threshold itself into the
    higher band; the tool and the fusion helper agree. *)
Theorem risk_label_monotone_thresholds (p q : Q) :
  p <= q ->
  (rank (_risk_from_prob p) <= rank (_risk_from_prob q))%nat /\
  (_risk_from_prob p = CRITICAL <-> 85 # 100 <= p) /\
  (_risk_from_prob p = HIGH <-> 60 # 100 <= p /\ p < 85 # 100) /\
  (_risk_from_prob p = MEDIUM <-> 35 # 100 <= p /\ p < 60 # 100) /\
  (_risk_from_prob p = LOW <-> p < 35 # 100) /\
  (p == q -> _risk_from_prob p = _risk_from_prob q) /\
  get_risk_threshold_label p = RiskLevel_value (_risk_from_prob p) /\
  get_risk_threshold_label (35 # 100) = lit "medium" /\
  get_risk_threshold_label (60 # 100) = lit "high" /\
  get_risk_threshold_label (85 # 100) = lit "critical".
Proof.
  intros Hpq.
  split; [|split; [|split; [|split; [|split; [|split; [|split]]]]]].
  - label_cases p; label_cases q; simpl; solve [lia | lra].
  - label_cases p; split; intros; solve [congruence | lra].
  - label_cases p; split; intros; solve [congruence | lra].
  - label_cases p; split; intros; solve [congruence | lra].
  - label_cases p; split; intros; solve [congruence | lra].
  - intros Heq. label_cases p; label_cases q; solve [reflexivity | lra].
  - apply risk_label_agrees.
  - repeat split; reflexivity.
Qed.

Lemma risk_label_monotone_thresholds_witness :
  (rank (_risk_from_prob (35 # 100)) <= rank (_risk_from_prob (60 # 100)))%nat /\
  _risk_from_prob (35 # 100) = MEDIUM.
Proof.
  assert (H : 35 # 100 <= 60 # 100) by (vm_compute; discriminate).
  pose proof (risk_label_monotone_thresholds (35 # 100) (60 # 100) H) as T.
  split; [exact (proj1 T) | reflexivity].
Defined.

End RiskLabel.

(** ** Fusion *)

Section FusionFacts.

Import Fusion.

Lemma weight_sensor : weight "sensor" == (8 # 10) / nominal_total.
Proof. reflexivity. Qed.
Lemma weight_vision : weight "vision" == (2 # 10) / nominal_total.
Proof. reflexivity. Qed.
Lemma weight_history : weight "history" == (1 # 10) / nominal_total.
Proof. reflexivity. Qed.
Lemma weight_service_age : weight "service_age" == (2 # 10) / nominal_total.
Proof. reflexivity. Qed.
Lemma weight_transactional : weight "transactional" == (2 # 10) / nominal_total.
Proof. reflexivity. Qed.

Lemma vision_score_unit st : scores_in_unit st -> in_unit (vision_score st).
Proof.
  intros (_ & Hv & _). unfold vision_score.
  destruct (vision_result st) as [v|]; [apply Hv; reflexivity | split; lra].
Qed.

Lemma history_score_unit st : scores_in_unit st -> in_unit (history_score st).
Proof.
  intros (_ & _ & Hh & _). unfold history_score.
  destruct (history_risk_score st) as [h|]; [|split; lra].
  destruct (Qeq_bool h 0); [split; lra | apply Hh; reflexivity].
Qed.

Lemma service_age_score_unit st : scores_in_unit st -> in_unit (service_age_score st).
Proof.
  intros (_ & _ & _ & Ha & _). unfold service_age_score.
  destruct (service_age_risk_score st) as [a|]; [apply Ha; reflexivity | split; simpl; lra].
Qed.

Lemma transactional_score_unit st : scores_in_unit st -> in_unit (transactional_score st).
Proof.
  intros (_ & _ & _ & _ & Ht). unfold transactional_score.
  destruct (transactional_risk_score st) as [a|]; [apply Ht; reflexivity | split; simpl; lra].
Qed.

Lemma history_score_value st : history_score st == default 0 (history_risk_score st).
Proof.
  unfold history_score. destruct (history_risk_score st) as [h|]; [|reflexivity].
  simpl. destruct (Qeq_bool h 0) eqn:E; [|reflexivity].
  apply Qeq_bool_iff in E. now rewrite E.
Qed.

(** C1.  With all five scores in [0,1], the fused score is the sum, over the
    five modalities, of the score that the state carries times the nominal
    weight divided by the total of the nominal weights; a modality for which
    the state carries no value enters with score 0; and the fused score lies
    in [0,1].  The report gives each modality with the score and the weight
    that entered. *)
Theorem fused_score_weighted_sum (st : AgentState) :
  scores_in_unit st ->
  fused_score (fuse_and_explain st) ==
    (8 # 10) / nominal_total * sensor_risk_score st +
    (2 # 10) / nominal_total * from_option visual_risk_score 0 (vision_result st) +
    (1 # 10) / nominal_total * default 0 (history_risk_score st) +
    (2 # 10) / nominal_total * default 0 (service_age_risk_score st) +
    (2 # 10) / nominal_total * default 0 (transactional_risk_score st) /\
  0 <= fused_score (fuse_and_explain st) <= 1 /\
  (vision_result st = None -> history_risk_score st = None ->
   service_age_risk_score st = None -> transactional_risk_score st = None ->
   fused_score (fuse_and_explain st) == (8 # 10) / nominal_total * sensor_risk_score st) /\
  Forall2 (fun entry expected =>
             fst entry = fst expected /\ fst (snd entry) == fst (snd expected) /\
             snd (snd entry) == snd (snd expected))
    (modality_contributions (fuse_and_explain st))
    [("sensor"%string, (sensor_risk_score st, (8 # 10) / nominal_total));
     ("vision"%string, (from_option visual_risk_score 0 (vision_result st),
                        (2 # 10) / nominal_total));
     ("history"%string, (default 0 (history_risk_score st), (1 # 10) / nominal_total));
     ("service_age"%string, (default 0 (service_age_risk_score st), (2 # 10) / nominal_total));
     ("transactional"%string, (default 0 (transactional_risk_score st),
                               (2 # 10) / nominal_total))].
Proof.
  intros Hu.
  assert (Hf : fused_score (fuse_and_explain st) ==
    (8 # 10) / nominal_total * sensor_risk_score st +
    (2 # 10) / nominal_total * from_option visual_risk_score 0 (vision_result st) +
    (1 # 10) / nominal_total * default 0 (history_risk_score st) +
    (2 # 10) / nominal_total * default 0 (service_age_risk_score st) +
    (2 # 10) / nominal_total * default 0 (transactional_risk_score st)).
  { simpl. unfold fused_prob.
    rewrite weight_sensor, weight_vision, weight_history, weight_service_age,
      weight_transactional, history_score_value. reflexivity. }
  split; [exact Hf|]. split; [|split].
  - cbn [fused_score fuse_and_explain]. unfold fused_prob.
    rewrite weight_sensor, weight_vision, weight_history, weight_service_age,
      weight_transactional.
    pose proof (vision_score_unit st Hu) as [? ?].
    pose proof (history_score_unit st Hu) as [? ?].
    pose proof (service_age_score_unit st Hu) as [? ?].
    pose proof (transactional_score_unit st Hu) as [? ?].
    destruct Hu as ([? ?] & _). unfold sensor_score.
    assert (E8 : (8 # 10) / nominal_total == 8 # 15) by reflexivity.
    assert (E2 : (2 # 10) / nominal_total == 2 # 15) by reflexivity.
    assert (E1 : (1 # 10) / nominal_total == 1 # 15) by reflexivity.
    rewrite E8, E2, E1. split; lra.
  - intros Ev Eh Ea Et. rewrite Hf, Ev, Eh, Ea, Et. simpl. ring.
  - cbn [modality_contributions fuse_and_explain].
    repeat constructor; cbn [fst snd];
      try reflexivity;
      try (apply weight_sensor || apply weight_vision || apply weight_history
           || apply weight_service_age || apply weight_transactional).
    apply history_score_value.
Qed.

Lemma fused_score_weighted_sum_witness :
  fused_score (fuse_and_explain all_modalities) == 66 # 100 /\
  0 <= fused_score (fuse_and_explain all_modalities) <= 1.
Proof.
  assert (H : scores_in_unit all_modalities).
  { unfold scores_in_unit, in_unit; simpl.
    split; [split; vm_compute; discriminate|].
    split; [intros ? [= <-]; split; vm_compute; discriminate|].
    split; [intros ? [= <-]; split; vm_compute; discriminate|].
    split; intros ? [= <-]; split; vm_compute; discriminate. }
  pose proof (fused_score_weighted_sum all_modalities H) as (E & B & _).
  split; [|exact B]. rewrite E. reflexivity.
Defined.

(** C8.  Scenario A, where the code departs from its own comment "do not
    drag down by missing modalities": with only the sensor score 0.9 the
    weights of the four missing modalities stay in the total, so the fused
    score is 0.48 and the label "medium", not "critical", and the
    explanation lists all five modalities, the four missing ones with score
    0.00.  The sibling tool [risk_scaler] gives the weight of the missing
    modalities to the sensor and returns 0.9 for the same scores, which the
    thresholds label "critical". *)
Theorem scenario_A_report :
  fused_score (fuse_and_explain scenario_A) == 48 # 100 /\
  status_label (fuse_and_explain scenario_A) = lit "medium" /\
  status_label (fuse_and_explain scenario_A) <> lit "critical" /\
  explanation (fuse_and_explain scenario_A) =
    lit ("The risk score is a weighted fusion of all available modalities: " ++
         "Sensor (53%, 0.90), Vision (13%, 0.00), History (7%, 0.00), " ++
         "Service Age (13%, 0.00), Transactional (13%, 0.00).") /\
  exists fused weights,
    Tools.risk_scaler [Some (sensor_risk_score scenario_A); None; None]
      = Tools.Fused fused weights /\
    fused == 9 # 10 /\
    get_risk_threshold_label fused = lit "critical".
Proof.
  split; [reflexivity|]. split; [reflexivity|]. split; [vm_compute; discriminate|].
  split; [reflexivity|].
  eexists _, _. split; [reflexivity|]. split; reflexivity.
Qed.

End FusionFacts.

(** ** Maintenance compliance *)

Section ServiceAgeFacts.

Import ServiceAge.

Local Open Scope Z_scope.

Lemma sorts_before_refl r : sorts_before r r = true.
Proof. unfold sorts_before. apply orb_true_iff. right. apply andb_true_iff. lia. Qed.

Lemma sorts_before_trans a b c :
  sorts_before a b = true -> sorts_before b c = true -> sorts_before a c = true.
Proof.
  unfold sorts_before. rewrite !orb_true_iff, !andb_true_iff.
  rewrite !Z.ltb_lt, !Z.eqb_eq, !Z.leb_le. lia.
Qed.

Lemma sorts_before_total a b : sorts_before a b = false -> sorts_before b a = true.
Proof.
  unfold sorts_before. rewrite orb_false_iff, andb_false_iff, orb_true_iff, andb_true_iff.
  rewrite !Z.ltb_lt, !Z.ltb_ge, !Z.eqb_eq, !Z.eqb_neq, !Z.leb_le, !Z.leb_gt. lia.
Qed.

(** The row that the query returns belongs to the table and comes first
    under the order of the query. *)
Lemma first_row_spec rows r :
  first_row rows = Some r ->
  In r rows /\ forall r', In r' rows -> sorts_before r r' = true.
Proof.
  revert r. induction rows as [|x rest IH]; intros r; simpl; [discriminate|].
  destruct (first_row rest) as [b|] eqn:Eb.
  - destruct (IH b eq_refl) as [Hin Hmax].
    destruct (sorts_before x b) eqn:Exb; intros [= <-].
    + split; [now left|]. intros r' [<-|Hr']; [apply sorts_before_refl|].
      eapply sorts_before_trans; [exact Exb | apply Hmax, Hr'].
    + split; [now right|]. intros r' [<-|Hr']; [now apply sorts_before_total | apply Hmax, Hr'].
  - intros [= <-]. destruct rest as [|y rest']; [|simpl in Eb; destruct (first_row rest'); [destruct (sorts_before y w)|]; discriminate].
    split; [now left|]. intros r' [<-|[]]. apply sorts_before_refl.
Qed.


Lemma check_task_none db pump cur task interval :
  cur - last_done_of db pump task - interval <= 0 ->
  check_task db pump cur (task, interval) = None.
Proof. intros H. unfold check_task. apply Z.ltb_ge in H. rewrite H. reflexivity. Qed.

Lemma check_task_inv db pump cur sched t :
  check_task db pump cur sched = Some t ->
  sched = (task_name t, interval_hours t) /\
  0 < overdue_hours t /\
  overdue_hours t = cur - last_done t - interval_hours t /\
  last_done t = last_done_of db pump (task_name t) /\
  current_total_hours t = cur.
Proof.
  destruct sched as [task interval]. unfold check_task.
  destruct (0 <? cur - last_done_of db pump task - interval) eqn:E; [|discriminate].
  apply Z.ltb_lt in E. intros [= <-]. simpl. auto.
Qed.



End ServiceAgeFacts.

(** ** Baseline statistics *)

Section BaselineFacts.

Import Baseline.

Variable quantile : Q -> list Q -> Q.
Variable mean : list Q -> Q.
Variable std : list Q -> Q.

Lemma Qlt_bool_true a b : Qlt_bool a b = true <-> a < b.
Proof.
  unfold Qlt_bool. rewrite negb_true_iff. apply Qle_bool_false.
Qed.

(** The divisor of the drift score is positive for every series. *)
Lemma global_std_pos vals : 0 < global_std std vals.
Proof.
  unfold global_std. destruct (Qlt_bool 0 (std vals)) eqn:E.
  - now apply Qlt_bool_true.
  - reflexivity.
Qed.

(** C6.  A sensor with fewer than 10 non-null samples has no threshold, no
    rolling mean and no drift score; with 10 or more all three are there;
    the node reports these three numbers of each sensor column. *)
Theorem stats_need_ten_samples (col : list (option Q)) :
  ((length (drop_nulls col) < 10)%nat ->
     adaptive_threshold (sensor_stats quantile mean std col) = None /\
     rolling_mean (sensor_stats quantile mean std col) = None /\
     drift_score (sensor_stats quantile mean std col) = None) /\
  ((10 <= length (drop_nulls col))%nat ->
     is_Some (adaptive_threshold (sensor_stats quantile mean std col)) /\
     is_Some (rolling_mean (sensor_stats quantile mean std col)) /\
     is_Some (drift_score (sensor_stats quantile mean std col))) /\
  (forall v t p live,
     let res := feature_node quantile mean std (Frame v t p) live in
     let st c := sensor_stats quantile mean std c in
     adaptive_thresholds res =
       [("Vibration", adaptive_threshold (st v)); ("Temperature", adaptive_threshold (st t));
        ("Pressure", adaptive_threshold (st p))]%string /\
     rolling_means res =
       [("Vibration", rolling_mean (st v)); ("Temperature", rolling_mean (st t));
        ("Pressure", rolling_mean (st p))]%string /\
     drift_scores res =
       [("Vibration", drift_score (st v)); ("Temperature", drift_score (st t));
        ("Pressure", drift_score (st p))]%string).
Proof.
  unfold sensor_stats. split; [|split]; [intros H | intros H | ].
  - apply Nat.ltb_lt in H. rewrite H. repeat split.
  - apply Nat.ltb_ge in H. rewrite H. simpl. repeat split; eexists; reflexivity.
  - intros v t p live. repeat split.
Qed.

(** C7, amended.  For a series of at least 10 non-null samples whose
    standard deviation, as the library computes it, is zero, the divisor of
    the drift score is floored to 1 and the drift score is the rolling mean
    minus the global mean.  The divisor is positive for every series, so
    the drift is never divided by zero; a deviation that the library
    computes as positive, however small, is used as it is. *)
Theorem constant_series_drift (col : list (option Q)) :
  (10 <= length (drop_nulls col))%nat ->
  std (drop_nulls col) == 0 ->
  global_std std (drop_nulls col) = 1 /\
  (forall vals, 0 < global_std std vals) /\
  (forall vals, 0 < std vals -> global_std std vals = std vals) /\
  exists rm d,
    rolling_mean (sensor_stats quantile mean std col) = Some rm /\
    drift_score (sensor_stats quantile mean std col) = Some d /\
    d == rm - mean (drop_nulls col).
Proof.
  intros Hlen Hstd.
  assert (Hg : global_std std (drop_nulls col) = 1).
  { unfold global_std. destruct (Qlt_bool 0 (std (drop_nulls col))) eqn:E; [|reflexivity].
    apply Qlt_bool_true in E. rewrite Hstd in E. lra. }
  split; [exact Hg|]. split; [apply global_std_pos|]. split.
  - intros vals Hp. unfold global_std. apply Qlt_bool_true in Hp. now rewrite Hp.
  - unfold sensor_stats. apply Nat.ltb_ge in Hlen. rewrite Hlen. simpl.
    eexists _, _. split; [reflexivity|]. split; [reflexivity|].
    rewrite Hg. field.
Qed.

End BaselineFacts.

Lemma stats_need_ten_samples_witness :
  Baseline.rolling_mean
    (Baseline.sensor_stats Baseline.quantile_nearest Baseline.mean_b64 Baseline.std_b64 Baseline.nine_samples) = None /\
  is_Some (Baseline.rolling_mean
    (Baseline.sensor_stats Baseline.quantile_nearest Baseline.mean_b64 Baseline.std_b64 Baseline.ten_samples)).
Proof.
  split.
  - apply (proj1 (stats_need_ten_samples Baseline.quantile_nearest Baseline.mean_b64 Baseline.std_b64
                    Baseline.nine_samples)).
    vm_compute. lia.
  - apply (proj1 (proj2 (stats_need_ten_samples Baseline.quantile_nearest Baseline.mean_b64 Baseline.std_b64
                    Baseline.ten_samples))).
    vm_compute. lia.
Defined.

Lemma constant_series_drift_witness :
  Baseline.global_std Baseline.std_b64 (Baseline.drop_nulls Baseline.stuck_sensor) = 1 /\
  exists rm d,
    Baseline.rolling_mean
      (Baseline.sensor_stats Baseline.quantile_nearest Baseline.mean_b64 Baseline.std_b64
         Baseline.stuck_sensor) = Some rm /\
    Baseline.drift_score
      (Baseline.sensor_stats Baseline.quantile_nearest Baseline.mean_b64 Baseline.std_b64
         Baseline.stuck_sensor) = Some d /\
    d == rm - Baseline.mean_b64 (Baseline.drop_nulls Baseline.stuck_sensor).
Proof.
  assert (Hlen : (10 <= length (Baseline.drop_nulls Baseline.stuck_sensor))%nat)
    by (vm_compute; lia).
  assert (Hstd : Baseline.std_b64 (Baseline.drop_nulls Baseline.stuck_sensor) == 0)
    by (vm_compute; reflexivity).
  pose proof (constant_series_drift Baseline.quantile_nearest Baseline.mean_b64
                Baseline.std_b64 Baseline.stuck_sensor Hlen Hstd) as (G & _ & _ & D).
  split; [exact G | exact D].
Defined.

(** C7, as stated, fails in binary64: 101 readings that are all the float
    0.1 have a computed standard deviation above zero, so the divisor is not
    floored to 1 and the drift score is not the rolling mean minus the
    global mean. *)
Lemma constant_series_not_floored :
  Forall (fun x => x = fl (1 # 10)) (Baseline.drop_nulls Baseline.stuck_at_tenth) /\
  (10 <= length (Baseline.drop_nulls Baseline.stuck_at_tenth))%nat /\
  0 < Baseline.std_b64 (Baseline.drop_nulls Baseline.stuck_at_tenth) /\
  ~ Baseline.global_std Baseline.std_b64 (Baseline.drop_nulls Baseline.stuck_at_tenth) == 1 /\
  exists rm d,
    Baseline.rolling_mean
      (Baseline.sensor_stats Baseline.quantile_nearest Baseline.mean_b64 Baseline.std_b64
         Baseline.stuck_at_tenth) = Some rm /\
    Baseline.drift_score
      (Baseline.sensor_stats Baseline.quantile_nearest Baseline.mean_b64 Baseline.std_b64
         Baseline.stuck_at_tenth) = Some d /\
    ~ d == rm - Baseline.mean_b64 (Baseline.drop_nulls Baseline.stuck_at_tenth).
Proof.
  split; [vm_compute; repeat constructor|].
  split; [vm_compute; lia|].
  split; [vm_compute; reflexivity|].
  split; [vm_compute; discriminate|].
  eexists _, _. split; [reflexivity|]. split; [reflexivity|].
  vm_compute. discriminate.
Qed.

(** ** Orchestrator *)

Section OrchestratorFacts.

Import Orchestrator.

Lemma merge_lookup (st result : state) (k : string) :
  merge st result !! k = match result !! k with Some v => Some v | None => st !! k end.
Proof.
  unfold merge. rewrite lookup_union. destruct (result !! k), (st !! k); reflexivity.
Qed.

Lemma reassert_lookup (key : string) (st merged : state) (k : string) :
  is_Some (merged !! k) -> reassert key st merged !! k = merged !! k.
Proof.
  intros [v Hv]. unfold reassert.
  destruct (merged !! key) eqn:Em; [reflexivity|].
  destruct (st !! key) eqn:Es; [|reflexivity].
  rewrite lookup_insert_ne; [reflexivity|]. intros ->. congruence.
Qed.

Lemma preserve_lookup (st merged : state) (k : string) :
  is_Some (merged !! k) -> preserve st merged !! k = merged !! k.
Proof.
  intros H. unfold preserve.
  rewrite reassert_lookup; rewrite reassert_lookup; auto.
Qed.

(** A stage whose update lacks a key leaves that key as it was: the wrapper
    of the baseline stage keeps every field of the state that the stage did
    not return. *)
Lemma feature_node_untouched (st result : state) (k : string) (v : value) :
  st !! k = Some v -> result !! k = None -> feature_node st result !! k = Some v.
Proof.
  intros Hs Hr. unfold feature_node.
  assert (Hm : merge st result !! k = Some v) by (rewrite merge_lookup, Hr; exact Hs).
  rewrite preserve_lookup; [exact Hm | rewrite Hm; eauto].
Qed.

(** Whatever a valid state holds under the two protected keys, the fusion
    stage leaves [None] there: its update carries both keys, read from an
    object that never has them. *)
Lemma fusion_node_protected (st : state) (agent : Fusion.AgentState) (k : string) :
  validate st = Some agent ->
  k = "manual_context"%string \/ k = "anomaly_query"%string ->
  fusion_node st !! k = Some VNone.
Proof.
  intros Hv Hk. unfold fusion_node. rewrite Hv.
  assert (Hu : report_update (Fusion.fuse_and_explain agent) !! k = Some VNone).
  { unfold report_update. destruct Hk as [-> | ->]; simpl.
    - rewrite !lookup_insert_ne by discriminate.
      rewrite lookup_insert_eq. reflexivity.
    - rewrite !lookup_insert_ne by discriminate.
      rewrite lookup_singleton_eq. reflexivity. }
  assert (Hm : merge st (report_update (Fusion.fuse_and_explain agent)) !! k = Some VNone)
    by (rewrite merge_lookup, Hu; reflexivity).
  rewrite preserve_lookup; [exact Hm | rewrite Hm; eauto].
Qed.

(** C9, at the fusion stage.  The state holds a knowledge context and an
    anomaly description before the stage; after the merge of its update and
    the re-assertion both keys hold [None]. *)
Theorem fusion_node_drops_protected_fields :
  state_before_fusion !! "manual_context" =
    Some (VDict [(lit "normal_range", VStr (lit "Max Pressure: 60 psi"));
                 (lit "causes", VStr (lit "Vibration: Loose magnet"));
                 (lit "warranty", VStr (lit "12 months"))]) /\
  state_before_fusion !! "anomaly_query" = Some (VStr (lit " sensor_risk_score: 0.9;")) /\
  fusion_node state_before_fusion !! "manual_context" = Some VNone /\
  fusion_node state_before_fusion !! "anomaly_query" = Some VNone.
Proof.
  split; [reflexivity|]. split; [reflexivity|].
  assert (Hv : is_Some (validate state_before_fusion)) by (vm_compute; eauto).
  destruct Hv as [agent Hv].
  split; eapply fusion_node_protected; eauto.
Qed.

End OrchestratorFacts.

(** ** Codec: numbers in text *)

Section Digits.

Local Open Scope Z_scope.

Lemma digits_value_app acc ds1 ds2 :
  digits_value acc (ds1 ++ ds2) = digits_value (digits_value acc ds1) ds2.
Proof. unfold digits_value. apply fold_left_app. Qed.

Lemma is_digit_digit_char d : 0 <= d < 10 -> is_digit (digit_char d) = true.
Proof.
  intros H. unfold is_digit, digit_char.
  rewrite nat_ascii_embedding by lia.
  apply andb_true_iff. split; apply Nat.leb_le; lia.
Qed.

Lemma digit_val_digit_char d : 0 <= d < 10 -> digit_val (digit_char d) = d.
Proof.
  intros H. unfold digit_val, digit_char.
  rewrite nat_ascii_embedding by lia. lia.
Qed.

(** The digits of [n] are digits, spell [n], and have no leading zero. *)
Lemma digits_fuel_spec fuel n acc :
  0 <= n < 10 ^ Z.of_nat fuel -> (0 < fuel)%nat ->
  exists ds, digits_fuel fuel n acc = ds ++ acc /\
             ds <> [] /\
             Forall (fun c => is_digit c = true) ds /\
             digits_value 0 ds = n /\
             (0 < n -> 10 ^ (Z.of_nat (length ds) - 1) <= n < 10 ^ Z.of_nat (length ds)).
Proof.
  revert n acc. induction fuel as [|f IH]; intros n acc Hn Hf; [lia|].
  cbn [digits_fuel]. destruct (n <? 10) eqn:E.
  - apply Z.ltb_lt in E. exists [digit_char (n mod 10)].
    rewrite Z.mod_small by lia.
    split; [reflexivity|]. split; [discriminate|]. split; [|split].
    + constructor; [apply is_digit_digit_char; lia | constructor].
    + unfold digits_value. simpl. rewrite digit_val_digit_char; lia.
    + simpl. lia.
  - apply Z.ltb_ge in E.
    assert (Hf' : (0 < f)%nat).
    { destruct f; [|lia]. simpl in Hn. lia. }
    assert (Hq : 0 <= n / 10 < 10 ^ Z.of_nat f).
    { split; [apply Z.div_pos; lia|].
      apply Z.div_lt_upper_bound; [lia|].
      rewrite Nat2Z.inj_succ, Z.pow_succ_r in Hn by lia. lia. }
    destruct (IH (n / 10) (digit_char (n mod 10) :: acc) Hq Hf')
      as (ds & Hds & Hne & Hall & Hval & Hlen).
    exists (ds ++ [digit_char (n mod 10)]).
    assert (Hmod : 0 <= n mod 10 < 10) by (apply Z.mod_pos_bound; lia).
    split; [|split; [|split; [|split; [|intros _; split]]]].
    + rewrite Hds, <- app_assoc. reflexivity.
    + destruct ds; discriminate.
    + apply Forall_app. split; [exact Hall|].
      constructor; [apply is_digit_digit_char; lia | constructor].
    + rewrite digits_value_app, Hval. unfold digits_value. simpl.
      rewrite digit_val_digit_char by lia.
      rewrite (Z.div_mod n 10) at 3 by lia. lia.
    + rewrite length_app. simpl length.
      assert (Hq0 : 0 < n / 10) by (apply Z.div_str_pos; lia).
      destruct (Hlen Hq0) as [Hlo _].
      replace (Z.of_nat (length ds + 1) - 1) with (Z.succ (Z.of_nat (length ds) - 1)) by lia.
      rewrite Z.pow_succ_r.
      * rewrite (Z.div_mod n 10) by lia. lia.
      * destruct ds; [congruence | simpl; lia].
    + rewrite length_app. simpl length.
      assert (Hq0 : 0 < n / 10) by (apply Z.div_str_pos; lia).
      destruct (Hlen Hq0) as [_ Hhi].
      rewrite Nat2Z.inj_add. simpl Z.of_nat.
      rewrite Z.pow_add_r by lia. rewrite (Z.div_mod n 10) by lia. lia.
Qed.

Lemma str_of_nonneg_spec n :
  0 <= n ->
  exists ds, str_of_nonneg n = ds /\
             ds <> [] /\
             Forall (fun c => is_digit c = true) ds /\
             digits_value 0 ds = n /\
             (0 < n -> 10 ^ (Z.of_nat (length ds) - 1) <= n < 10 ^ Z.of_nat (length ds)).
Proof.
  intros Hn. unfold str_of_nonneg.
  destruct (digits_fuel_spec (S (Z.to_nat (Z.log2 n))) n []) as (ds & E & H); [|lia|].
  - split; [lia|]. rewrite Nat2Z.inj_succ, Z2Nat.id by apply Z.log2_nonneg.
    destruct (Z.eq_dec n 0) as [->|Hz]; [simpl; lia|].
    eapply Z.lt_le_trans; [apply Z.log2_spec; lia|].
    apply Z.pow_le_mono_l. lia.
  - exists ds. rewrite E, app_nil_r. split; [reflexivity | exact H].
Qed.

End Digits.

Section ParseInt.

Import Toon.

Local Open Scope Z_scope.

Lemma ascii_eqb_eq a b : ascii_eqb a b = true <-> a = b.
Proof. apply Ascii.eqb_eq. Qed.

Lemma ascii_eqb_neq a b : ascii_eqb a b = false <-> a <> b.
Proof. apply Ascii.eqb_neq. Qed.

Lemma digit_not_underscore c : is_digit c = true -> ascii_eqb c "_" = false.
Proof.
  intros H. apply ascii_eqb_neq. intros ->. discriminate.
Qed.

(** Reading a run of digits that is followed by something that is neither
    a digit nor an underscore. *)
Lemma read_digits_run ds rest acc n :
  Forall (fun c => is_digit c = true) ds ->
  match rest with
  | c :: _ => is_digit c = false /\ ascii_eqb c "_" = false
  | [] => True
  end ->
  read_digits (ds ++ rest) acc n = (digits_value acc ds, (n + length ds)%nat, rest).
Proof.
  intros Hds Hrest. revert acc n.
  induction Hds as [|c ds Hc Hds IH]; intros acc n.
  - simpl. rewrite Nat.add_0_r. destruct rest as [|c r]; [reflexivity|].
    destruct Hrest as [Hd _]. simpl. rewrite Hd. reflexivity.
  - cbn [app read_digits]. rewrite Hc.
    assert (E : read_digits (ds ++ rest) (acc * 10 + digit_val c) (S n) =
                (digits_value acc (c :: ds), (n + length (c :: ds))%nat, rest)).
    { rewrite IH. cbn [length]. rewrite Nat.add_succ_r. reflexivity. }
    destruct (ds ++ rest) as [|u [|d r']] eqn:Eapp; try exact E.
    assert (Hu : ascii_eqb u "_" = false).
    { destruct ds as [|c' ds'].
      - simpl in Eapp. subst rest. apply Hrest.
      - injection Eapp as -> _. apply digit_not_underscore.
        now inversion Hds. }
    rewrite Hu. simpl. exact E.
Qed.

Lemma parse_digits_run ds :
  ds <> [] -> Forall (fun c => is_digit c = true) ds ->
  parse_digits ds = Some (digits_value 0 ds).
Proof.
  intros Hne Hds. unfold parse_digits.
  rewrite <- (app_nil_r ds) at 1.
  rewrite read_digits_run by auto.
  destruct ds; [congruence|]. reflexivity.
Qed.

Lemma parse_digits_str_of_nonneg n : 0 <= n -> parse_digits (str_of_nonneg n) = Some n.
Proof.
  intros Hn. destruct (str_of_nonneg_spec n Hn) as (ds & -> & Hne & Hall & Hval & _).
  rewrite parse_digits_run by assumption. now rewrite Hval.
Qed.

Lemma digit_not_space c : is_digit c = true -> is_space c = false.
Proof. all_chars c. Qed.

Lemma number_space_is_space c : is_number_space c = true -> is_space c = true.
Proof. all_chars c. Qed.

Lemma lstrip_id c r : is_space c = false -> lstrip (c :: r) = c :: r.
Proof. intros H. simpl. now rewrite H. Qed.

(** A text without white space at either end is left alone by [strip]. *)
Lemma strip_trimmed s : trimmed s = true -> strip s = s.
Proof.
  unfold trimmed, strip, rstrip.
  destruct s as [|c r]; [discriminate|].
  destruct (rev (c :: r)) as [|d r'] eqn:E; [discriminate|].
  intros H. apply andb_true_iff in H as [Hc Hd].
  apply negb_true_iff in Hc. apply negb_true_iff in Hd.
  rewrite lstrip_id by exact Hc. rewrite E, lstrip_id by exact Hd.
  rewrite <- E. apply rev_involutive.
Qed.

Lemma trimmed_digits ds :
  ds <> [] -> Forall (fun c => is_digit c = true) ds -> trimmed ds = true.
Proof.
  intros Hne Hall. unfold trimmed.
  destruct ds as [|c r]; [congruence|].
  assert (Hrev : Forall (fun c => is_digit c = true) (rev (c :: r))) by now apply Forall_rev.
  destruct (rev (c :: r)) as [|d r'] eqn:E.
  - apply (f_equal (@length _)) in E. rewrite length_rev in E. discriminate.
  - inversion Hall; inversion Hrev; subst.
    rewrite !digit_not_space by assumption. reflexivity.
Qed.

Lemma trimmed_cons c s :
  is_space c = false -> trimmed s = true -> trimmed (c :: s) = true.
Proof.
  unfold trimmed. intros Hc. destruct s as [|c' r]; [discriminate|].
  change (rev (c :: c' :: r)) with (rev (c' :: r) ++ [c]).
  destruct (rev (c' :: r)) as [|d r']; [discriminate|].
  simpl. rewrite Hc. intros H. apply andb_true_iff in H as [_ H]. now rewrite H.
Qed.

Lemma str_of_int_trimmed z : trimmed (str_of_int z) = true.
Proof.
  unfold str_of_int. destruct (z <? 0) eqn:E.
  - apply Z.ltb_lt in E.
    destruct (str_of_nonneg_spec (- z)) as (ds & -> & Hne & Hall & _); [lia|].
    apply trimmed_cons; [reflexivity | now apply trimmed_digits].
  - apply Z.ltb_ge in E.
    destruct (str_of_nonneg_spec z E) as (ds & -> & Hne & Hall & _).
    now apply trimmed_digits.
Qed.

Lemma number_lstrip_id c r : is_space c = false -> number_lstrip (c :: r) = c :: r.
Proof.
  intros H. simpl. destruct (is_number_space c) eqn:E; [|reflexivity].
  apply number_space_is_space in E. congruence.
Qed.

(** A text without white space at either end is read by [int] and [float]
    as it stands. *)
Lemma number_strip_trimmed s : trimmed s = true -> number_strip s = s.
Proof.
  unfold trimmed, number_strip.
  destruct s as [|c r]; [discriminate|].
  destruct (rev (c :: r)) as [|d r'] eqn:E; [discriminate|].
  intros H. apply andb_true_iff in H as [Hc Hd].
  apply negb_true_iff in Hc. apply negb_true_iff in Hd.
  rewrite number_lstrip_id by exact Hc. rewrite E, number_lstrip_id by exact Hd.
  rewrite <- E. apply rev_involutive.
Qed.

Lemma count_digits_length s : (count_digits s <= length s)%nat.
Proof. unfold count_digits. apply filter_length_le. Qed.

(** An int that [str] writes has at most [max_str_digits] digits. *)
Lemma str_of_nonneg_fits n :
  0 <= n < 10 ^ Z.of_nat max_str_digits -> (length (str_of_nonneg n) <= max_str_digits)%nat.
Proof.
  intros [H0 Hn]. destruct (Z.eq_dec n 0) as [->|Hz].
  - change (length (str_of_nonneg 0)) with 1%nat. unfold max_str_digits. lia.
  - destruct (str_of_nonneg_spec n H0) as (ds & -> & Hne & _ & _ & Hlen).
    assert (Hpos : 0 < n) by lia. destruct (Hlen Hpos) as [Hlo _].
    assert (Hlt : 10 ^ (Z.of_nat (length ds) - 1) < 10 ^ Z.of_nat max_str_digits) by lia.
    apply Z.pow_lt_mono_r_iff in Hlt; lia.
Qed.

Lemma str_of_int_fits z :
  int_fits z = true -> (count_digits (str_of_int z) <= max_str_digits)%nat.
Proof.
  unfold int_fits. intros H. apply Z.ltb_lt in H. unfold str_of_int.
  destruct (z <? 0) eqn:E.
  - apply Z.ltb_lt in E.
    change (count_digits ("-"%char :: str_of_nonneg (- z))) with (count_digits (str_of_nonneg (- z))).
    etransitivity; [apply count_digits_length|]. apply str_of_nonneg_fits. lia.
  - apply Z.ltb_ge in E.
    etransitivity; [apply count_digits_length|]. apply str_of_nonneg_fits. lia.
Qed.

(** [int(str(z)) == z] *)
Lemma parse_int_str_of_int z : int_fits z = true -> parse_int (str_of_int z) = Some z.
Proof.
  intros Hfit. unfold parse_int.
  assert (Hc : (max_str_digits <? count_digits (str_of_int z))%nat = false)
    by (apply Nat.ltb_ge; now apply str_of_int_fits).
  rewrite Hc. rewrite number_strip_trimmed by apply str_of_int_trimmed.
  unfold str_of_int. destruct (z <? 0) eqn:E.
  - apply Z.ltb_lt in E. simpl.
    rewrite parse_digits_str_of_nonneg by lia. simpl. f_equal. lia.
  - apply Z.ltb_ge in E.
    pose proof (parse_digits_str_of_nonneg z E) as Hp.
    destruct (str_of_nonneg_spec z E) as (ds & Eds & Hne & Hall & _).
    rewrite Eds in *. destruct ds as [|c r]; [congruence|].
    inversion Hall as [|? ? Hc' _]; subst.
    assert (H1 : ascii_eqb c "-" = false).
    { apply ascii_eqb_neq. intros ->. discriminate. }
    assert (H2 : ascii_eqb c "+" = false).
    { apply ascii_eqb_neq. intros ->. discriminate. }
    rewrite H1, H2. exact Hp.
Qed.

Lemma try_numeric_int z : int_fits z = true -> _try_numeric (str_of_int z) = VInt z.
Proof. intros H. unfold _try_numeric. now rewrite parse_int_str_of_int. Qed.

End ParseInt.

(** ** Codec: texts and separators *)

Section Texts.

Import Toon.

Lemma digit_plain c :
  is_digit c = true \/ c = "-"%char ->
  structural c = false /\ ascii_eqb c LIST_SEP = false /\ is_space c = false.
Proof.
  intros [H | ->]; [|repeat split].
  revert H. all_chars c; intros; repeat split; discriminate.
Qed.

Lemma forallb_Forall {A} (f : A -> bool) l : forallb f l = true <-> Forall (fun x => f x = true) l.
Proof.
  rewrite forallb_forall, List.Forall_forall. reflexivity.
Qed.

Lemma contains_false ch s :
  contains ch s = false <-> Forall (fun c => ascii_eqb c ch = false) s.
Proof.
  induction s as [|c r IH]; simpl.
  - split; [constructor | reflexivity].
  - destruct (ascii_eqb c ch) eqn:E.
    + split; [discriminate | intros H; inversion H; congruence].
    + rewrite IH. split; [now constructor | intros H; now inversion H].
Qed.

Lemma contains_app_sep ch a b : contains ch (a ++ ch :: b) = true.
Proof.
  induction a as [|c r IH]; simpl.
  - unfold ascii_eqb. now rewrite Ascii.eqb_refl.
  - destruct (ascii_eqb c ch); [reflexivity | exact IH].
Qed.

Lemma no_struct_app a b : no_struct (a ++ b) = no_struct a && no_struct b.
Proof. unfold no_struct. apply forallb_app. Qed.

(** *** The text of an integer *)

Lemma str_of_int_chars z :
  Forall (fun c => is_digit c = true \/ c = "-"%char) (str_of_int z).
Proof.
  unfold str_of_int. destruct (z <? 0)%Z eqn:E.
  - apply Z.ltb_lt in E.
    destruct (str_of_nonneg_spec (- z)%Z) as (ds & -> & _ & Hall & _); [lia|].
    constructor; [now right|]. eapply Forall_impl; [exact Hall|]. intros; now left.
  - apply Z.ltb_ge in E.
    destruct (str_of_nonneg_spec z E) as (ds & -> & _ & Hall & _).
    eapply Forall_impl; [exact Hall|]. intros; now left.
Qed.

Lemma clean_of_chars s :
  trimmed s = true ->
  Forall (fun c => structural c = false /\ ascii_eqb c LIST_SEP = false) s ->
  clean s.
Proof.
  intros Ht Hall. split; [exact Ht|]. split.
  - apply forallb_Forall. eapply Forall_impl; [exact Hall|].
    intros c [-> _]. reflexivity.
  - apply contains_false. eapply Forall_impl; [exact Hall|]. now intros c [_ ?].
Qed.

Lemma str_of_int_clean z : clean (str_of_int z).
Proof.
  apply clean_of_chars; [apply str_of_int_trimmed|].
  eapply Forall_impl; [apply str_of_int_chars|].
  intros c Hc. destruct (digit_plain c Hc) as (? & ? & _). now split.
Qed.

Lemma plain_text_clean s : plain_text s = true -> clean s /\ _try_numeric s = VStr s.
Proof.
  unfold plain_text. rewrite !andb_true_iff, negb_true_iff.
  intros [[[Ht Hs] Hc] Hn]. split; [now repeat split|].
  unfold _try_numeric in *.
  destruct (parse_int s); [discriminate|].
  destruct (parse_float s); [discriminate | reflexivity].
Qed.

End Texts.

(** ** Codec: floats in text *)

Section FloatNumbers.

Import Toon.

Local Open Scope Q_scope.

Lemma ten_nonzero : ~ inject_Z 10 == 0.
Proof. discriminate. Qed.

Lemma pow10_pos z : 0 < pow10 z.
Proof. unfold pow10. apply Qpower_0_lt. reflexivity. Qed.

Lemma pow10_add x y : pow10 (x + y) == pow10 x * pow10 y.
Proof. unfold pow10. apply Qpower_plus, ten_nonzero. Qed.

Lemma pow10_Z z : (0 <= z)%Z -> pow10 z == inject_Z (10 ^ z).
Proof. intros H. unfold pow10. symmetry. now apply Zpower_Qpower. Qed.

Lemma pow10_sub x y : pow10 (x - y) * pow10 y == pow10 x.
Proof. rewrite <- pow10_add. now replace (x - y + y)%Z with x by lia. Qed.

Lemma inject_Z_le a b : (a <= b)%Z -> inject_Z a <= inject_Z b.
Proof. intros H. now rewrite <- Zle_Qle. Qed.

Lemma inject_Z_lt a b : (a < b)%Z -> inject_Z a < inject_Z b.
Proof. intros H. now rewrite <- Zlt_Qlt. Qed.

(** Bounds of a positive integer by its number of digits. *)
Lemma ndigits_bounds n :
  (0 < n)%Z -> pow10 (ndigits n - 1) <= inject_Z n /\ inject_Z n < pow10 (ndigits n).
Proof.
  intros Hn. unfold ndigits.
  destruct (str_of_nonneg_spec n) as (ds & -> & Hne & _ & _ & Hb); [lia|].
  destruct (Hb Hn) as [Hlo Hhi].
  assert (Hlen : (0 < Z.of_nat (length ds))%Z) by (destruct ds; [congruence | simpl; lia]).
  rewrite !pow10_Z by lia. split; [now apply inject_Z_le | now apply inject_Z_lt].
Qed.

Lemma Q_as_fraction (a : Q) : a * inject_Z (Z.pos (Qden a)) == inject_Z (Qnum a).
Proof.
  destruct a as [n d]. simpl. rewrite (Qmake_Qdiv n d). field. discriminate.
Qed.

(** [floor_log10] brackets its argument between two powers of ten. *)
Lemma floor_log10_spec a :
  0 < a -> pow10 (floor_log10 a) <= a /\ a < pow10 (floor_log10 a + 1).
Proof.
  intros Ha.
  assert (Hn : (0 < Qnum a)%Z) by (destruct a as [n d]; unfold Qlt in Ha; simpl in *; lia).
  destruct (ndigits_bounds (Qnum a) Hn) as [Hnlo Hnhi].
  destruct (ndigits_bounds (Z.pos (Qden a)) eq_refl) as [Hdlo Hdhi].
  pose proof (Q_as_fraction a) as Hfrac.
  set (dn := ndigits (Qnum a)) in *. set (dd := ndigits (Z.pos (Qden a))) in *.
  set (D := inject_Z (Z.pos (Qden a))) in *.
  assert (HD : 0 < D) by reflexivity.
  assert (Hup : a < pow10 (dn - dd + 1)).
  { apply (Qmult_lt_r _ _ D HD). rewrite Hfrac.
    eapply Qlt_le_trans; [exact Hnhi|].
    rewrite <- (pow10_sub dn (dd - 1)).
    replace (dn - (dd - 1))%Z with (dn - dd + 1)%Z by lia.
    apply Qmult_le_l; [apply pow10_pos | exact Hdlo]. }
  assert (Hdown : pow10 (dn - dd - 1) < a).
  { apply (Qmult_lt_r _ _ D HD). rewrite Hfrac.
    eapply Qlt_le_trans; [|exact Hnlo].
    rewrite <- (pow10_sub (dn - 1) dd).
    replace (dn - 1 - dd)%Z with (dn - dd - 1)%Z by lia.
    apply Qmult_lt_l; [apply pow10_pos | exact Hdhi]. }
  unfold floor_log10. fold dn dd.
  destruct (Qle_bool (pow10 (dn - dd)) a) eqn:E.
  - apply Qle_bool_iff in E. split; [exact E | exact Hup].
  - apply Qle_bool_false in E. split; [now apply Qlt_le_weak|].
    now replace (dn - dd - 1 + 1)%Z with (dn - dd)%Z by lia.
Qed.

Lemma round_half_even_floor x :
  (Qfloor x <= round_half_even x <= Qfloor x + 1)%Z.
Proof.
  unfold round_half_even. destruct x as [n d]. cbn [Qfloor Qnum Qden].
  repeat match goal with |- context [if ?c then _ else _] => destruct c end; lia.
Qed.

(** The mantissa has four digits. *)
Lemma sig4_spec a m e :
  0 < a -> sig4 a = (m, e) -> (1000 <= m <= 9999)%Z.
Proof.
  intros Ha. unfold sig4.
  destruct (floor_log10_spec a Ha) as [Hlo Hhi].
  set (e0 := floor_log10 a) in *.
  set (x := a / pow10 (e0 - 3)).
  assert (Hx : 1000 <= x /\ x < 10000).
  { unfold x. split.
    - apply Qle_shift_div_l; [apply pow10_pos|].
      change 1000 with (pow10 3). rewrite Qmult_comm, pow10_sub. exact Hlo.
    - apply Qlt_shift_div_r; [apply pow10_pos|].
      change 10000 with (pow10 4). rewrite <- pow10_add.
      now replace (4 + (e0 - 3))%Z with (e0 + 1)%Z by lia. }
  destruct Hx as [Hx1 Hx2].
  pose proof (round_half_even_floor x) as [Hr1 Hr2].
  assert (Hf1 : (1000 <= Qfloor x)%Z).
  { change 1000%Z with (Qfloor (inject_Z 1000)). now apply Qfloor_resp_le. }
  assert (Hf2 : (Qfloor x < 10000)%Z).
  { rewrite Zlt_Qlt. eapply Qle_lt_trans; [apply Qfloor_le | exact Hx2]. }
  destruct (round_half_even x =? 10000)%Z eqn:E; intros [= <- <-]; [lia|].
  apply Z.eqb_neq in E. lia.
Qed.

(** The text of the mantissa: four digits that spell it. *)
Lemma mantissa_digits m :
  (1000 <= m <= 9999)%Z ->
  exists c1 c2 c3 c4,
    str_of_nonneg m = [c1; c2; c3; c4] /\
    Forall (fun c => is_digit c = true) [c1; c2; c3; c4] /\
    digits_value 0 [c1; c2; c3; c4] = m.
Proof.
  intros Hm.
  destruct (str_of_nonneg_spec m) as (ds & -> & _ & Hall & Hval & Hb); [lia|].
  destruct Hb as [Hlo Hhi]; [lia|].
  assert (Hlen : length ds = 4%nat).
  { destruct (Nat.lt_trichotomy (length ds) 4) as [Hl | [Hl | Hl]]; [|exact Hl|].
    - exfalso. assert (10 ^ Z.of_nat (length ds) <= 10 ^ 3)%Z
        by (apply Z.pow_le_mono_r; lia). lia.
    - exfalso. assert (10 ^ 4 <= 10 ^ (Z.of_nat (length ds) - 1))%Z
        by (apply Z.pow_le_mono_r; lia). lia. }
  destruct ds as [|c1 [|c2 [|c3 [|c4 [|]]]]]; try discriminate.
  exists c1, c2, c3, c4. auto.
Qed.

End FloatNumbers.

Section FloatTexts.

Import Toon.

Local Open Scope Z_scope.

Lemma digits_value_zeros acc ds k :
  digits_value acc (ds ++ repeat "0"%char k) = digits_value acc ds * 10 ^ Z.of_nat k.
Proof.
  induction k as [|k IH].
  - simpl. rewrite app_nil_r. lia.
  - change (repeat "0"%char (S k)) with ("0"%char :: repeat "0"%char k).
    rewrite repeat_cons, app_assoc, digits_value_app, IH.
    rewrite Nat2Z.inj_succ, Z.pow_succ_r by lia.
    unfold digits_value at 1. simpl. change (digit_val "0") with 0. lia.
Qed.

Lemma digits_value_leading_zeros k ds :
  digits_value 0 (repeat "0"%char k ++ ds) = digits_value 0 ds.
Proof.
  rewrite digits_value_app. f_equal.
  induction k as [|k IH]; [reflexivity|].
  change (repeat "0"%char (S k)) with ("0"%char :: repeat "0"%char k).
  rewrite repeat_cons, digits_value_app, IH. reflexivity.
Qed.

Lemma digits_repeat_zero k : Forall (fun c => is_digit c = true) (repeat "0"%char k).
Proof. induction k; simpl; constructor; auto. Qed.

Lemma drop_zeros_spec l :
  exists k, l = repeat "0"%char k ++ drop_zeros l /\
            match drop_zeros l with c :: _ => c <> "0"%char | [] => True end.
Proof.
  induction l as [|c r (k & E & H)].
  - exists 0%nat. split; [reflexivity | exact I].
  - simpl. destruct (ascii_eqb c "0") eqn:Ec.
    + apply Ascii.eqb_eq in Ec. subst c. exists (S k). simpl. split; [now f_equal | exact H].
    + apply Ascii.eqb_neq in Ec. exists 0%nat. split; [reflexivity | exact Ec].
Qed.

(** What remains ends in a digit other than 0, or nothing remains. *)
Lemma strip_trailing_zeros_spec fs :
  exists k, fs = strip_trailing_zeros fs ++ repeat "0"%char k /\
            match rev (strip_trailing_zeros fs) with c :: _ => c <> "0"%char | [] => True end.
Proof.
  unfold strip_trailing_zeros. destruct (drop_zeros_spec (rev fs)) as (k & E & H).
  exists k. rewrite rev_involutive. split; [|exact H].
  apply (f_equal (@rev ascii)) in E.
  rewrite rev_involutive, rev_app_distr, rev_repeat in E. exact E.
Qed.

Lemma digit_lower c : is_digit c = true -> to_lower c = c.
Proof. destruct c as [[] [] [] [] [] [] [] []]; vm_compute; try reflexivity; discriminate. Qed.

Lemma digit_facts c :
  is_digit c = true ->
  c <> "i"%char /\ c <> "n"%char /\ c <> "-"%char /\ c <> "+"%char /\
  ascii_eqb c "." = false /\ ascii_eqb c "_" = false.
Proof.
  destruct c as [[] [] [] [] [] [] [] []]; vm_compute; try discriminate;
    intros _; repeat split; discriminate.
Qed.

(** A text that begins with a digit is none of the special words. *)
Lemma not_special_word c r :
  is_digit c = true ->
  bool_decide (lower (c :: r) = lit "inf") || bool_decide (lower (c :: r) = lit "infinity") = false /\
  bool_decide (lower (c :: r) = lit "nan") = false.
Proof.
  intros Hc. destruct (digit_facts c Hc) as (Hi & Hn & _).
  cbn [lower map]. rewrite (digit_lower c Hc).
  rewrite !bool_decide_eq_false_2; [split; reflexivity | | |];
    intros E; injection E as E _; congruence.
Qed.

(** An integer part, a point and a fractional part. *)
Lemma unsigned_fixed ip fp :
  ip <> [] -> fp <> [] ->
  Forall (fun c => is_digit c = true) ip -> Forall (fun c => is_digit c = true) fp ->
  parse_digits (ip ++ "."%char :: fp) = None /\
  parse_decimal_body (ip ++ "."%char :: fp) =
    Some (FFin (Qred (inject_Z (digits_value 0 (ip ++ fp)) * pow10 (0 - Z.of_nat (length fp))))).
Proof.
  intros Hip Hfp Dip Dfp.
  assert (Hread : read_digits (ip ++ "."%char :: fp) 0 0 =
                  (digits_value 0 ip, (0 + length ip)%nat, "."%char :: fp)).
  { apply read_digits_run; [exact Dip | split; reflexivity]. }
  split.
  - unfold parse_digits. rewrite Hread. destruct (0 + length ip)%nat; reflexivity.
  - unfold parse_decimal_body.
    destruct ip as [|c ip']; [congruence|]. inversion Dip as [|? ? Hc _]; subst.
    destruct (not_special_word c (ip' ++ "."%char :: fp) Hc) as [H1 H2].
    change ((c :: ip') ++ "."%char :: fp) with (c :: ip' ++ "."%char :: fp) in *.
    rewrite H1, H2, Hread.
    cbv beta iota. change (ascii_eqb "." ".") with true. cbv iota.
    rewrite <- (app_nil_r fp) at 1.
    rewrite read_digits_run by (auto; exact I).
    rewrite ?Nat.add_0_l. cbn [length Nat.add Nat.eqb].
    rewrite <- digits_value_app. reflexivity.
Qed.

(** [with_point ip fp] followed by an exponent. *)
Lemma unsigned_sci ip fp (negative : bool) ex :
  ip <> [] -> ex <> [] ->
  Forall (fun c => is_digit c = true) ip -> Forall (fun c => is_digit c = true) fp ->
  Forall (fun c => is_digit c = true) ex ->
  let T := with_point ip fp ++ "e"%char :: (if negative then "-"%char else "+"%char) :: ex in
  let E := if negative then - digits_value 0 ex else digits_value 0 ex in
  parse_digits T = None /\
  parse_decimal_body T =
    Some (FFin (Qred (inject_Z (digits_value 0 (ip ++ fp)) * pow10 (E - Z.of_nat (length fp))))).
Proof.
  intros Hip Hex Dip Dfp Dex T E.
  set (tail := "e"%char :: (if negative then "-"%char else "+"%char) :: ex) in *.
  assert (Htail : match tail with
                  | c :: _ => is_digit c = false /\ ascii_eqb c "_" = false
                  | [] => True
                  end) by (split; reflexivity).
  assert (Hex' : parse_digits ex = Some (digits_value 0 ex)) by now apply parse_digits_run.
  assert (Hfin : forall mant nf,
    match tail with
    | [] => Some (FFin (Qred (inject_Z mant * pow10 (0 - Z.of_nat nf))))
    | c :: r4 =>
        if ascii_eqb (to_lower c) "e" then
          match r4 with
          | sgn :: r5 =>
              if ascii_eqb sgn "-" then
                match parse_digits r5 with
                | Some e => Some (FFin (Qred (inject_Z mant * pow10 (- e - Z.of_nat nf))))
                | None => None
                end
              else if ascii_eqb sgn "+" then
                match parse_digits r5 with
                | Some e => Some (FFin (Qred (inject_Z mant * pow10 (e - Z.of_nat nf))))
                | None => None
                end
              else
                match parse_digits r4 with
                | Some e => Some (FFin (Qred (inject_Z mant * pow10 (e - Z.of_nat nf))))
                | None => None
                end
          | [] => None
          end
        else None
    end = Some (FFin (Qred (inject_Z mant * pow10 (E - Z.of_nat nf))))).
  { intros mant nf. unfold tail, E. destruct negative; cbn; rewrite Hex'; reflexivity. }
  destruct ip as [|c ip']; [congruence|]. inversion Dip as [|? ? Hc _]; subst.
  destruct fp as [|f fp'].
  - (* no fractional digit *)
    assert (Hread : read_digits ((c :: ip') ++ tail) 0 0 =
                    (digits_value 0 (c :: ip'), (0 + length (c :: ip'))%nat, tail)).
    { apply read_digits_run; [exact Dip | exact Htail]. }
    unfold T, with_point. fold tail. split.
    + unfold parse_digits. rewrite Hread. destruct (0 + length (c :: ip'))%nat; reflexivity.
    + unfold parse_decimal_body.
      destruct (not_special_word c (ip' ++ tail) Hc) as [H1 H2].
      change ((c :: ip') ++ tail) with (c :: ip' ++ tail) in *.
      rewrite H1, H2, Hread.
      unfold tail at 1. cbv beta iota. change (ascii_eqb "e" ".") with false. cbv iota.
      rewrite ?Nat.add_0_l. cbn [length Nat.add Nat.eqb].
      rewrite app_nil_r. apply (Hfin _ 0%nat).
  - (* with fractional digits *)
    assert (Hread : read_digits ((c :: ip') ++ "."%char :: (f :: fp') ++ tail) 0 0 =
                    (digits_value 0 (c :: ip'), (0 + length (c :: ip'))%nat,
                     "."%char :: (f :: fp') ++ tail)).
    { apply read_digits_run; [exact Dip | split; reflexivity]. }
    unfold T, with_point. fold tail.
    replace (((c :: ip') ++ "."%char :: f :: fp') ++ tail)
      with ((c :: ip') ++ "."%char :: (f :: fp') ++ tail)
      by (rewrite <- app_assoc; reflexivity).
    split.
    + unfold parse_digits. rewrite Hread. destruct (0 + length (c :: ip'))%nat; reflexivity.
    + unfold parse_decimal_body.
      destruct (not_special_word c (ip' ++ "."%char :: (f :: fp') ++ tail) Hc) as [H1 H2].
      change ((c :: ip') ++ "."%char :: (f :: fp') ++ tail)
        with (c :: ip' ++ "."%char :: (f :: fp') ++ tail) in *.
      rewrite H1, H2, Hread.
      cbv beta iota. change (ascii_eqb "." ".") with true. cbv iota.
      rewrite read_digits_run by (auto; exact Htail).
      rewrite ?Nat.add_0_l. cbn [length Nat.add Nat.eqb].
      rewrite <- digits_value_app. apply (Hfin _ (S (length fp'))).
Qed.

Lemma scale_pow10 V k t u :
  0 <= k -> k + t = u ->
  (inject_Z (V * 10 ^ k) * pow10 t == inject_Z V * pow10 u)%Q.
Proof.
  intros Hk <-. rewrite inject_Z_mult, <- pow10_Z by exact Hk.
  rewrite pow10_add. ring.
Qed.

Lemma same_float A B : (A == B)%Q -> Some (FFin (Qred A)) = Some (FFin (Qred B)).
Proof. intros H. do 2 f_equal. now apply Qred_complete. Qed.

Lemma digit_number_char c : is_digit c = true -> number_char c = true.
Proof. intros H. unfold number_char. now rewrite H. Qed.

Lemma digits_number_chars ds :
  Forall (fun c => is_digit c = true) ds -> Forall (fun c => number_char c = true) ds.
Proof. intros H. eapply Forall_impl; [exact H|]. apply digit_number_char. Qed.

Lemma nonzero_digit c :
  is_digit c = true -> c <> "0"%char -> 1 <= digit_val c <= 9.
Proof.
  destruct c as [[] [] [] [] [] [] [] []]; vm_compute; try discriminate;
    intros _ H; try (split; discriminate). congruence.
Qed.

Lemma digit_val_range c : is_digit c = true -> 0 <= digit_val c <= 9.
Proof.
  destruct c as [[] [] [] [] [] [] [] []]; vm_compute; try discriminate;
    intros _; split; discriminate.
Qed.

(** What is cut off are zeros; what remains are digits. *)
Lemma strip_trailing_zeros_digits rest :
  Forall (fun c => is_digit c = true) rest ->
  exists k,
    rest = strip_trailing_zeros rest ++ repeat "0"%char k /\
    Forall (fun c => is_digit c = true) (strip_trailing_zeros rest) /\
    match rev (strip_trailing_zeros rest) with
    | d :: _ => 1 <= digit_val d <= 9
    | [] => True
    end.
Proof.
  intros D. destruct (strip_trailing_zeros_spec rest) as (k & E & H).
  exists k. split; [exact E|].
  assert (Dfp : Forall (fun c => is_digit c = true) (strip_trailing_zeros rest)).
  { rewrite E in D. now apply Forall_app in D as [? _]. }
  split; [exact Dfp|].
  apply Forall_rev in Dfp.
  destruct (rev (strip_trailing_zeros rest)) as [|d r]; [exact I|].
  inversion Dfp; subst. now apply nonzero_digit.
Qed.

Lemma number_text_digits ds :
  ds <> [] -> Forall (fun c => is_digit c = true) ds -> number_text ds.
Proof.
  intros Hne D. split; [|split].
  - destruct ds as [|c r]; [congruence|]. inversion D; subst. eauto.
  - pose proof (Forall_rev D) as Dr.
    destruct (rev ds) as [|d r] eqn:E.
    + apply (f_equal (@length _)) in E. rewrite length_rev in E.
      destruct ds; [congruence | discriminate].
    + inversion Dr; subst. eauto.
  - now apply digits_number_chars.
Qed.

Lemma number_text_app a mid b :
  number_text a -> number_text b -> Forall (fun c => number_char c = true) mid ->
  number_text (a ++ mid ++ b).
Proof.
  intros ((c & r & -> & Hc) & _ & Ha) (_ & (d & r' & Eb & Hd) & Hb) Hm.
  split; [|split].
  - exists c, (r ++ mid ++ b). auto.
  - exists d, (r' ++ rev mid ++ rev (c :: r)).
    rewrite !rev_app_distr, Eb, <- app_assoc. auto.
  - rewrite !Forall_app. auto.
Qed.

(** An integer part and the digits after the point, zeros at the end
    dropped: either the text of an integer or of a fraction. *)
Lemma fixed_shape ip rest :
  ip <> [] ->
  Forall (fun c => is_digit c = true) ip -> Forall (fun c => is_digit c = true) rest ->
  let m := digits_value 0 (ip ++ rest) in
  let p := Z.of_nat (length rest) in
  let T := with_point ip (strip_trailing_zeros rest) in
  number_text T /\
  ((m mod 10 ^ p = 0 /\ parse_digits T = Some (m / 10 ^ p) /\ T = ip) \/
   (m mod 10 ^ p <> 0 /\ parse_digits T = None /\
    parse_decimal_body T = Some (FFin (Qred (inject_Z m * pow10 (- p)))))).
Proof.
  intros Hip Dip Drest m p T.
  destruct (strip_trailing_zeros_digits rest Drest) as (k & E & Dfp & Hlast).
  set (fp := strip_trailing_zeros rest) in *.
  assert (Hm : m = digits_value 0 (ip ++ fp) * 10 ^ Z.of_nat k).
  { unfold m. rewrite E, app_assoc. apply digits_value_zeros. }
  assert (Hp : p = Z.of_nat (length fp) + Z.of_nat k).
  { unfold p. rewrite E, length_app, repeat_length. lia. }
  assert (Hpow : 0 < 10 ^ Z.of_nat k) by (apply Z.pow_pos_nonneg; lia).
  unfold T, with_point. destruct fp as [|f fp'] eqn:Efp.
  - split; [now apply number_text_digits|]. left.
    rewrite app_nil_r in Hm. simpl in Hp. rewrite Hp, Hm.
    rewrite Z.mod_mul, Z.div_mul by lia.
    split; [reflexivity|]. split; [now apply parse_digits_run | reflexivity].
  - split.
    { change (ip ++ "."%char :: f :: fp') with (ip ++ ["."%char] ++ f :: fp').
      apply number_text_app; [now apply number_text_digits | | repeat constructor].
      apply number_text_digits; [discriminate | exact Dfp]. }
    right.
    destruct (unsigned_fixed ip (f :: fp') Hip ltac:(discriminate) Dip Dfp) as [Hint Hfloat].
    split; [|split; [exact Hint|]].
    + (* the last digit kept is not 0 *)
      intros Hmod.
      destruct (rev (f :: fp')) as [|d r] eqn:Er.
      { apply (f_equal (@length _)) in Er. rewrite length_rev in Er. discriminate. }
      assert (Efp' : f :: fp' = rev r ++ [d]).
      { rewrite <- (rev_involutive (f :: fp')), Er. reflexivity. }
      assert (Dd : is_digit d = true).
      { rewrite Efp' in Dfp. apply Forall_app in Dfp as [_ Dd]. now inversion Dd. }
      pose proof (digit_val_range d Dd) as Hrange.
      set (V := digits_value 0 (ip ++ f :: fp')) in *.
      assert (HV : V = digits_value 0 (ip ++ rev r) * 10 + digit_val d).
      { unfold V. rewrite Efp', app_assoc, digits_value_app. reflexivity. }
      assert (Hdiv : (10 ^ p | m)).
      { apply Z.mod_divide; [|exact Hmod]. apply Z.pow_nonzero; lia. }
      rewrite Hp, Hm, Z.pow_add_r in Hdiv by lia.
      apply Z.mul_divide_cancel_r in Hdiv; [|lia].
      assert (H10 : (10 | 10 ^ Z.of_nat (length (f :: fp')))).
      { cbn [length]. rewrite Nat2Z.inj_succ, Z.pow_succ_r by lia. exists (10 ^ Z.of_nat (length fp')). lia. }
      destruct (Z.divide_trans _ _ _ H10 Hdiv) as [x Hx]. lia.
    + rewrite Hfloat. apply same_float. rewrite Hm.
      symmetry. apply scale_pow10; lia.
Qed.

Lemma pad_zeros_digits w n :
  0 <= n ->
  pad_zeros w (str_of_nonneg n) <> [] /\
  Forall (fun c => is_digit c = true) (pad_zeros w (str_of_nonneg n)) /\
  digits_value 0 (pad_zeros w (str_of_nonneg n)) = n.
Proof.
  intros Hn. destruct (str_of_nonneg_spec n Hn) as (ds & -> & Hne & D & Hval & _).
  unfold pad_zeros. split; [|split].
  - destruct (repeat "0"%char (w - length ds)); [exact Hne | discriminate].
  - apply Forall_app. split; [apply digits_repeat_zero | exact D].
  - now rewrite digits_value_leading_zeros.
Qed.

(** The text of a positive float: it is the text of a number, and it reads
    back as the four-digit value, as an integer when it shows neither point
    nor exponent. *)
Lemma format_4g_pos_spec a m e :
  (0 < a)%Q -> sig4 a = (m, e) ->
  number_text (format_4g_pos a) /\
  (((0 <=? e) && (e <? 4) && (m mod 10 ^ (3 - e) =? 0) = true /\
    parse_digits (format_4g_pos a) = Some (m / 10 ^ (3 - e)) /\
    (length (format_4g_pos a) <= 4)%nat) \/
   ((0 <=? e) && (e <? 4) && (m mod 10 ^ (3 - e) =? 0) = false /\
    parse_digits (format_4g_pos a) = None /\
    parse_decimal_body (format_4g_pos a) = Some (FFin (Qred (inject_Z m * pow10 (e - 3)))))).
Proof.
  intros Ha Hsig. pose proof (sig4_spec a m e Ha Hsig) as Hm.
  destruct (mantissa_digits m Hm) as (c1 & c2 & c3 & c4 & Eds & D & Hval).
  unfold format_4g_pos. rewrite Hsig, Eds.
  pose proof (Forall_inv D) as D1. pose proof (Forall_inv_tail D) as Da.
  destruct ((-4 <=? e) && (e <? 4)) eqn:Hrange.
  - apply andb_true_iff in Hrange as [Hlo Hhi].
    apply Z.leb_le in Hlo. apply Z.ltb_lt in Hhi.
    destruct (0 <=? e) eqn:He0.
    + (* 0 <= e <= 3: the point stands after the first e+1 digits *)
      apply Z.leb_le in He0.
      assert (Hfix : forall ip rest,
        ip ++ rest = [c1; c2; c3; c4] -> ip <> [] -> Z.of_nat (length rest) = 3 - e ->
        number_text (with_point ip (strip_trailing_zeros rest)) /\
        ((true && (e <? 4) && (m mod 10 ^ (3 - e) =? 0) = true /\
          parse_digits (with_point ip (strip_trailing_zeros rest)) = Some (m / 10 ^ (3 - e)) /\
          (length (with_point ip (strip_trailing_zeros rest)) <= 4)%nat) \/
         (true && (e <? 4) && (m mod 10 ^ (3 - e) =? 0) = false /\
          parse_digits (with_point ip (strip_trailing_zeros rest)) = None /\
          parse_decimal_body (with_point ip (strip_trailing_zeros rest)) =
            Some (FFin (Qred (inject_Z m * pow10 (e - 3))))))).
      { intros ip rest Happ Hip Hlen.
        assert (Dall : Forall (fun c => is_digit c = true) (ip ++ rest)) by now rewrite Happ.
        apply Forall_app in Dall as [Dip Drest].
        destruct (fixed_shape ip rest Hip Dip Drest) as [Hnt Hcases].
        rewrite Happ, Hval, Hlen in Hcases.
        replace (- (3 - e)) with (e - 3) in Hcases by lia.
        apply Z.ltb_lt in Hhi. rewrite Hhi. cbn [andb].
        split; [exact Hnt|].
        destruct Hcases as [(Hmod & Hp & HT) | (Hmod & Hp & Hf)]; [left | right].
        - split; [now apply Z.eqb_eq|]. split; [exact Hp|].
          rewrite HT. apply (f_equal (@length _)) in Happ. rewrite length_app in Happ.
          simpl in Happ. lia.
        - split; [now apply Z.eqb_neq | now split]. }
      assert (He : e = 0 \/ e = 1 \/ e = 2 \/ e = 3) by lia.
      destruct He as [-> | [-> | [-> | ->]]].
      * apply (Hfix [c1] [c2; c3; c4]); [reflexivity | discriminate | reflexivity].
      * apply (Hfix [c1; c2] [c3; c4]); [reflexivity | discriminate | reflexivity].
      * apply (Hfix [c1; c2; c3] [c4]); [reflexivity | discriminate | reflexivity].
      * apply (Hfix [c1; c2; c3; c4] []); [reflexivity | discriminate | reflexivity].
    + (* -4 <= e < 0: zeros between the point and the digits *)
      apply Z.leb_gt in He0. cbn [andb].
      destruct (strip_trailing_zeros_digits [c1; c2; c3; c4] D) as (k & E & Dfp & _).
      set (fp := strip_trailing_zeros [c1; c2; c3; c4]) in *.
      set (j := Z.to_nat (- e - 1)).
      assert (Hmk : m = digits_value 0 fp * 10 ^ Z.of_nat k).
      { rewrite <- Hval, E. apply digits_value_zeros. }
      assert (Hlen : Z.of_nat (length fp) + Z.of_nat k = 4).
      { apply (f_equal (@length _)) in E. rewrite length_app, repeat_length in E.
        simpl in E. lia. }
      assert (Hfp : fp <> []).
      { intros Efp. rewrite Efp in Hmk. change (digits_value 0 []) with 0 in Hmk. lia. }
      assert (Dz : Forall (fun c => is_digit c = true) (repeat "0"%char j ++ fp))
        by (apply Forall_app; split; [apply digits_repeat_zero | exact Dfp]).
      assert (Hzfp : repeat "0"%char j ++ fp <> [])
        by (destruct (repeat "0"%char j); [exact Hfp | discriminate]).
      destruct (unsigned_fixed ["0"%char] (repeat "0"%char j ++ fp))
        as [Hint Hfloat]; [discriminate | exact Hzfp | repeat constructor | exact Dz |].
      change (lit "0." ++ repeat "0"%char j ++ fp)
        with (["0"%char] ++ "."%char :: repeat "0"%char j ++ fp).
      split.
      { change (["0"%char] ++ "."%char :: repeat "0"%char j ++ fp)
          with (["0"%char] ++ ["."%char] ++ (repeat "0"%char j ++ fp)).
        apply number_text_app; [|now apply number_text_digits | repeat constructor].
        apply number_text_digits; [discriminate | repeat constructor]. }
      right. split; [reflexivity|]. split; [exact Hint|].
      rewrite Hfloat. apply same_float.
      change (["0"%char] ++ repeat "0"%char j ++ fp) with (repeat "0"%char (S j) ++ fp).
      rewrite digits_value_leading_zeros, Hmk. symmetry.
      apply scale_pow10; [lia|]. rewrite length_app, repeat_length. unfold j. lia.
  - (* scientific notation *)
    apply andb_false_iff in Hrange.
    assert (Hcond : (0 <=? e) && (e <? 4) && (m mod 10 ^ (3 - e) =? 0) = false).
    { destruct Hrange as [H | H].
      - apply Z.leb_gt in H. assert (E0 : (0 <=? e) = false) by (apply Z.leb_gt; lia).
        now rewrite E0.
      - rewrite H. now rewrite andb_false_r. }
    rewrite Hcond.
    change (take 1 [c1; c2; c3; c4]) with [c1].
    change (drop 1 [c1; c2; c3; c4]) with [c2; c3; c4].
    destruct (strip_trailing_zeros_digits [c2; c3; c4] Da) as (k & E & Dfp & _).
    set (fp := strip_trailing_zeros [c2; c3; c4]) in *.
    destruct (pad_zeros_digits 2 (Z.abs e) (Z.abs_nonneg e)) as (Hex & Dex & Vex).
    set (ex := pad_zeros 2 (str_of_nonneg (Z.abs e))) in *.
    assert (Hmk : m = digits_value 0 ([c1] ++ fp) * 10 ^ Z.of_nat k).
    { rewrite <- Hval. change [c1; c2; c3; c4] with ([c1] ++ [c2; c3; c4]).
      rewrite E, app_assoc. apply digits_value_zeros. }
    assert (Hlen : Z.of_nat (length fp) + Z.of_nat k = 3).
    { apply (f_equal (@length _)) in E. rewrite length_app, repeat_length in E.
      simpl in E. lia. }
    destruct (unsigned_sci [c1] fp (e <? 0) ex) as [Hint Hfloat];
      [discriminate | exact Hex | repeat constructor; exact D1 | exact Dfp | exact Dex |].
    split.
    { assert (Hmid : forall mid, Forall (fun c => number_char c = true) mid ->
        number_text ([c1] ++ mid ++ ex)).
      { intros mid Hmid. apply number_text_app; [| |exact Hmid].
        - apply number_text_digits; [discriminate | repeat constructor; exact D1].
        - now apply number_text_digits. }
      unfold with_point. destruct fp as [|f fp'].
      - apply (Hmid ["e"%char; if e <? 0 then "-"%char else "+"%char]).
        repeat constructor. now destruct (e <? 0).
      - replace (([c1] ++ "."%char :: f :: fp') ++
                 "e"%char :: (if e <? 0 then "-"%char else "+"%char) :: ex)
          with ([c1] ++ ("."%char :: (f :: fp') ++
                         ["e"%char; if e <? 0 then "-"%char else "+"%char]) ++ ex)
          by (cbn [app]; rewrite <- !app_assoc; reflexivity).
        apply Hmid. constructor; [reflexivity|].
        apply Forall_app. split; [now apply digits_number_chars|].
        repeat constructor. now destruct (e <? 0). }
    right. split; [reflexivity|]. split; [exact Hint|].
    rewrite Hfloat. apply same_float. rewrite Hmk, Vex. symmetry.
    apply scale_pow10; [lia|].
    destruct (e <? 0) eqn:Hneg; [apply Z.ltb_lt in Hneg | apply Z.ltb_ge in Hneg]; lia.
Qed.

End FloatTexts.

Section FloatRoundTrip.

Import Toon.

Local Open Scope Z_scope.

Lemma number_char_plain c :
  number_char c = true ->
  structural c = false /\ ascii_eqb c LIST_SEP = false /\ is_space c = false.
Proof.
  destruct c as [[] [] [] [] [] [] [] []]; vm_compute; try discriminate;
    intros _; repeat split.
Qed.

Lemma number_text_trimmed T : number_text T -> trimmed T = true.
Proof.
  intros ((c & r & -> & Hc) & (d & r' & E & Hd) & _).
  unfold trimmed. rewrite E.
  rewrite (digit_not_space c Hc), (digit_not_space d Hd). reflexivity.
Qed.

Lemma number_text_clean T : number_text T -> clean T.
Proof.
  intros H. apply clean_of_chars; [now apply number_text_trimmed|].
  destruct H as (_ & _ & H). eapply Forall_impl; [exact H|].
  intros c Hc. destruct (number_char_plain c Hc) as (? & ? & _). now split.
Qed.

Lemma number_text_minus_clean T : number_text T -> clean ("-"%char :: T).
Proof.
  intros H. apply clean_of_chars.
  - apply trimmed_cons; [reflexivity | now apply number_text_trimmed].
  - constructor; [now split|].
    destruct H as (_ & _ & H). eapply Forall_impl; [exact H|].
    intros c Hc. destruct (number_char_plain c Hc) as (? & ? & _). now split.
Qed.

(** How [int] and [float] read the text of a number, bare or with a minus
    sign in front. *)
Lemma parse_number_text T :
  number_text T ->
  (parse_digits T = None -> parse_int T = None /\ parse_int ("-"%char :: T) = None) /\
  ((count_digits T <= max_str_digits)%nat ->
     parse_int T = parse_digits T /\
     parse_int ("-"%char :: T) = Z.opp <$> parse_digits T) /\
  parse_decimal T = parse_decimal_body T /\
  parse_decimal ("-"%char :: T) = negate <$> parse_decimal_body T.
Proof.
  intros H. pose proof (number_text_trimmed T H) as Ht.
  pose proof (number_text_minus_clean T H) as (Htm & _).
  destruct H as ((c & r & -> & Hc) & _).
  destruct (digit_facts c Hc) as (_ & _ & Hm & Hp & _).
  assert (E1 : ascii_eqb c "-" = false) by now apply Ascii.eqb_neq.
  assert (E2 : ascii_eqb c "+" = false) by now apply Ascii.eqb_neq.
  unfold parse_int, parse_decimal.
  change (count_digits ("-"%char :: c :: r)) with (count_digits (c :: r)).
  rewrite (number_strip_trimmed _ Ht), (number_strip_trimmed _ Htm), E1, E2.
  change (ascii_eqb "-" "-") with true. cbv iota.
  split; [|split; [|split; reflexivity]].
  - intros ->. destruct (max_str_digits <? count_digits (c :: r))%nat; split; reflexivity.
  - intros Hn. apply Nat.ltb_ge in Hn. rewrite Hn. split; reflexivity.
Qed.

Lemma Qeq_bool_false q : Qeq_bool q 0 = false -> ~ (q == 0)%Q.
Proof. intros H E. apply Qeq_bool_iff in E. congruence. Qed.

Lemma short_text_fits T : (length T <= 4)%nat -> (count_digits T <= max_str_digits)%nat.
Proof.
  intros H. etransitivity; [apply count_digits_length|]. unfold max_str_digits. lia.
Qed.

(** The text of a float reads back as [float_back] says. *)
Lemma float_round_trip x :
  clean (format_4g x) /\ _try_numeric (format_4g x) = float_back x.
Proof.
  destruct x as [|b|q].
  - split; [repeat split | reflexivity].
  - destruct b; (split; [repeat split | reflexivity]).
  - unfold format_4g, float_back.
    destruct (Qeq_bool q 0) eqn:Hz; [split; [repeat split | reflexivity]|].
    apply Qeq_bool_false in Hz.
    destruct (Qle_bool 0 q) eqn:Hs; cbn [negb].
    + (* positive *)
      apply Qle_bool_iff in Hs.
      assert (Ha : (0 < q)%Q) by (apply Qle_lteq in Hs as [? | E]; [assumption | now symmetry in E]).
      destruct (sig4 q) as [m e] eqn:Hsig.
      destruct (format_4g_pos_spec q m e Ha Hsig) as [Hnt Hcases].
      destruct (parse_number_text _ Hnt) as (Hn & Hi & Hf & _).
      split; [now apply number_text_clean|].
      unfold _try_numeric, parse_float. rewrite Hf.
      destruct Hcases as [(-> & Hp & Hlen) | (-> & Hp & ->)].
      * destruct (Hi (short_text_fits _ Hlen)) as [-> _]. now rewrite Hp.
      * destruct (Hn Hp) as [-> _]. reflexivity.
    + (* negative *)
      apply Qle_bool_false in Hs.
      assert (Ha : (0 < - q)%Q) by lra.
      destruct (sig4 (- q)) as [m e] eqn:Hsig.
      destruct (format_4g_pos_spec (- q) m e Ha Hsig) as [Hnt Hcases].
      destruct (parse_number_text _ Hnt) as (Hn & Hi & _ & Hf).
      split; [now apply number_text_minus_clean|].
      unfold _try_numeric, parse_float. rewrite Hf.
      destruct Hcases as [(Hc & Hp & Hlen) | (-> & Hp & ->)].
      * destruct (Hi (short_text_fits _ Hlen)) as [_ ->]. rewrite Hp, Hc.
        cbn [fmap option_fmap option_map]. f_equal.
        apply andb_true_iff in Hc as [Hr Hc]. apply Z.eqb_eq in Hc.
        apply andb_true_iff in Hr as [_ Hr]. apply Z.ltb_lt in Hr.
        symmetry. apply Z.div_opp_l_z; [|exact Hc].
        apply Z.pow_nonzero; lia.
      * destruct (Hn Hp) as [_ ->].
        cbn [fmap option_fmap option_map negate to_b64]. do 2 f_equal.
        apply Qred_complete. rewrite Qred_correct, inject_Z_opp. ring.
Qed.

End FloatRoundTrip.

Section FloatAccuracy.

Import Toon.

Local Open Scope Q_scope.

(** Rounding to the nearest integer moves a number by at most one half. *)
Lemma round_half_even_close x :
  x - (1 # 2) <= inject_Z (round_half_even x) /\ inject_Z (round_half_even x) <= x + (1 # 2).
Proof.
  destruct x as [n d]. unfold round_half_even. cbn [Qnum Qden].
  pose proof (Z.div_mod n (Z.pos d) ltac:(lia)) as Hdm.
  pose proof (Z.mod_pos_bound n (Z.pos d) ltac:(lia)) as Hr.
  set (fl := (n / Z.pos d)%Z) in *. set (r := (n mod Z.pos d)%Z) in *.
  assert (Hx : n # d == inject_Z fl + inject_Z r / inject_Z (Z.pos d)).
  { rewrite (Qmake_Qdiv n d), Hdm, inject_Z_plus, inject_Z_mult. field. discriminate. }
  assert (HD : 0 < inject_Z (Z.pos d)) by reflexivity.
  assert (Hfrac : forall a b : Z, (a * Z.pos d <= b * 2 * r)%Z ->
                  inject_Z a <= inject_Z b * 2 * (inject_Z r / inject_Z (Z.pos d))).
  { intros a b H. apply (Qmult_le_r _ _ (inject_Z (Z.pos d)) HD).
    assert (E : inject_Z b * 2 * (inject_Z r / inject_Z (Z.pos d)) * inject_Z (Z.pos d)
                == inject_Z (b * 2 * r)).
    { rewrite !inject_Z_mult. change (inject_Z 2) with 2. field. discriminate. }
    rewrite E, <- inject_Z_mult, <- Zle_Qle. exact H. }
  assert (Hfrac' : forall a b : Z, (b * 2 * r <= a * Z.pos d)%Z ->
                  inject_Z b * 2 * (inject_Z r / inject_Z (Z.pos d)) <= inject_Z a).
  { intros a b H. apply (Qmult_le_r _ _ (inject_Z (Z.pos d)) HD).
    assert (E : inject_Z b * 2 * (inject_Z r / inject_Z (Z.pos d)) * inject_Z (Z.pos d)
                == inject_Z (b * 2 * r)).
    { rewrite !inject_Z_mult. change (inject_Z 2) with 2. field. discriminate. }
    rewrite E, <- inject_Z_mult, <- Zle_Qle. exact H. }
  rewrite Hx. set (f := inject_Z r / inject_Z (Z.pos d)) in *.
  assert (H0 : 0 <= f).
  { pose proof (Hfrac 0%Z 1%Z ltac:(lia)) as H. change (inject_Z 0) with 0 in H.
    change (inject_Z 1) with 1 in H. lra. }
  assert (H1 : f <= 1).
  { pose proof (Hfrac' 2%Z 1%Z ltac:(lia)) as H. change (inject_Z 2) with 2 in H.
    change (inject_Z 1) with 1 in H. lra. }
  destruct (2 * r <? Z.pos d)%Z eqn:E1.
  - apply Z.ltb_lt in E1.
    pose proof (Hfrac' 1%Z 1%Z ltac:(lia)) as H. change (inject_Z 1) with 1 in H. lra.
  - apply Z.ltb_ge in E1.
    pose proof (Hfrac 1%Z 1%Z ltac:(lia)) as H. change (inject_Z 1) with 1 in H.
    destruct (Z.pos d <? 2 * r)%Z eqn:E2.
    + rewrite inject_Z_plus. change (inject_Z 1) with 1. lra.
    + apply Z.ltb_ge in E2.
      pose proof (Hfrac' 1%Z 1%Z ltac:(lia)) as H'. change (inject_Z 1) with 1 in H'.
      destruct (Z.even fl); [|rewrite inject_Z_plus; change (inject_Z 1) with 1]; lra.
Qed.

(** The four-digit value of [a] is [a] up to half a unit of its last
    digit. *)
Lemma sig4_close a m e :
  0 < a -> sig4 a = (m, e) ->
  Qabs (a - inject_Z m * pow10 (e - 3)) <= (1 # 2) * pow10 (e - 3).
Proof.
  intros Ha. unfold sig4.
  set (e0 := floor_log10 a). set (x := a / pow10 (e0 - 3)).
  pose proof (round_half_even_close x) as [Hlo Hhi].
  pose proof (pow10_pos (e0 - 3)) as Hp.
  assert (Hax : a == x * pow10 (e0 - 3)).
  { unfold x. field. intros E. rewrite E in Hp. lra. }
  assert (Hbase : Qabs (a - inject_Z (round_half_even x) * pow10 (e0 - 3))
                  <= (1 # 2) * pow10 (e0 - 3)).
  { apply Qabs_Qle_condition. rewrite Hax. split.
    - assert (E1 : x * pow10 (e0 - 3) - inject_Z (round_half_even x) * pow10 (e0 - 3)
                   == (x - inject_Z (round_half_even x)) * pow10 (e0 - 3)) by ring.
      assert (E2 : - ((1 # 2) * pow10 (e0 - 3)) == (- (1 # 2)) * pow10 (e0 - 3)) by ring.
      rewrite E1, E2. apply Qmult_le_compat_r; lra.
    - assert (E1 : x * pow10 (e0 - 3) - inject_Z (round_half_even x) * pow10 (e0 - 3)
                   == (x - inject_Z (round_half_even x)) * pow10 (e0 - 3)) by ring.
      rewrite E1. apply Qmult_le_compat_r; lra. }
  destruct (round_half_even x =? 10000)%Z eqn:E; intros [= <- <-]; [|exact Hbase].
  apply Z.eqb_eq in E. rewrite E in Hbase.
  replace (e0 + 1 - 3)%Z with (1 + (e0 - 3))%Z by lia.
  rewrite pow10_add. change (pow10 1) with 10.
  assert (E1 : inject_Z 1000 * (10 * pow10 (e0 - 3)) == inject_Z 10000 * pow10 (e0 - 3)).
  { change (inject_Z 1000) with 1000. change (inject_Z 10000) with 10000. ring. }
  rewrite E1. eapply Qle_trans; [exact Hbase|].
  apply Qmult_le_l; [reflexivity|]. lra.
Qed.

(** *** binary64 *)

Lemma pow2_pos z : 0 < pow2 z.
Proof. unfold pow2. apply Qpower_0_lt. reflexivity. Qed.

Lemma two_nonzero : ~ inject_Z 2 == 0.
Proof. discriminate. Qed.

Lemma pow2_add x y : pow2 (x + y) == pow2 x * pow2 y.
Proof. unfold pow2. apply Qpower_plus. exact two_nonzero. Qed.

Lemma pow2_Z z : (0 <= z)%Z -> pow2 z == inject_Z (2 ^ z).
Proof.
  intros H. unfold pow2. destruct z as [|p|p]; [reflexivity| |lia].
  rewrite <- Zpower_Qpower by lia. reflexivity.
Qed.

Lemma pow2_succ z : pow2 (z + 1) == 2 * pow2 z.
Proof. rewrite pow2_add. change (pow2 1) with 2. ring. Qed.

Lemma pow2_le x y : (x <= y)%Z -> pow2 x <= pow2 y.
Proof.
  intros H. replace y with (x + (y - x))%Z by lia. rewrite pow2_add.
  pose proof (pow2_pos x) as Hx.
  assert (H1 : 1 <= pow2 (y - x)).
  { rewrite pow2_Z by lia. change 1 with (inject_Z 1). apply inject_Z_le.
    pose proof (Z.pow_pos_nonneg 2 (y - x) ltac:(lia) ltac:(lia)). lia. }
  rewrite <- (Qmult_1_r (pow2 x)) at 1. apply Qmult_le_l; assumption.
Qed.

Lemma pow2_lt x y : (x < y)%Z -> pow2 x < pow2 y.
Proof.
  intros H. apply Qlt_le_trans with (pow2 (x + 1)); [|apply pow2_le; lia].
  rewrite pow2_succ. pose proof (pow2_pos x). lra.
Qed.

(** Bounds of a positive integer by its binary logarithm. *)
Lemma log2_bounds n :
  (0 < n)%Z -> pow2 (Z.log2 n) <= inject_Z n /\ inject_Z n < pow2 (Z.log2 n + 1).
Proof.
  intros Hn. pose proof (Z.log2_spec n Hn) as [Hlo Hhi].
  pose proof (Z.log2_nonneg n).
  rewrite !pow2_Z by lia. split; [now apply inject_Z_le | apply inject_Z_lt].
  now rewrite <- Z.add_1_r in Hhi.
Qed.

(** [floor_log2] brackets its argument between two powers of two. *)
Lemma floor_log2_spec a :
  0 < a -> pow2 (floor_log2 a) <= a /\ a < pow2 (floor_log2 a + 1).
Proof.
  intros Ha. unfold floor_log2.
  set (n := Qnum a). set (d := Z.pos (Qden a)).
  assert (Hn : (0 < n)%Z) by (unfold n; destruct a as [[|p|p] dd]; simpl in *; try easy).
  assert (Hd : (0 < d)%Z) by (unfold d; lia).
  destruct (log2_bounds n Hn) as [Hn1 Hn2]. destruct (log2_bounds d Hd) as [Hd1 Hd2].
  pose proof (Q_as_fraction a) as Hfrac. fold n d in Hfrac.
  set (ln := Z.log2 n) in *. set (ld := Z.log2 d) in *.
  assert (HD : 0 < inject_Z d) by (change 0 with (inject_Z 0); now apply inject_Z_lt).
  pose proof (pow2_pos ld) as Pld. pose proof (pow2_pos (ln - ld - 1)) as P1.
  pose proof (pow2_pos (ln - ld)) as P2.
  (* a > 2^(ln-ld-1) and a < 2^(ln-ld+1) *)
  assert (Hlow : pow2 (ln - ld - 1) < a).
  { apply (Qmult_lt_r _ _ (inject_Z d) HD). rewrite Hfrac.
    apply Qlt_le_trans with (pow2 (ln - ld - 1) * pow2 (ld + 1)).
    - apply Qmult_lt_l; assumption.
    - rewrite <- pow2_add. replace (ln - ld - 1 + (ld + 1))%Z with ln by lia. exact Hn1. }
  assert (Hhigh : a < pow2 (ln - ld + 1)).
  { apply (Qmult_lt_r _ _ (inject_Z d) HD). rewrite Hfrac.
    apply Qlt_le_trans with (pow2 (ln + 1)); [exact Hn2|].
    replace (ln + 1)%Z with (ln - ld + 1 + ld)%Z by lia. rewrite pow2_add.
    apply Qmult_le_l; [apply pow2_pos | exact Hd1]. }
  destruct (Qle_bool (pow2 (ln - ld)) a) eqn:E.
  - apply Qle_bool_iff in E. split; assumption.
  - apply Qle_bool_false in E. split; [lra|].
    replace (ln - ld - 1 + 1)%Z with (ln - ld)%Z by lia. exact E.
Qed.

(** Among the integers none is nearer than the rounded one. *)
Lemma round_half_even_nearest x (k : Z) :
  Qabs (inject_Z (round_half_even x) - x) <= Qabs (inject_Z k - x).
Proof.
  destruct (round_half_even_close x) as [Hlo Hhi].
  set (r := round_half_even x) in *.
  destruct (Z.eq_dec k r) as [->|Hne]; [lra|].
  assert (Hr : Qabs (inject_Z r - x) <= 1 # 2) by (apply Qabs_Qle_condition; lra).
  eapply Qle_trans; [exact Hr|].
  destruct (Z_lt_le_dec k r) as [Hlt|Hge].
  - assert (Hk : inject_Z k + 1 <= inject_Z r).
    { change 1 with (inject_Z 1). rewrite <- inject_Z_plus. apply inject_Z_le. lia. }
    rewrite Qabs_neg by lra. lra.
  - assert (Hk : inject_Z r + 1 <= inject_Z k).
    { change 1 with (inject_Z 1). rewrite <- inject_Z_plus. apply inject_Z_le. lia. }
    rewrite Qabs_pos by lra. lra.
Qed.

(** The rounded value of a positive number: a multiple of the quantum, and
    the nearest one. *)
Lemma b64_round_pos_spec a :
  0 < a ->
  let E := b64_quantum a in
  let m := round_half_even (a / pow2 E) in
  (0 <= m)%Z /\
  (b64_round_pos a = FInf false /\ pow2 1024 <= inject_Z m * pow2 E \/
   exists y, b64_round_pos a = FFin y /\ y == inject_Z m * pow2 E /\ y < pow2 1024) /\
  forall k : Z, Qabs (inject_Z m * pow2 E - a) <= Qabs (inject_Z k * pow2 E - a).
Proof.
  intros Ha E m. pose proof (pow2_pos E) as HE.
  assert (Hx : 0 < a / pow2 E) by (apply Qlt_shift_div_l; lra).
  split; [|split].
  - destruct (round_half_even_close (a / pow2 E)) as [Hlo _]. fold m in Hlo.
    assert (Hm : inject_Z (-1) < inject_Z m) by (change (inject_Z (-1)) with (-1); lra).
    rewrite <- Zlt_Qlt in Hm. lia.
  - unfold b64_round_pos. fold E. fold m.
    destruct (Qle_bool (pow2 1024) (inject_Z m * pow2 E)) eqn:Ev.
    + left. apply Qle_bool_iff in Ev. auto.
    + right. apply Qle_bool_false in Ev. eexists. split; [reflexivity|].
      split; [apply Qred_correct | now rewrite Qred_correct].
  - intros k.
    assert (Ek : forall j : Z, inject_Z j * pow2 E - a == (inject_Z j - a / pow2 E) * pow2 E).
    { intros j. field. lra. }
    rewrite !Ek, !Qabs_Qmult, (Qabs_pos (pow2 E)) by lra.
    apply Qmult_le_compat_r; [apply round_half_even_nearest | lra].
Qed.

(** A positive float is a multiple of its own quantum. *)
Lemma b64_pos_shape z :
  0 < z -> (exists w, b64_round_pos z = FFin w /\ w == z) ->
  exists k : Z, z == inject_Z k * pow2 (b64_quantum z).
Proof.
  intros Hz (w & H & Hw). destruct (b64_round_pos_spec z Hz) as (_ & Hc & _).
  destruct Hc as [[E _] | (y & Ey & Hy & _)]; [rewrite E in H; discriminate|].
  assert (Hwy : y = w) by congruence. subst y.
  eexists. transitivity w; [now symmetry | exact Hy].
Qed.

(** No multiple of its own quantum is nearer to [a] than the rounded
    value. *)
Lemma b64_nearest_pos a y z :
  0 < a -> b64_round_pos a = FFin y ->
  0 <= z -> (0 < z -> exists k : Z, z == inject_Z k * pow2 (b64_quantum z)) ->
  Qabs (y - a) <= Qabs (z - a).
Proof.
  intros Ha Hy Hz0 Hshape.
  destruct (b64_round_pos_spec a Ha) as (_ & Hc & Hnear).
  destruct Hc as [[E _] | (y' & Ey & Hy' & _)]; [rewrite E in Hy; discriminate|].
  rewrite Ey in Hy. injection Hy as <-. rewrite Hy'.
  set (E := b64_quantum a) in *. set (m := round_half_even (a / pow2 E)) in *.
  apply Qle_lteq in Hz0 as [Hz | Hz].
  - destruct (Hshape Hz) as (k & Hk).
    destruct (floor_log2_spec a Ha) as [Ha1 Ha2].
    destruct (floor_log2_spec z Hz) as [Hz1 Hz2].
    destruct (Z_le_gt_dec E (b64_quantum z)) as [Hle | Hgt].
    + (* [z] is a multiple of the quantum of [a] *)
      specialize (Hnear (k * 2 ^ (b64_quantum z - E))%Z).
      assert (Ez : inject_Z (k * 2 ^ (b64_quantum z - E)) * pow2 E == z).
      { rewrite inject_Z_mult, <- pow2_Z by lia. rewrite <- Qmult_assoc, <- pow2_add.
        replace (b64_quantum z - E + E)%Z with (b64_quantum z) by lia. now symmetry. }
      rewrite Ez in Hnear. exact Hnear.
    + (* [z] lies below the binade of [a] *)
      unfold E, b64_quantum in Hgt.
      assert (Hf : (floor_log2 z < floor_log2 a /\ -1022 < floor_log2 a)%Z) by lia.
      assert (HE : E = (floor_log2 a - 52)%Z) by (unfold E, b64_quantum; lia).
      specialize (Hnear (2 ^ 52)%Z).
      assert (Ep : inject_Z (2 ^ 52) * pow2 E == pow2 (floor_log2 a)).
      { rewrite <- pow2_Z by lia. rewrite <- pow2_add. rewrite HE.
        replace (52 + (floor_log2 a - 52))%Z with (floor_log2 a) by lia. reflexivity. }
      rewrite Ep in Hnear.
      assert (Hza : z < pow2 (floor_log2 a)).
      { eapply Qlt_le_trans; [exact Hz2|]. apply pow2_le. lia. }
      eapply Qle_trans; [exact Hnear|].
      rewrite (Qabs_neg (pow2 (floor_log2 a) - a)) by lra.
      rewrite (Qabs_neg (z - a)) by lra. lra.
  - specialize (Hnear 0%Z). change (inject_Z 0) with 0 in Hnear.
    assert (E0 : 0 * pow2 E - a == z - a) by (rewrite <- Hz; ring).
    rewrite E0 in Hnear. exact Hnear.
Qed.

(** Rounding overflows only from [2^1024 - 2^970] on. *)
Lemma b64_round_pos_inf a b :
  0 < a -> b64_round_pos a = FInf b -> pow2 1024 - pow2 970 <= a.
Proof.
  intros Ha Hinf. destruct (b64_round_pos_spec a Ha) as (_ & Hc & _).
  destruct Hc as [[_ Hbig] | (y & Ey & _)]; [|rewrite Ey in Hinf; discriminate].
  set (E := b64_quantum a) in *. set (m := round_half_even (a / pow2 E)) in *.
  destruct (floor_log2_spec a Ha) as [Ha1 Ha2].
  pose proof (pow2_pos E) as HE. pose proof (pow2_pos 970) as H970.
  destruct (Z_le_gt_dec 1024 (floor_log2 a)) as [Hl | Hl].
  - pose proof (pow2_le 1024 (floor_log2 a) Hl). lra.
  - destruct (round_half_even_close (a / pow2 E)) as [_ Hhi]. fold m in Hhi.
    assert (Hm : inject_Z m * pow2 E <= a + (1 # 2) * pow2 E).
    { assert (Ea : a + (1 # 2) * pow2 E == (a / pow2 E + (1 # 2)) * pow2 E) by (field; lra).
      rewrite Ea. apply Qmult_le_compat_r; lra. }
    assert (Hq : pow2 E <= pow2 971) by (apply pow2_le; unfold E, b64_quantum; lia).
    assert (E971 : pow2 971 == 2 * pow2 970) by (rewrite <- pow2_succ; reflexivity).
    lra.
Qed.

(** The rounded value is the float nearest to the exact one. *)
Lemma b64_round_nearest x y z :
  b64_round x = FFin y -> is_b64 z = true -> Qabs (y - x) <= Qabs (z - x).
Proof.
  unfold b64_round, is_b64. intros Hy Hz.
  (* the shape of [z] *)
  assert (Hpos : 0 < z -> exists k : Z, z == inject_Z k * pow2 (b64_quantum z)).
  { intros H0. unfold b64_round in Hz.
    destruct (Qeq_bool z 0) eqn:Z0; [apply Qeq_bool_iff in Z0; lra|].
    assert (Hle : Qle_bool 0 z = true) by (apply Qle_bool_iff; lra).
    rewrite Hle in Hz. destruct (b64_round_pos z) as [| |w] eqn:Ew; try discriminate.
    apply Qeq_bool_iff in Hz. apply (b64_pos_shape z H0). eauto. }
  assert (Hneg : z < 0 -> exists k : Z, - z == inject_Z k * pow2 (b64_quantum (- z))).
  { intros H0. unfold b64_round in Hz.
    destruct (Qeq_bool z 0) eqn:Z0; [apply Qeq_bool_iff in Z0; lra|].
    assert (Hle : Qle_bool 0 z = false) by (apply Qle_bool_false; lra).
    rewrite Hle in Hz. destruct (b64_round_pos (- z)) as [| |w] eqn:Ew; try discriminate.
    apply Qeq_bool_iff in Hz. rewrite Qred_correct in Hz.
    apply (b64_pos_shape (- z)); [lra|]. exists w. split; [exact Ew|]. lra. }
  clear Hz.
  destruct (Qeq_bool x 0) eqn:X0.
  - apply Qeq_bool_iff in X0. injection Hy as <-. rewrite X0.
    assert (E0 : 0 - 0 == 0) by ring. rewrite E0. apply Qabs_nonneg.
  - apply Qeq_bool_false in X0. destruct (Qle_bool 0 x) eqn:Xs.
    + apply Qle_bool_iff in Xs. assert (Hx : 0 < x) by lra.
      destruct (Qlt_le_dec z 0) as [Hz | Hz].
      * eapply Qle_trans; [apply (b64_nearest_pos x y 0 Hx Hy); [lra | intros; lra]|].
        rewrite (Qabs_neg (0 - x)) by lra. rewrite (Qabs_neg (z - x)) by lra. lra.
      * now apply (b64_nearest_pos x y z Hx Hy Hz).
    + apply Qle_bool_false in Xs. assert (Hx : 0 < - x) by lra.
      destruct (b64_round_pos (- x)) as [| |v] eqn:Ev; try discriminate.
      injection Hy as <-.
      assert (Ey : Qabs (Qred (- v) - x) == Qabs (v - - x)).
      { rewrite Qred_correct. rewrite <- (Qabs_opp (v - - x)).
        apply Qabs_wd. ring. }
      rewrite Ey.
      destruct (Qlt_le_dec z 0) as [Hz | Hz].
      * assert (Ez : Qabs (z - x) == Qabs (- z - - x)).
        { rewrite <- (Qabs_opp (z - x)). apply Qabs_wd. ring. }
        rewrite Ez. apply (b64_nearest_pos (- x) v (- z) Hx Ev); [lra|].
        intros _. now apply Hneg.
      * eapply Qle_trans; [apply (b64_nearest_pos (- x) v 0 Hx Ev); [lra | intros; lra]|].
        rewrite (Qabs_neg (0 - - x)) by lra. rewrite (Qabs_pos (z - x)) by lra. lra.
Qed.

(** Rounding stays finite below [2^1024 - 2^970]. *)
Lemma b64_round_finite x :
  Qabs x < pow2 1024 - pow2 970 -> exists y, b64_round x = FFin y.
Proof.
  intros Hx. unfold b64_round.
  destruct (Qeq_bool x 0) eqn:X0; [eauto|]. apply Qeq_bool_false in X0.
  destruct (Qle_bool 0 x) eqn:Xs.
  - apply Qle_bool_iff in Xs. assert (H0 : 0 < x) by lra.
    rewrite Qabs_pos in Hx by lra.
    destruct (b64_round_pos x) as [|b|y] eqn:E; [|apply b64_round_pos_inf in E; lra|eauto].
    destruct (b64_round_pos_spec x H0) as (_ & [[E' _] | (y & E' & _)] & _);
      rewrite E' in E; discriminate.
  - apply Qle_bool_false in Xs. assert (H0 : 0 < - x) by lra.
    rewrite Qabs_neg in Hx by lra.
    destruct (b64_round_pos (- x)) as [|b|y] eqn:E; [|apply b64_round_pos_inf in E; lra|eauto].
    destruct (b64_round_pos_spec (- x) H0) as (_ & [[E' _] | (y & E' & _)] & _);
      rewrite E' in E; discriminate.
Qed.

(** A float comes back as a number with the same first four significant
    digits: the text shows a four-digit mantissa times a power of ten,
    which differs from the float by at most half a unit of the last digit;
    what comes back is that number itself, as an int, or the float nearest
    to it, which differs from the float by at most one unit of the last
    digit. *)
Lemma float_back_close q :
  is_b64 q = true -> ~ q == 0 ->
  exists dec m e,
    (1000 <= m <= 9999)%Z /\
    Qabs dec == inject_Z m * pow10 (e - 3) /\
    Qabs (q - dec) <= (1 # 2) * pow10 (e - 3) /\
    ((exists z, float_back (FFin q) = VInt z /\ inject_Z z == dec) \/
     float_back (FFin q) = VFloat (b64_round dec)) /\
    (forall v, number_value (float_back (FFin q)) = Some v ->
               Qabs (q - v) <= pow10 (e - 3)) /\
    (Qabs dec < pow2 1024 - pow2 970 ->
     exists v, number_value (float_back (FFin q)) = Some v).
Proof.
  intros Hb Hz. unfold float_back.
  destruct (Qeq_bool q 0) eqn:E0; [apply Qeq_bool_iff in E0; contradiction|].
  assert (Hval : forall (neg : bool) a m e,
    0 < a -> a == (if neg then - q else q) -> sig4 a = (m, e) ->
    let sm := if neg then (- m)%Z else m in
    let dec := Qred (inject_Z sm * pow10 (e - 3)) in
    let back :=
      if (0 <=? e)%Z && (e <? 4)%Z && (m mod 10 ^ (3 - e) =? 0)%Z
      then VInt (sm / 10 ^ (3 - e))
      else VFloat (b64_round dec) in
    (1000 <= m <= 9999)%Z /\
    Qabs dec == inject_Z m * pow10 (e - 3) /\
    Qabs (q - dec) <= (1 # 2) * pow10 (e - 3) /\
    ((exists z, back = VInt z /\ inject_Z z == dec) \/ back = VFloat (b64_round dec)) /\
    (forall v, number_value back = Some v -> Qabs (q - v) <= pow10 (e - 3)) /\
    (Qabs dec < pow2 1024 - pow2 970 -> exists v, number_value back = Some v)).
  { intros neg a m e Ha Haq Hsig sm dec back.
    pose proof (sig4_spec a m e Ha Hsig) as Hm.
    pose proof (sig4_close a m e Ha Hsig) as Hc.
    pose proof (pow10_pos (e - 3)) as Hp.
    assert (Hsm : inject_Z sm == (if neg then - inject_Z m else inject_Z m)).
    { unfold sm. destruct neg; [rewrite inject_Z_opp|]; reflexivity. }
    assert (Hdec : dec == inject_Z sm * pow10 (e - 3)) by apply Qred_correct.
    assert (Habs : Qabs dec == inject_Z m * pow10 (e - 3)).
    { rewrite Hdec, Hsm, Qabs_Qmult, (Qabs_pos (pow10 (e - 3))) by lra.
      assert (Hmpos : 0 <= inject_Z m) by (change 0 with (inject_Z 0); apply inject_Z_le; lia).
      destruct neg; [rewrite Qabs_opp|]; rewrite Qabs_pos by exact Hmpos; reflexivity. }
    assert (Hclose : Qabs (q - dec) <= (1 # 2) * pow10 (e - 3)).
    { rewrite Hdec, Hsm. destruct neg.
      - assert (E1 : q - - inject_Z m * pow10 (e - 3)
                     == - (a - inject_Z m * pow10 (e - 3))) by (rewrite Haq; ring).
        rewrite E1, Qabs_opp. exact Hc.
      - assert (E1 : q - inject_Z m * pow10 (e - 3)
                     == a - inject_Z m * pow10 (e - 3)) by (rewrite Haq; ring).
        rewrite E1. exact Hc. }
    split; [exact Hm|]. split; [exact Habs|]. split; [exact Hclose|].
    unfold back.
    destruct ((0 <=? e)%Z && (e <? 4)%Z && (m mod 10 ^ (3 - e) =? 0)%Z) eqn:Hcond.
    - apply andb_true_iff in Hcond as [Hr Hmod]. apply andb_true_iff in Hr as [_ Hr].
      apply Z.ltb_lt in Hr. apply Z.eqb_eq in Hmod.
      assert (Hint : inject_Z (sm / 10 ^ (3 - e)) == dec).
      { rewrite Hdec.
        assert (Hpow : (10 ^ (3 - e) <> 0)%Z) by (apply Z.pow_nonzero; lia).
        assert (Hsmod : (sm mod 10 ^ (3 - e) = 0)%Z).
        { unfold sm. destruct neg; [|exact Hmod]. now apply Z.mod_opp_l_z. }
        assert (Hdiv : (sm = sm / 10 ^ (3 - e) * 10 ^ (3 - e))%Z).
        { pose proof (Z.div_mod sm (10 ^ (3 - e)) Hpow). lia. }
        rewrite Hdiv at 2. rewrite inject_Z_mult, <- pow10_Z by lia.
        rewrite <- Qmult_assoc, <- pow10_add.
        replace (3 - e + (e - 3))%Z with 0%Z by lia. change (pow10 0) with 1. ring. }
      split; [left; eauto|]. split.
      + intros v [= <-]. rewrite Hint. lra.
      + intros _. eexists. reflexivity.
    - split; [now right|]. split.
      + intros v Hv. destruct (b64_round dec) as [| |y] eqn:Ey; try discriminate.
        injection Hv as <-.
        pose proof (b64_round_nearest dec y q Ey Hb) as Hn.
        assert (Et : q - y == (q - dec) + (dec - y)) by ring.
        rewrite Et. eapply Qle_trans; [apply Qabs_triangle|].
        rewrite <- (Qabs_opp (dec - y)).
        assert (Eo : - (dec - y) == y - dec) by ring. rewrite Eo.
        lra.
      + intros Hfin. destruct (b64_round_finite dec Hfin) as (y & ->). eexists. reflexivity. }
  destruct (Qle_bool 0 q) eqn:Hs; cbn [negb].
  - apply Qle_bool_iff in Hs.
    assert (Ha : 0 < q) by (apply Qle_lteq in Hs as [? | E]; [assumption | now symmetry in E]).
    destruct (sig4 q) as [m e] eqn:Hsig.
    pose proof (Hval false q m e Ha ltac:(reflexivity) Hsig) as H. cbn zeta in H.
    eexists _, m, e. exact H.
  - apply Qle_bool_false in Hs.
    assert (Ha : 0 < - q) by lra.
    destruct (sig4 (- q)) as [m e] eqn:Hsig.
    pose proof (Hval true (- q) m e Ha ltac:(reflexivity) Hsig) as H. cbn zeta in H.
    eexists _, m, e. exact H.
Qed.

End FloatAccuracy.

Section Scalars.

Import Toon.

(** A scalar is written as a clean text that reads back as expected. *)
Lemma scalar_encoding v :
  scalar_ok v = true ->
  clean (_encode_value v) /\ _try_numeric (_encode_value v) = back_scalar v.
Proof.
  destruct v as [|b|z|x|s|l|d]; simpl; try discriminate; intros H.
  - destruct b; split; try reflexivity; repeat split.
  - split; [apply str_of_int_clean | now apply try_numeric_int].
  - apply float_round_trip.
  - now apply plain_text_clean.
Qed.

(** *** Trimmed texts *)

Lemma trimmed_inv s :
  trimmed s = true <->
  exists c r d r', s = c :: r /\ rev s = d :: r' /\ is_space c = false /\ is_space d = false.
Proof.
  unfold trimmed. split.
  - destruct s as [|c r]; [discriminate|].
    destruct (rev (c :: r)) as [|d r'] eqn:E; [discriminate|].
    intros H. apply andb_true_iff in H as [H1 H2].
    apply negb_true_iff in H1, H2. exists c, r, d, r'. auto.
  - intros (c & r & d & r' & -> & -> & -> & ->). reflexivity.
Qed.

Lemma trimmed_app_mid a m b :
  trimmed a = true -> trimmed b = true -> trimmed (a ++ m ++ b) = true.
Proof.
  rewrite !trimmed_inv.
  intros (c & r & _ & _ & -> & _ & Hc & _) (_ & _ & d & r' & _ & Eb & _ & Hd).
  exists c, (r ++ m ++ b), d, (r' ++ rev m ++ rev (c :: r)).
  split; [reflexivity|]. split; [|now split].
  rewrite !rev_app_distr, Eb, <- app_assoc. reflexivity.
Qed.

Lemma trimmed_join sep parts :
  parts <> [] -> Forall (fun p => trimmed p = true) parts -> trimmed (join sep parts) = true.
Proof.
  intros Hne Hall. induction Hall as [|p rest Hp Hrest IH]; [congruence|].
  destruct rest as [|q rest']; [exact Hp|].
  change (join sep (p :: q :: rest')) with (p ++ sep ++ join sep (q :: rest')).
  apply trimmed_app_mid; [exact Hp | apply IH; discriminate].
Qed.

(** *** Lists *)

Lemma split_on_no_sep sep s :
  contains sep s = false -> split_on sep s = [s].
Proof.
  induction s as [|c r IH]; simpl; [reflexivity|].
  destruct (ascii_eqb c sep); [discriminate|].
  intros H. now rewrite IH.
Qed.

Lemma split_on_app sep a b :
  contains sep a = false -> split_on sep (a ++ sep :: b) = a :: split_on sep b.
Proof.
  induction a as [|c r IH]; simpl.
  - unfold ascii_eqb. now rewrite Ascii.eqb_refl.
  - destruct (ascii_eqb c sep); [discriminate|].
    intros H. now rewrite IH.
Qed.

Lemma split_on_join sep parts :
  parts <> [] -> Forall (fun p => contains sep p = false) parts ->
  split_on sep (join [sep] parts) = parts.
Proof.
  intros Hne Hall. induction Hall as [|p rest Hp Hrest IH]; [congruence|].
  destruct rest as [|q rest']; [now apply split_on_no_sep|].
  change (join [sep] (p :: q :: rest')) with (p ++ sep :: join [sep] (q :: rest')).
  rewrite split_on_app by exact Hp. f_equal. apply IH. discriminate.
Qed.

Lemma no_struct_join_list parts :
  Forall (fun p => no_struct p = true) parts -> no_struct (join [LIST_SEP] parts) = true.
Proof.
  induction 1 as [|p rest Hp Hrest IH]; [reflexivity|].
  destruct rest as [|q rest']; [exact Hp|].
  change (join [LIST_SEP] (p :: q :: rest')) with (p ++ LIST_SEP :: join [LIST_SEP] (q :: rest')).
  rewrite no_struct_app, Hp. exact IH.
Qed.

Lemma starts_with_no_struct s : no_struct s = true -> starts_with NEST_OPEN s = false.
Proof.
  destruct s as [|c r]; [reflexivity|]. simpl.
  intros H. apply andb_true_iff in H as [H _]. apply negb_true_iff in H.
  unfold structural in H. apply orb_false_iff in H as [H _].
  apply orb_false_iff in H as [_ H]. exact H.
Qed.

(** *** Flat values *)

(** The text of a flat value that is not omitted is trimmed, free of
    brackets and pair separators, and decodes to the expected value whatever
    the decoder for nested records is. *)
Lemma flat_encoding dec v :
  flat_ok v = true -> is_empty v = false ->
  trimmed (_encode_value v) = true /\
  no_struct (_encode_value v) = true /\
  _decode_value dec (_encode_value v) = Some (back_flat v).
Proof.
  intros Hok Hne. unfold flat_ok in Hok. rewrite Hne in Hok.
  apply orb_true_iff in Hok as [Hs | Hok]; [cbn [orb] in Hs|].
  - destruct (scalar_encoding v Hs) as ((Ht & Hn & Hc) & Hback).
    split; [exact Ht|]. split; [exact Hn|].
    unfold _decode_value.
    destruct (_encode_value v) as [|c r] eqn:E; [discriminate|].
    rewrite starts_with_no_struct by exact Hn. cbn [andb]. rewrite Hc, Hback.
    destruct v; try reflexivity; discriminate.
  - destruct v as [|b|z|x|s|l|d]; try discriminate.
    apply andb_true_iff in Hok as [Hlen Hall]. apply Nat.leb_le in Hlen.
    apply forallb_Forall in Hall.
    assert (Henc : Forall clean (map _encode_value l)).
    { apply Forall_map. eapply Forall_impl; [exact Hall|].
      intros v Hv. simpl. apply (scalar_encoding v Hv). }
    assert (Hparts : map _encode_value l <> []) by (destruct l; [simpl in Hlen; lia | discriminate]).
    assert (Ht : trimmed (join [LIST_SEP] (map _encode_value l)) = true).
    { apply trimmed_join; [exact Hparts|]. eapply Forall_impl; [exact Henc|]. now intros ? (? & _). }
    assert (Hn : no_struct (join [LIST_SEP] (map _encode_value l)) = true).
    { apply no_struct_join_list. eapply Forall_impl; [exact Henc|]. now intros ? (_ & ? & _). }
    cbn [_encode_value]. split; [exact Ht|]. split; [exact Hn|].
    unfold _decode_value.
    destruct (join [LIST_SEP] (map _encode_value l)) as [|c r] eqn:E; [discriminate|].
    rewrite starts_with_no_struct by exact Hn. simpl andb. cbv iota.
    rewrite <- E.
    assert (Hc : contains LIST_SEP (join [LIST_SEP] (map _encode_value l)) = true).
    { destruct l as [|v1 [|v2 l']]; simpl in Hlen; try lia.
      cbn [map]. change (join [LIST_SEP] (?p :: ?q :: ?t)) with (p ++ LIST_SEP :: join [LIST_SEP] (q :: t)).
      apply contains_app_sep. }
    rewrite Hc, split_on_join.
    + simpl. do 2 f_equal. rewrite map_map. apply map_ext_Forall.
      eapply Forall_impl; [exact Hall|]. intros v Hv. simpl. apply (scalar_encoding v Hv).
    + exact Hparts.
    + eapply Forall_impl; [exact Henc|]. now intros ? (_ & _ & ?).
Qed.

End Scalars.

(** ** Codec: pairs and records *)

Section Pairs.

Import Toon.

Lemma key_char_upper c : key_char c = true -> key_char (to_upper c) = true.
Proof. all_chars c. Qed.

Lemma key_char_lower c : key_char c = true -> key_char (to_lower c) = true.
Proof. all_chars c. Qed.

Lemma split_on_chars (P : ascii -> Prop) sep s :
  Forall P s -> Forall (Forall P) (split_on sep s).
Proof.
  induction 1 as [|c r Hc Hr IH]; simpl; [repeat constructor|].
  destruct (ascii_eqb c sep); [constructor; [constructor | exact IH]|].
  destruct (split_on sep r) as [|p ps]; [repeat constructor; exact Hc|].
  inversion IH; subst. constructor; [now constructor | assumption].
Qed.

Lemma capitalize_chars s :
  Forall (fun c => key_char c = true) s -> Forall (fun c => key_char c = true) (capitalize s).
Proof.
  destruct 1 as [|c r Hc Hr]; simpl; [constructor|].
  constructor; [now apply key_char_upper|].
  unfold lower. apply Forall_map. eapply Forall_impl; [exact Hr|].
  intros x Hx. now apply key_char_lower.
Qed.

(** The alias of a key without separators or brackets has none either. *)
Lemma alias_chars key :
  key_ok key = true -> Forall (fun c => key_char c = true) (_snake_to_short_pascal key).
Proof.
  intros H. apply forallb_Forall in H.
  assert (H' : Forall (fun c => key_char c = true) key).
  { eapply Forall_impl; [exact H|]. intros c Hc. simpl in Hc.
    now apply andb_true_iff in Hc as [? _]. }
  unfold _snake_to_short_pascal.
  apply Forall_concat, Forall_map.
  eapply Forall_impl; [apply (split_on_chars _ "_"%char key H')|].
  intros p Hp. simpl.
  destruct (length p <=? 4)%nat; apply capitalize_chars; [exact Hp | now apply Forall_take].
Qed.

Lemma key_char_no_struct s :
  Forall (fun c => key_char c = true) s -> no_struct s = true /\ contains KV_SEP s = false.
Proof.
  intros H. split.
  - apply forallb_Forall. eapply Forall_impl; [exact H|].
    intros c Hc. unfold key_char in Hc. apply negb_true_iff, orb_false_iff in Hc as [-> _].
    reflexivity.
  - apply contains_false. eapply Forall_impl; [exact H|].
    intros c Hc. unfold key_char in Hc. now apply negb_true_iff, orb_false_iff in Hc as [_ ->].
Qed.

Lemma partition_kv_app k v :
  contains KV_SEP k = false -> partition_kv (k ++ KV_SEP :: v) = Some (k, v).
Proof.
  induction k as [|c r IH]; simpl; [reflexivity|].
  destruct (ascii_eqb c KV_SEP); [discriminate|].
  intros H. now rewrite IH.
Qed.

(** *** The scanner *)

(** Outside of brackets and pair separators the scanner only collects. *)
Lemma split_loop_plain p rest depth cur parts :
  no_struct p = true ->
  split_loop (p ++ rest) depth cur parts = split_loop rest depth (cur ++ p) parts.
Proof.
  revert cur. induction p as [|c r IH]; intros cur H; simpl.
  - now rewrite app_nil_r.
  - simpl in H. apply andb_true_iff in H as [Hc Hr].
    apply negb_true_iff in Hc. unfold structural in Hc.
    apply orb_false_iff in Hc as [Hc Hclose]. apply orb_false_iff in Hc as [Hpipe Hopen].
    rewrite Hopen, Hclose, Hpipe. simpl.
    rewrite IH by exact Hr. now rewrite <- app_assoc.
Qed.

(** Inside a bracket a pair separator does not split. *)
Lemma split_loop_inside p rest depth cur parts :
  no_brackets p = true -> depth <> 0%Z ->
  split_loop (p ++ rest) depth cur parts = split_loop rest depth (cur ++ p) parts.
Proof.
  intros H Hd. revert cur. induction p as [|c r IH]; intros cur; simpl.
  - now rewrite app_nil_r.
  - simpl in H. apply andb_true_iff in H as [Hc Hr].
    apply negb_true_iff, orb_false_iff in Hc as [Hopen Hclose].
    rewrite Hopen, Hclose.
    assert (Hz : (depth =? 0)%Z = false) by now apply Z.eqb_neq.
    rewrite Hz, andb_false_r.
    rewrite IH by exact Hr. now rewrite <- app_assoc.
Qed.

Lemma split_loop_segments ps acc :
  Forall segment ps -> split_loop (join [PAIR_SEP] ps) 0 [] acc = acc ++ ps.
Proof.
  intros H. revert acc. induction H as [|p rest [Hne Hp] Hrest IH]; intros acc.
  - simpl. now rewrite app_nil_r.
  - destruct rest as [|q rest'].
    + simpl. rewrite <- (app_nil_r p) at 1. rewrite Hp. simpl.
      destruct p; [congruence | reflexivity].
    + change (join [PAIR_SEP] (p :: q :: rest')) with (p ++ PAIR_SEP :: join [PAIR_SEP] (q :: rest')).
      rewrite Hp. cbn [split_loop app]. simpl ascii_eqb. cbn [andb Z.eqb].
      rewrite IH. now rewrite <- app_assoc.
Qed.

Lemma segment_plain p : p <> [] -> no_struct p = true -> segment p.
Proof.
  intros Hne H. split; [exact Hne|]. intros. now apply split_loop_plain.
Qed.

Lemma no_struct_no_brackets s : no_struct s = true -> no_brackets s = true.
Proof.
  unfold no_struct, no_brackets. rewrite !forallb_Forall.
  intros H. eapply Forall_impl; [exact H|]. intros c Hc. simpl in *.
  apply negb_true_iff in Hc. unfold structural in Hc.
  apply orb_false_iff in Hc as [Hc ->]. apply orb_false_iff in Hc as [_ ->]. reflexivity.
Qed.

Lemma crosses_no_brackets p : no_brackets p = true -> crosses p.
Proof.
  intros H depth rest cur parts Hd. apply split_loop_inside; [exact H | lia].
Qed.

Lemma crosses_app a b : crosses a -> crosses b -> crosses (a ++ b).
Proof.
  intros Ha Hb depth rest cur parts Hd.
  rewrite <- app_assoc, Ha, Hb by exact Hd. now rewrite app_assoc.
Qed.

(** A bracketed text is crossed when the text inside is. *)
Lemma crosses_bracket inner : crosses inner -> crosses (NEST_OPEN :: inner ++ [NEST_CLOSE]).
Proof.
  intros Hi depth rest cur parts Hd.
  cbn [app split_loop]. simpl ascii_eqb. cbv iota.
  rewrite <- app_assoc, Hi by lia.
  cbn [app split_loop]. simpl ascii_eqb. cbv iota.
  replace (depth + 1 - 1)%Z with depth by lia.
  f_equal. rewrite <- !app_assoc. reflexivity.
Qed.

Lemma crosses_join parts :
  Forall crosses parts -> crosses (join [PAIR_SEP] parts).
Proof.
  induction 1 as [|p rest Hp Hrest IH]; [now apply crosses_no_brackets|].
  destruct rest as [|q rest']; [exact Hp|].
  change (join [PAIR_SEP] (p :: q :: rest')) with (p ++ [PAIR_SEP] ++ join [PAIR_SEP] (q :: rest')).
  apply crosses_app; [exact Hp|].
  apply crosses_app; [now apply crosses_no_brackets | exact IH].
Qed.

(** A pair whose value is a bracketed text that the scanner crosses. *)
Lemma segment_nested k inner :
  no_struct k = true -> crosses inner ->
  segment (k ++ KV_SEP :: NEST_OPEN :: inner ++ [NEST_CLOSE]).
Proof.
  intros Hk Hi. split; [destruct k; discriminate|].
  intros rest cur parts.
  rewrite <- app_assoc. rewrite split_loop_plain by exact Hk.
  cbn [app split_loop]. simpl ascii_eqb. cbn [andb].
  rewrite <- !app_assoc.
  rewrite Hi by lia.
  cbn [app split_loop]. simpl ascii_eqb. cbn [andb].
  f_equal. rewrite <- !app_assoc. reflexivity.
Qed.

(** *** Writing into the result *)

Lemma dict_set_fresh key v d :
  ~ In key (map fst d) -> dict_set key v d = d ++ [(key, v)].
Proof.
  induction d as [|[k' v'] r IH]; simpl; [reflexivity|].
  intros H. rewrite bool_decide_eq_false_2 by (intros ->; apply H; now left).
  rewrite IH; [reflexivity|]. intros Hin. apply H. now right.
Qed.

End Pairs.
(** ** Codec: the round trip *)

Section RoundTrip.

Import Toon.

Lemma encode_parts_kept d : encode_parts true d = map pair_text (kept d).
Proof.
  induction d as [|[k v] r IH]; [reflexivity|].
  cbn [encode_parts kept List.filter snd]. destruct (is_empty v); simpl; [exact IH|].
  now rewrite IH.
Qed.

Lemma encode_value_dict d :
  _encode_value (VDict d) = NEST_OPEN :: encode_dict true d ++ [NEST_CLOSE].
Proof.
  unfold encode_dict. cbn [_encode_value]. do 3 f_equal.
  induction d as [|[k v] r IH]; [reflexivity|].
  cbn [encode_parts]. destruct (is_empty v); [exact IH|]. now rewrite IH.
Qed.

Lemma kept_not_empty d kv : In kv (kept d) -> In kv d /\ is_empty (snd kv) = false.
Proof.
  unfold kept. rewrite filter_In, negb_true_iff. auto.
Qed.

Lemma no_struct_cons c s : no_struct (c :: s) = negb (structural c) && no_struct s.
Proof. reflexivity. Qed.

(** *** When encoding returns *)

Lemma height_dict d :
  height (VDict d) = S (list_max (map (fun kv => height (snd kv)) (kept d))).
Proof.
  cbn [height]. f_equal.
  induction d as [|[k v] r IH]; [reflexivity|].
  cbn [kept List.filter snd]. destruct (is_empty v); cbn [negb]; [exact IH|].
  cbn [map list_max fold_right snd]. now rewrite IH.
Qed.

Lemma printable_dict d :
  printable (VDict d) = forallb (fun kv => printable (snd kv)) (kept d).
Proof.
  cbn [printable].
  induction d as [|[k v] r IH]; [reflexivity|].
  cbn [kept List.filter snd]. destruct (is_empty v) eqn:E; cbn [negb orb andb].
  - exact IH.
  - cbn [forallb snd]. now rewrite IH.
Qed.

Lemma height_pos v : (1 <= height v)%nat.
Proof. destruct v; simpl; lia. Qed.

Lemma mapM_if {A B} (P : A -> bool) (g : A -> B) (f : A -> option B) (l : list A) :
  (forall x, f x = if P x then Some (g x) else None) ->
  mapM f l = if forallb P l then Some (map g l) else None.
Proof.
  intros Hf. induction l as [|x r IH]; [reflexivity|].
  cbn [mapM forallb map]. rewrite Hf, IH.
  destruct (P x); [|reflexivity]. destruct (forallb P r); reflexivity.
Qed.

Lemma forallb_height {A} (h : A -> nat) (p : A -> bool) (n : nat) (l : list A) :
  forallb (fun x => (h x <=? n)%nat && p x) l =
    (list_max (map h l) <=? n)%nat && forallb p l.
Proof.
  induction l as [|x r IH]; [reflexivity|].
  cbn [forallb map list_max fold_right]. rewrite IH.
  change (fold_right Nat.max 0%nat (map h r)) with (list_max (map h r)).
  destruct (h x <=? n)%nat eqn:E1, (list_max (map h r) <=? n)%nat eqn:E2;
    rewrite ?Nat.leb_le, ?Nat.leb_gt in *; cbn [andb].
  - rewrite (proj2 (Nat.leb_le _ _)) by lia. reflexivity.
  - rewrite (proj2 (Nat.leb_gt _ _)) by lia. now rewrite andb_false_r.
  - rewrite (proj2 (Nat.leb_gt _ _)) by lia. reflexivity.
  - rewrite (proj2 (Nat.leb_gt _ _)) by lia. reflexivity.
Qed.

(** [_encode_value] returns its text when the value is no higher than the
    room on the stack and every [int] in it can be printed, and raises
    otherwise. *)
Lemma encode_value_within_spec room v :
  _encode_value_within room v =
    if (height v <=? room)%nat && printable v then Some (_encode_value v) else None.
Proof.
  revert v. induction room as [|n IH]; intros v.
  - cbn [_encode_value_within]. pose proof (height_pos v).
    rewrite (proj2 (Nat.leb_gt _ _)) by lia. reflexivity.
  - destruct v as [|b|z|x|s|l|d]; cbn [_encode_value_within]; try reflexivity.
    + rewrite (mapM_if (fun x => (height x <=? n)%nat && printable x) _encode_value) by exact IH.
      rewrite forallb_height. cbn [height printable].
      change (S (list_max (map height l)) <=? S n)%nat with (list_max (map height l) <=? n)%nat.
      destruct ((list_max (map height l) <=? n)%nat && forallb printable l); reflexivity.
    + rewrite (mapM_if (fun kv => (height (snd kv) <=? n)%nat && printable (snd kv)) pair_text).
      * rewrite (forallb_height (fun kv => height (snd kv)) (fun kv => printable (snd kv))).
        rewrite height_dict, printable_dict, encode_value_dict.
        unfold encode_dict. rewrite encode_parts_kept.
        change (S ?a <=? S n)%nat with (a <=? n)%nat.
        destruct ((list_max (map (fun kv => height (snd kv)) (kept d)) <=? n)%nat &&
                  forallb (fun kv => printable (snd kv)) (kept d)); reflexivity.
      * intros kv. rewrite IH.
        destruct ((height (snd kv) <=? n)%nat && printable (snd kv)); reflexivity.
Qed.

Lemma encode_dict_within_spec room r :
  encode_dict_within room true r =
    if (height (VDict r) <=? S room)%nat && printable (VDict r)
    then Some (encode_dict true r) else None.
Proof.
  unfold encode_dict_within.
  rewrite (mapM_if (fun kv => (height (snd kv) <=? room)%nat && printable (snd kv)) pair_text).
  - rewrite (forallb_height (fun kv => height (snd kv)) (fun kv => printable (snd kv))).
    rewrite height_dict, printable_dict.
    unfold encode_dict. rewrite encode_parts_kept.
    change (S ?a <=? S room)%nat with (a <=? room)%nat.
    destruct ((list_max (map (fun kv => height (snd kv)) (kept r)) <=? room)%nat &&
              forallb (fun kv => printable (snd kv)) (kept r)); reflexivity.
  - intros kv. rewrite encode_value_within_spec.
    destruct ((height (snd kv) <=? room)%nat && printable (snd kv)); reflexivity.
Qed.

(** [encode] returns the text of the record under the same conditions. *)
Lemma encode_spec room r :
  encode room r =
    if (height (VDict r) <=? room)%nat && printable (VDict r)
    then Some (encode_dict true r) else None.
Proof.
  destruct room as [|n]; [|apply encode_dict_within_spec].
  cbn [encode]. pose proof (height_pos (VDict r)).
  rewrite (proj2 (Nat.leb_gt _ _)) by lia. reflexivity.
Qed.

Lemma encode_Some room r text :
  encode room r = Some text ->
  text = encode_dict true r /\ (height (VDict r) <= room)%nat /\ printable (VDict r) = true.
Proof.
  rewrite encode_spec.
  destruct (height (VDict r) <=? room)%nat eqn:E; [|discriminate].
  destruct (printable (VDict r)); [|discriminate].
  intros [= <-]. apply Nat.leb_le in E. auto.
Qed.

(** *** One pair *)

Lemma lstrip_Forall (P : ascii -> Prop) s : Forall P s -> Forall P (lstrip s).
Proof.
  induction 1 as [|c r Hc Hr IH]; simpl; [constructor|].
  destruct (is_space c); [exact IH | now constructor].
Qed.

Lemma strip_Forall (P : ascii -> Prop) s : Forall P s -> Forall P (strip s).
Proof.
  intros H. unfold strip, rstrip.
  apply Forall_rev, lstrip_Forall, Forall_rev, lstrip_Forall, H.
Qed.

Lemma no_struct_strip s : no_struct s = true -> no_struct (strip s) = true.
Proof.
  unfold no_struct. rewrite !forallb_Forall. apply strip_Forall.
Qed.

(** A text without brackets is read without the decoder for nested
    records. *)
Lemma decode_value_quiet dec raw :
  no_struct raw = true ->
  _decode_value dec raw = Some (default VNone (_decode_value (fun _ => None) raw)).
Proof.
  intros H. unfold _decode_value. destruct raw as [|c r]; [reflexivity|].
  rewrite starts_with_no_struct by exact H. cbn [andb].
  destruct (contains LIST_SEP (c :: r)); reflexivity.
Qed.

Lemma decode_pair_quiet dec result k v :
  key_ok k = true -> quiet v = true ->
  decode_pair dec (Some result) (pair_text (k, v)) =
    Some (dict_set (decoded_key k) (reread v) result).
Proof.
  intros Hk Hv. unfold decode_pair, pair_text. cbn [fst snd].
  destruct (key_char_no_struct _ (alias_chars k Hk)) as [_ Hsep].
  rewrite partition_kv_app by exact Hsep.
  rewrite decode_value_quiet by now apply no_struct_strip.
  reflexivity.
Qed.

Lemma removelast_snoc {A} (l : list A) (x : A) : removelast (l ++ [x]) = l.
Proof. apply removelast_last. Qed.

Lemma decode_pair_nested dec result k d r' :
  key_ok k = true ->
  dec (encode_dict true d) = Some r' ->
  decode_pair dec (Some result) (pair_text (k, VDict d)) =
    Some (dict_set (decoded_key k) (VDict r') result).
Proof.
  intros Hk Hdec. unfold decode_pair, pair_text. cbn [fst snd].
  destruct (key_char_no_struct _ (alias_chars k Hk)) as [_ Hsep].
  rewrite partition_kv_app by exact Hsep.
  rewrite encode_value_dict.
  assert (Ht : trimmed (NEST_OPEN :: encode_dict true d ++ [NEST_CLOSE]) = true).
  { unfold trimmed.
    change (rev (NEST_OPEN :: encode_dict true d ++ [NEST_CLOSE]))
      with (rev (encode_dict true d ++ [NEST_CLOSE]) ++ [NEST_OPEN]).
    rewrite rev_app_distr. reflexivity. }
  rewrite strip_trimmed by exact Ht.
  unfold _decode_value, ends_with.
  change (rev (NEST_OPEN :: encode_dict true d ++ [NEST_CLOSE]))
    with (rev (encode_dict true d ++ [NEST_CLOSE]) ++ [NEST_OPEN]).
  rewrite rev_app_distr. cbn [starts_with rev app tl]. simpl ascii_eqb. cbn [andb].
  rewrite removelast_snoc, Hdec. reflexivity.
Qed.

(** *** All pairs *)

(** Pairs with distinct fresh keys are appended one after the other. *)
Lemma fold_decode_pairs dec (f : value -> value) (items : record) (acc : record) :
  (forall kv result, In kv items ->
     decode_pair dec (Some result) (pair_text kv) =
       Some (dict_set (decoded_key (fst kv)) (f (snd kv)) result)) ->
  NoDup (map fst acc ++ map (fun kv => decoded_key (fst kv)) items) ->
  fold_left (decode_pair dec) (map pair_text items) (Some acc) =
    Some (acc ++ map (fun kv => (decoded_key (fst kv), f (snd kv))) items).
Proof.
  revert acc. induction items as [|kv rest IH]; intros acc Hdec Hnd.
  - simpl. now rewrite app_nil_r.
  - cbn [map fold_left]. rewrite Hdec by now left.
    rewrite dict_set_fresh.
    + rewrite IH.
      * now rewrite <- app_assoc.
      * intros kv' result Hin. apply Hdec. now right.
      * rewrite map_app. cbn [map fst]. rewrite <- app_assoc. exact Hnd.
    + intros Hin. cbn [map] in Hnd. apply NoDup_app in Hnd as (_ & Hdisj & _).
      apply (Hdisj (decoded_key (fst kv))); [now apply list_elem_of_In | left].
Qed.

Lemma lstrip_keeps c s : In c s -> is_space c = false -> In c (lstrip s).
Proof.
  induction s as [|x r IH]; [intros []|].
  intros Hin Hc. simpl. destruct (is_space x) eqn:Ex; [|exact Hin].
  destruct Hin as [-> | Hin]; [congruence | now apply IH].
Qed.

Lemma strip_keeps c s : In c s -> is_space c = false -> In c (strip s).
Proof.
  intros Hin Hc. unfold strip, rstrip.
  rewrite <- in_rev. apply lstrip_keeps; [|exact Hc].
  rewrite <- in_rev. now apply lstrip_keeps.
Qed.

Lemma pair_text_not_blank kv rest :
  let s := join [PAIR_SEP] (pair_text kv :: rest) in
  is_nil s || is_nil (strip s) = false.
Proof.
  intros s.
  assert (Hin : In KV_SEP s).
  { unfold s. destruct rest; cbn [join]; unfold pair_text;
      rewrite ?in_app_iff; [right; now left | left; right; now left]. }
  pose proof (strip_keeps KV_SEP s Hin eq_refl) as Hs.
  destruct s; [destruct Hin|]. destruct (strip (a :: s)); [destruct Hs | reflexivity].
Qed.

Lemma pair_text_no_struct kv :
  key_ok (fst kv) = true -> quiet (snd kv) = true -> no_struct (pair_text kv) = true.
Proof.
  intros Hk Hv. unfold pair_text. rewrite no_struct_app.
  destruct (key_char_no_struct _ (alias_chars _ Hk)) as [-> _].
  rewrite no_struct_cons. unfold quiet in Hv. rewrite Hv. reflexivity.
Qed.

Lemma pair_text_segment_quiet kv :
  key_ok (fst kv) = true -> quiet (snd kv) = true -> segment (pair_text kv).
Proof.
  intros Hk Hv. apply segment_plain.
  - unfold pair_text. destruct (_snake_to_short_pascal (fst kv)); discriminate.
  - now apply pair_text_no_struct.
Qed.

Lemma quiet_dict d : quiet (VDict d) = false.
Proof. unfold quiet. now rewrite encode_value_dict. Qed.

Lemma legible_dict d :
  legible_value (VDict d) =
    forallb (fun kv => key_ok (fst kv) && legible_value (snd kv)) (kept d) && no_collision d.
Proof.
  cbn [legible_value]. f_equal.
  induction d as [|[k v] r IH]; [reflexivity|].
  cbn [kept List.filter snd]. destruct (is_empty v) eqn:E; cbn [negb orb andb]; [exact IH|].
  cbn [forallb fst snd]. now rewrite IH.
Qed.

Lemma reread_value_dict d : reread_value (VDict d) = VDict (returned d).
Proof.
  unfold returned, back_pairs. cbn [reread_value]. f_equal.
  induction d as [|[k v] r IH]; [reflexivity|].
  cbn [kept List.filter snd]. destruct (is_empty v); cbn [negb]; [exact IH|].
  cbn [map fst snd]. now rewrite IH.
Qed.

(** A value of a legible record that is written is a quiet value or a
    legible record. *)
Lemma legible_value_cases v :
  legible_value v = true -> is_empty v = false ->
  (quiet v = true /\ reread_value v = reread v) \/
  exists d, v = VDict d /\ legible_value (VDict d) = true.
Proof.
  intros H Hne. destruct v as [| | | | | |d]; try (cbn [legible_value] in H; rewrite Hne in H);
    try (left; split; [exact H | reflexivity]).
  right. now exists d.
Qed.

Lemma legible_kept d :
  legible_value (VDict d) = true ->
  Forall (fun kv => key_ok (fst kv) = true /\ legible_value (snd kv) = true /\
                    is_empty (snd kv) = false) (kept d) /\
  NoDup (map (fun kv => decoded_key (fst kv)) (kept d)).
Proof.
  rewrite legible_dict. intros Hok. apply andb_true_iff in Hok as [Hall Hnd].
  apply bool_decide_eq_true in Hnd. split; [|exact Hnd].
  apply List.Forall_forall. intros kv Hin. rewrite forallb_forall in Hall.
  specialize (Hall kv Hin). apply andb_true_iff in Hall as [? ?].
  apply kept_not_empty in Hin as [_ ?]. auto.
Qed.

Lemma kept_height d kv :
  In kv (kept d) -> (height (snd kv) < height (VDict d))%nat.
Proof.
  intros Hin. rewrite height_dict.
  assert (H : (height (snd kv) <= list_max (map (fun kv => height (snd kv)) (kept d)))%nat);
    [|lia].
  pose proof (proj1 (list_max_le (map (fun kv => height (snd kv)) (kept d)) _) (Nat.le_refl _)) as Hall.
  rewrite List.Forall_forall in Hall. apply Hall.
  apply in_map_iff. now exists kv.
Qed.

(** The scanner crosses the text of a legible record inside a bracket. *)
Lemma legible_crosses n d :
  (height (VDict d) <= n)%nat -> legible_value (VDict d) = true ->
  crosses (encode_dict true d).
Proof.
  revert d. induction n as [|n IH]; intros d Hh Hok.
  { pose proof (height_pos (VDict d)). lia. }
  destruct (legible_kept d Hok) as [Hkept _].
  unfold encode_dict. rewrite encode_parts_kept.
  apply crosses_join, Forall_map, List.Forall_forall. intros [k v] Hin.
  pose proof (kept_height d _ Hin) as Hv. cbn [snd] in Hv.
  rewrite List.Forall_forall in Hkept. destruct (Hkept _ Hin) as (Hk & Hlv & Hne).
  cbn [fst snd] in *.
  destruct (legible_value_cases v Hlv Hne) as [[Hq _] | (d' & -> & Hrec)].
  - apply crosses_no_brackets, no_struct_no_brackets.
    now apply (pair_text_no_struct (k, v)).
  - unfold pair_text. cbn [fst snd]. rewrite encode_value_dict.
    apply crosses_app.
    + apply crosses_no_brackets, no_struct_no_brackets.
      now destruct (key_char_no_struct _ (alias_chars _ Hk)).
    + change (KV_SEP :: NEST_OPEN :: encode_dict true d' ++ [NEST_CLOSE])
        with ([KV_SEP] ++ NEST_OPEN :: encode_dict true d' ++ [NEST_CLOSE]).
      apply crosses_app; [now apply crosses_no_brackets|].
      apply crosses_bracket, (IH d'); [lia | exact Hrec].
Qed.

(** Decoding the text of a legible record: the room that writing it took
    is enough, and every pair that was written comes back under its decoded
    key, in order. *)
Lemma decode_encode_legible room d :
  legible_value (VDict d) = true -> (height (VDict d) <= room)%nat ->
  decode room (encode_dict true d) = Some (returned d).
Proof.
  revert d. induction room as [|n IH]; intros d Hok Hh.
  { pose proof (height_pos (VDict d)). lia. }
  destruct (legible_kept d Hok) as [Hkept Hnd].
  assert (Hin' : forall kv, In kv (kept d) -> (height (snd kv) <= n)%nat).
  { intros kv Hin. pose proof (kept_height d kv Hin). lia. }
  unfold encode_dict, returned, back_pairs. rewrite encode_parts_kept.
  cbn [decode].
  destruct (kept d) as [|kv rest] eqn:Ek; [reflexivity|].
  cbn [map]. rewrite pair_text_not_blank.
  unfold _split_respecting_nesting.
  change (pair_text kv :: map pair_text rest) with (map pair_text (kv :: rest)).
  rewrite split_loop_segments.
  - rewrite app_nil_l. rewrite (fold_decode_pairs _ reread_value); [reflexivity| |exact Hnd].
    intros [k v] result Hin. rewrite List.Forall_forall in Hkept.
    destruct (Hkept (k, v) Hin) as (Hk & Hv & Hne). cbn [fst snd] in *.
    destruct (legible_value_cases v Hv Hne) as [[Hq ->] | (d' & -> & Hrec)].
    + now apply decode_pair_quiet.
    + rewrite reread_value_dict. apply decode_pair_nested; [exact Hk|].
      apply IH; [exact Hrec | apply (Hin' _ Hin)].
  - apply Forall_map. eapply Forall_impl; [exact Hkept|].
    intros [k v] (Hk & Hv & Hne). cbn [fst snd] in *.
    destruct (legible_value_cases v Hv Hne) as [[Hq _] | (d' & -> & Hrec)].
    + now apply pair_text_segment_quiet.
    + unfold pair_text. cbn [fst snd]. rewrite encode_value_dict.
      apply segment_nested.
      * now destruct (key_char_no_struct _ (alias_chars _ Hk)).
      * now apply (legible_crosses (height (VDict d'))).
Qed.

(** *** Records that the codec carries faithfully *)

Lemma reread_flat v :
  flat_ok v = true -> is_empty v = false -> quiet v = true /\ reread v = back_flat v.
Proof.
  intros Hv Hne. destruct (flat_encoding (fun _ => None) v Hv Hne) as (Ht & Hn & Hdec).
  split; [exact Hn|]. unfold reread. rewrite strip_trimmed by exact Ht. now rewrite Hdec.
Qed.

Lemma scalar_ok_floats v : scalar_ok v = true -> floats_b64 v = true.
Proof. destruct v as [| | |[| |q]| | |]; try discriminate; auto. Qed.

Lemma flat_ok_floats v : flat_ok v = true -> floats_b64 v = true.
Proof.
  unfold flat_ok. intros H. apply orb_true_iff in H as [H | H].
  - apply orb_true_iff in H as [H | H]; [|now apply scalar_ok_floats].
    destruct v as [| | | |[|]|[|]|[|]]; try discriminate; reflexivity.
  - destruct v as [| | | | |l|]; try discriminate.
    apply andb_true_iff in H as [_ H]. cbn [floats_b64].
    rewrite forallb_forall in *. intros x Hx. apply scalar_ok_floats, H, Hx.
Qed.

Lemma floats_b64_dict d :
  floats_b64 (VDict d) = forallb (fun kv => floats_b64 (snd kv)) d.
Proof.
  cbn [floats_b64]. induction d as [|[k x] r IH]; [reflexivity|].
  cbn [forallb snd]. now rewrite IH.
Qed.

Lemma flat_ok_legible v : flat_ok v = true -> legible_value v = true.
Proof.
  intros Hv. destruct (is_empty v) eqn:E.
  - destruct v as [| | | |[|]|[|]|[|]]; try discriminate; reflexivity.
  - destruct (reread_flat v Hv E) as [Hq _].
    destruct v as [| | | | | |d]; cbn [legible_value]; rewrite ?E, ?Hq; try reflexivity.
    now rewrite quiet_dict in Hq.
Qed.

Lemma flat_record_legible d : flat_record_ok d = true -> legible_value (VDict d) = true.
Proof.
  unfold flat_record_ok. rewrite legible_dict, !andb_true_iff, !forallb_forall.
  intros [Hall Hnd]. split; [|exact Hnd]. intros kv Hin.
  apply kept_not_empty in Hin as [Hin _].
  specialize (Hall kv Hin). apply andb_true_iff in Hall as [Hk Hv].
  rewrite Hk. cbn [andb]. now apply flat_ok_legible.
Qed.

Lemma record_ok_legible r : record_ok r = true -> legible r = true.
Proof.
  unfold record_ok, legible. rewrite legible_dict, !andb_true_iff, !forallb_forall.
  intros [Hall Hnd]. split; [split; [|exact Hnd]|].
  - intros kv Hin. apply kept_not_empty in Hin as [Hin _].
    specialize (Hall kv Hin). apply andb_true_iff in Hall as [Hk Hv].
    rewrite Hk. cbn [andb]. unfold value_ok in Hv.
    apply orb_true_iff in Hv as [Hv | Hv]; [now apply flat_ok_legible|].
    destruct (snd kv) as [| | | | | |d]; try discriminate.
    now apply flat_record_legible.
  - rewrite floats_b64_dict, forallb_forall. intros kv Hin.
    specialize (Hall kv Hin). apply andb_true_iff in Hall as [_ Hv].
    unfold value_ok in Hv. apply orb_true_iff in Hv as [Hv | Hv]; [now apply flat_ok_floats|].
    destruct (snd kv) as [| | | | | |d]; try discriminate.
    rewrite floats_b64_dict, forallb_forall. intros kv' Hin'.
    unfold flat_record_ok in Hv. apply andb_true_iff in Hv as [Hv _].
    rewrite forallb_forall in Hv. specialize (Hv kv' Hin').
    apply andb_true_iff in Hv as [_ Hv]. now apply flat_ok_floats.
Qed.

Lemma back_pairs_ext (f g : value -> value) d :
  (forall kv, In kv d -> is_empty (snd kv) = false -> f (snd kv) = g (snd kv)) ->
  back_pairs f d = back_pairs g d.
Proof.
  intros H. unfold back_pairs. apply map_ext_in. intros kv Hin.
  apply kept_not_empty in Hin as [Hin Hne]. now rewrite H.
Qed.

Lemma back_reread r : record_ok r = true -> back r = returned r.
Proof.
  unfold record_ok. rewrite andb_true_iff, forallb_forall. intros [Hall _].
  unfold back, returned. apply back_pairs_ext. intros kv Hin Hne.
  specialize (Hall kv Hin). apply andb_true_iff in Hall as [_ Hv].
  unfold value_ok in Hv. apply orb_true_iff in Hv as [Hv | Hv].
  - destruct (reread_flat _ Hv Hne) as [Hq E].
    destruct (snd kv) as [| | | | | |d]; try (cbn [reread_value back_value]; now rewrite E).
    now rewrite quiet_dict in Hq.
  - destruct (snd kv) as [| | | | | |d]; try discriminate.
    rewrite reread_value_dict. cbn [back_value]. f_equal. apply back_pairs_ext.
    intros kv' Hin' Hne'. unfold flat_record_ok in Hv. apply andb_true_iff in Hv as [Hv _].
    rewrite forallb_forall in Hv. specialize (Hv kv' Hin').
    apply andb_true_iff in Hv as [_ Hv].
    destruct (reread_flat _ Hv Hne') as [Hq E].
    destruct (snd kv') as [| | | | | |d']; try (cbn [reread_value]; now rewrite E).
    now rewrite quiet_dict in Hq.
Qed.

Lemma scalar_ok_height v : scalar_ok v = true -> height v = 1%nat /\ printable v = true.
Proof. destruct v as [| | |[| |q]| | |]; try discriminate; auto. Qed.

Lemma flat_ok_height v :
  flat_ok v = true -> is_empty v = false -> (height v <= 2)%nat /\ printable v = true.
Proof.
  unfold flat_ok. intros H Hne. rewrite Hne in H. cbn [orb] in H.
  apply orb_true_iff in H as [H | H].
  - destruct (scalar_ok_height v H) as [-> ->]. split; [lia | reflexivity].
  - destruct v as [| | | | |l|]; try discriminate.
    apply andb_true_iff in H as [_ H]. rewrite forallb_forall in H.
    cbn [height printable]. split.
    + assert (Hm : (list_max (map height l) <= 1)%nat); [|lia].
      apply list_max_le, List.Forall_forall. intros n Hn.
      apply in_map_iff in Hn as (x & <- & Hx).
      destruct (scalar_ok_height x (H x Hx)) as [-> _]. lia.
    + apply forallb_forall. intros x Hx. apply (scalar_ok_height x (H x Hx)).
Qed.

Lemma flat_record_height d :
  flat_record_ok d = true -> (height (VDict d) <= 3)%nat /\ printable (VDict d) = true.
Proof.
  unfold flat_record_ok. rewrite andb_true_iff, forallb_forall. intros [Hall _].
  rewrite height_dict, printable_dict. split.
  - assert (Hm : (list_max (map (fun kv => height (snd kv)) (kept d)) <= 2)%nat); [|lia].
    apply list_max_le, List.Forall_forall. intros n Hn.
    apply in_map_iff in Hn as (kv & <- & Hin). apply kept_not_empty in Hin as [Hin Hne].
    specialize (Hall kv Hin). apply andb_true_iff in Hall as [_ Hv].
    apply (flat_ok_height _ Hv Hne).
  - apply forallb_forall. intros kv Hin. apply kept_not_empty in Hin as [Hin Hne].
    specialize (Hall kv Hin). apply andb_true_iff in Hall as [_ Hv].
    apply (flat_ok_height _ Hv Hne).
Qed.

(** A record that the codec carries takes four nested calls of
    [_encode_value] at most, and all its [int]s can be printed. *)
Lemma record_ok_height r :
  record_ok r = true -> (height (VDict r) <= 4)%nat /\ printable (VDict r) = true.
Proof.
  unfold record_ok. rewrite andb_true_iff, forallb_forall. intros [Hall _].
  rewrite height_dict, printable_dict.
  assert (H : forall kv, In kv (kept r) ->
                (height (snd kv) <= 3)%nat /\ printable (snd kv) = true).
  { intros kv Hin. apply kept_not_empty in Hin as [Hin Hne].
    specialize (Hall kv Hin). apply andb_true_iff in Hall as [_ Hv].
    unfold value_ok in Hv. apply orb_true_iff in Hv as [Hv | Hv].
    - destruct (flat_ok_height _ Hv Hne). split; [lia | assumption].
    - destruct (snd kv) as [| | | | | |d]; try discriminate.
      now apply flat_record_height. }
  split.
  - assert (Hm : (list_max (map (fun kv => height (snd kv)) (kept r)) <= 3)%nat); [|lia].
    apply list_max_le, List.Forall_forall. intros n Hn.
    apply in_map_iff in Hn as (kv & <- & Hin). apply (H kv Hin).
  - apply forallb_forall. intros kv Hin. apply (H kv Hin).
Qed.

(** With room for four levels [encode] returns the text of such a
    record. *)
Lemma encode_record_ok room r :
  record_ok r = true -> (4 <= room)%nat -> encode room r = Some (encode_dict true r).
Proof.
  intros Hok Hroom. rewrite encode_spec.
  destruct (record_ok_height r Hok) as [Hh ->].
  rewrite (proj2 (Nat.leb_le _ _)) by lia. reflexivity.
Qed.

(** The round trip of a legible record whose [int]s can be printed. *)
Lemma round_trip_legible room r :
  legible r = true -> (height (VDict r) <= room)%nat -> printable (VDict r) = true ->
  round_trip room r = Some (returned r).
Proof.
  intros Hok Hh Hp. unfold round_trip. rewrite encode_spec, Hp.
  rewrite (proj2 (Nat.leb_le _ _)) by exact Hh. cbn [andb mbind option_bind].
  apply decode_encode_legible; [|exact Hh].
  unfold legible in Hok. now apply andb_true_iff in Hok as [? _].
Qed.

(** The round trip of a record with flat values and one level of nested
    records. *)
Lemma round_trip_record room r :
  record_ok r = true -> (4 <= room)%nat -> round_trip room r = Some (back r).
Proof.
  intros Hok Hroom. rewrite (back_reread r Hok).
  destruct (record_ok_height r Hok) as [Hh Hp].
  apply round_trip_legible; [now apply record_ok_legible | lia | exact Hp].
Qed.

End RoundTrip.
(** ** Codec: when decoding returns *)

Section Total.

Import Toon.

Lemma count_open_app a b : count_open (a ++ b) = (count_open a + count_open b)%nat.
Proof. unfold count_open. now rewrite List.filter_app, length_app. Qed.

Lemma count_open_cons c s :
  count_open (c :: s) = ((if ascii_eqb c NEST_OPEN then 1 else 0) + count_open s)%nat.
Proof. unfold count_open. simpl. destruct (ascii_eqb c NEST_OPEN); reflexivity. Qed.

Lemma count_open_rev s : count_open (rev s) = count_open s.
Proof.
  induction s as [|c r IH]; [reflexivity|].
  cbn [rev]. rewrite count_open_app, IH, !count_open_cons.
  change (count_open []) with 0%nat. lia.
Qed.

(** A part that the scanner returns has no more opening brackets than the
    text it was cut from. *)
Lemma split_loop_opens s depth cur parts p :
  In p (split_loop s depth cur parts) ->
  In p parts \/ (count_open p <= count_open cur + count_open s)%nat.
Proof.
  revert depth cur parts. induction s as [|ch r IH]; intros depth cur parts; cbn [split_loop].
  - destruct cur as [|c cur']; [now left|].
    rewrite in_app_iff. intros [H | [<- | []]]; [now left | right; lia].
  - rewrite (count_open_cons ch r).
    destruct (ascii_eqb ch NEST_OPEN) eqn:Eo;
      [|destruct (ascii_eqb ch NEST_CLOSE);
        [|destruct (ascii_eqb ch PAIR_SEP && (depth =? 0)%Z)]];
      intros H; apply IH in H; rewrite ?in_app_iff, ?count_open_app, ?count_open_cons in H;
      rewrite ?Eo in H; change (count_open []) with 0%nat in H;
      try (destruct H as [H | H]; [now left | right; lia]).
    destruct H as [[H | [<- | []]] | H]; [now left | right; lia | right; lia].
Qed.

Lemma partition_kv_opens pair k v :
  partition_kv pair = Some (k, v) -> (count_open v <= count_open pair)%nat.
Proof.
  revert k. induction pair as [|c r IH]; intros k; simpl; [discriminate|].
  rewrite count_open_cons.
  destruct (ascii_eqb c KV_SEP); [intros [= _ <-]; lia|].
  destruct (partition_kv r) as [[k' v']|]; [|discriminate].
  intros [= _ <-]. specialize (IH k' eq_refl). lia.
Qed.

Lemma lstrip_opens s : (count_open (lstrip s) <= count_open s)%nat.
Proof.
  induction s as [|c r IH]; simpl; [lia|].
  destruct (is_space c); rewrite ?count_open_cons; lia.
Qed.

Lemma strip_opens s : (count_open (strip s) <= count_open s)%nat.
Proof.
  unfold strip, rstrip. rewrite count_open_rev.
  etransitivity; [apply lstrip_opens|]. rewrite count_open_rev. apply lstrip_opens.
Qed.

Lemma removelast_opens s : (count_open (removelast s) <= count_open s)%nat.
Proof.
  induction s as [|c [|d r] IH]; [simpl; lia | rewrite count_open_cons; simpl; lia |].
  change (removelast (c :: d :: r)) with (c :: removelast (d :: r)).
  rewrite (count_open_cons c (d :: r)), (count_open_cons c (removelast (d :: r))). lia.
Qed.

(** With a decoder that answers on every text with fewer opening brackets,
    a value decodes. *)
Lemma decode_value_total dec raw :
  (forall s, (count_open s < count_open raw)%nat -> is_Some (dec s)) ->
  is_Some (_decode_value dec raw).
Proof.
  intros Hdec. unfold _decode_value. destruct raw as [|c r]; [eauto|].
  destruct (starts_with NEST_OPEN (c :: r)) eqn:Es; cbn [andb].
  - destruct (ends_with NEST_CLOSE (c :: r)).
    + destruct (Hdec (removelast (tl (c :: r)))) as [x Hx].
      * cbn [tl]. rewrite count_open_cons. cbn [starts_with] in Es. rewrite Es.
        pose proof (removelast_opens r). lia.
      * rewrite Hx. simpl. eauto.
    + destruct (contains LIST_SEP (c :: r)); eauto.
  - destruct (contains LIST_SEP (c :: r)); eauto.
Qed.

Lemma decode_pair_total dec result pair :
  (forall s, (count_open s < count_open pair)%nat -> is_Some (dec s)) ->
  is_Some (decode_pair dec (Some result) pair).
Proof.
  intros Hdec. unfold decode_pair.
  destruct (partition_kv pair) as [[k v]|] eqn:E; [|eauto].
  apply partition_kv_opens in E.
  destruct (decode_value_total dec (strip v)) as [x Hx].
  - intros s Hs. apply Hdec. pose proof (strip_opens v). lia.
  - rewrite Hx. eauto.
Qed.

Lemma fold_decode_total dec pairs result :
  (forall pair, In pair pairs ->
     forall s, (count_open s < count_open pair)%nat -> is_Some (dec s)) ->
  is_Some (fold_left (decode_pair dec) pairs (Some result)).
Proof.
  revert result. induction pairs as [|p rest IH]; intros result H; [simpl; eauto|].
  cbn [fold_left].
  destruct (decode_pair_total dec result p) as [x Hx]; [apply H; now left|].
  rewrite Hx. apply IH. intros pair Hin. apply H. now right.
Qed.

(** [decode] returns whenever the stack has room for one call more than the
    text has opening brackets. *)
Lemma decode_total room s :
  (count_open s < room)%nat -> is_Some (decode room s).
Proof.
  revert s. induction room as [|n IH]; intros s Hlen; [lia|].
  cbn [decode]. destruct (is_nil s || is_nil (strip s)); [eauto|].
  apply fold_decode_total. intros pair Hin t Ht. apply IH.
  apply split_loop_opens in Hin as [[] | Hin].
  change (count_open []) with 0%nat in Hin. lia.
Qed.

(** *** More room changes nothing *)

Lemma fold_left_none dec pairs : fold_left (decode_pair dec) pairs None = None.
Proof. induction pairs as [|p rest IH]; [reflexivity | exact IH]. Qed.

Lemma decode_value_mono (dec dec' : str -> option record) raw x :
  (forall s d, dec s = Some d -> dec' s = Some d) ->
  _decode_value dec raw = Some x -> _decode_value dec' raw = Some x.
Proof.
  intros Hdec. unfold _decode_value. destruct raw as [|c r]; [auto|].
  destruct (starts_with NEST_OPEN (c :: r) && ends_with NEST_CLOSE (c :: r)); [|auto].
  intros H. apply fmap_Some in H as (d & Hd & ->). now rewrite (Hdec _ d Hd).
Qed.

Lemma fold_decode_mono (dec dec' : str -> option record) pairs acc d :
  (forall s d, dec s = Some d -> dec' s = Some d) ->
  fold_left (decode_pair dec) pairs (Some acc) = Some d ->
  fold_left (decode_pair dec') pairs (Some acc) = Some d.
Proof.
  intros Hdec. revert acc. induction pairs as [|p rest IH]; intros acc; cbn [fold_left]; [auto|].
  unfold decode_pair at 2 4. destruct (partition_kv p) as [[k v]|]; [|apply IH].
  destruct (_decode_value dec (strip v)) as [x|] eqn:E.
  - rewrite (decode_value_mono dec dec' _ x Hdec E). apply IH.
  - rewrite fold_left_none. discriminate.
Qed.

Lemma decode_step room s d : decode room s = Some d -> decode (S room) s = Some d.
Proof.
  revert s d. induction room as [|n IH]; intros s d; [discriminate|].
  change (decode (S (S n)) s) with
    (if is_nil s || is_nil (strip s) then Some []
     else fold_left (decode_pair (decode (S n))) (_split_respecting_nesting s) (Some [])).
  cbn [decode]. destruct (is_nil s || is_nil (strip s)); [auto|].
  apply fold_decode_mono. exact IH.
Qed.

(** The record that [decode] returns does not depend on the room. *)
Lemma decode_mono room room' s d :
  decode room s = Some d -> (room <= room')%nat -> decode room' s = Some d.
Proof.
  intros H Hle. induction Hle as [|m Hle IH]; [exact H|]. now apply decode_step.
Qed.

(** *** Records nested to any depth *)

Lemma split_loop_no_sep s depth cur parts :
  contains PAIR_SEP s = false -> cur ++ s <> [] ->
  split_loop s depth cur parts = parts ++ [cur ++ s].
Proof.
  revert depth cur. induction s as [|ch r IH]; intros depth cur Hc Hne.
  - rewrite app_nil_r in *. simpl. destruct cur; [congruence | reflexivity].
  - cbn [split_loop]. simpl in Hc.
    destruct (ascii_eqb ch PAIR_SEP) eqn:Ep; [discriminate|]. cbn [andb].
    assert (E : cur ++ ch :: r = (cur ++ [ch]) ++ r) by now rewrite <- app_assoc.
    assert (Hne' : (cur ++ [ch]) ++ r <> []) by (destruct cur; discriminate).
    destruct (ascii_eqb ch NEST_OPEN); [|destruct (ascii_eqb ch NEST_CLOSE)];
      rewrite IH by assumption; now rewrite E.
Qed.

Lemma deep_no_sep n : contains PAIR_SEP (deep n) = false.
Proof.
  induction n as [|m IH]; [reflexivity|].
  cbn [deep]. change (lit "A:(" ++ deep m ++ [NEST_CLOSE])
    with ("A"%char :: ":"%char :: "("%char :: deep m ++ [NEST_CLOSE]).
  cbn [contains]. simpl ascii_eqb. cbv iota.
  induction (deep m) as [|c r IHr]; [reflexivity|].
  simpl in IH |- *. destruct (ascii_eqb c PAIR_SEP); [discriminate|]. now apply IHr.
Qed.

Lemma deep_not_blank n : is_nil (deep n) || is_nil (strip (deep n)) = false.
Proof.
  assert (Hin : In KV_SEP (deep n)) by (destruct n; simpl; auto).
  pose proof (strip_keeps KV_SEP (deep n) Hin eq_refl) as Hs.
  destruct (deep n); [destruct Hin|]. destruct (strip (a :: s)); [destruct Hs | reflexivity].
Qed.

Lemma deep_trimmed inner : trimmed (NEST_OPEN :: inner ++ [NEST_CLOSE]) = true.
Proof.
  unfold trimmed.
  change (rev (NEST_OPEN :: inner ++ [NEST_CLOSE])) with (rev (inner ++ [NEST_CLOSE]) ++ [NEST_OPEN]).
  rewrite rev_app_distr. reflexivity.
Qed.

(** One level of [deep] costs one call of the decoder. *)
Lemma decode_deep_step dec m :
  fold_left (decode_pair dec) (_split_respecting_nesting (deep (S m))) (Some []) =
    match dec (deep m) with
    | Some d => Some [(lit "a", VDict d)]
    | None => None
    end.
Proof.
  unfold _split_respecting_nesting.
  rewrite split_loop_no_sep by (try apply deep_no_sep; discriminate).
  cbn [app fold_left]. unfold decode_pair.
  change (deep (S m)) with ("A"%char :: ":"%char :: NEST_OPEN :: deep m ++ [NEST_CLOSE]).
  cbn [partition_kv]. simpl ascii_eqb. cbv iota.
  rewrite strip_trimmed by apply deep_trimmed.
  unfold _decode_value, ends_with.
  change (rev (NEST_OPEN :: deep m ++ [NEST_CLOSE])) with (rev (deep m ++ [NEST_CLOSE]) ++ [NEST_OPEN]).
  rewrite rev_app_distr. cbn [starts_with rev app tl]. simpl ascii_eqb. cbn [andb].
  rewrite removelast_snoc. destruct (dec (deep m)); reflexivity.
Qed.

(** A record nested [n] times is read with [n + 1] calls of [decode] and
    with no fewer. *)
Lemma decode_deep n :
  decode n (deep n) = None /\ decode (S n) (deep n) = Some (deep_record n).
Proof.
  induction n as [|m [IH1 IH2]]; [split; [reflexivity | vm_compute; reflexivity]|].
  split.
  - cbn [decode]. rewrite deep_not_blank, decode_deep_step, IH1. reflexivity.
  - change (decode (S (S m)) (deep (S m))) with
      (if is_nil (deep (S m)) || is_nil (strip (deep (S m))) then Some []
       else fold_left (decode_pair (decode (S m))) (_split_respecting_nesting (deep (S m)))
              (Some [])).
    rewrite deep_not_blank, decode_deep_step, IH2. reflexivity.
Qed.

Lemma balanced_deep n depth rest :
  balanced_from depth (deep n ++ rest) = balanced_from depth rest.
Proof.
  revert depth rest. induction n as [|m IH]; intros depth rest; [reflexivity|].
  change (deep (S m) ++ rest)
    with ("A"%char :: ":"%char :: NEST_OPEN :: (deep m ++ [NEST_CLOSE]) ++ rest).
  rewrite <- app_assoc. cbn [balanced_from]. simpl ascii_eqb. cbv iota.
  rewrite IH. reflexivity.
Qed.

Lemma deep_balanced n : unbalanced (deep n) = false.
Proof.
  unfold unbalanced. rewrite <- (app_nil_r (deep n)), balanced_deep. reflexivity.
Qed.

Lemma with_sep_app a b : with_sep (a ++ b) = with_sep a ++ with_sep b.
Proof. unfold with_sep. now rewrite map_app, concat_app. Qed.

(** The scanner keeps every character: the parts, each followed by a
    separator, spell the text read so far, up to one separator at the
    end. *)
Lemma split_loop_keeps s depth cur parts :
  let all := with_sep parts ++ cur ++ s in
  with_sep (split_loop s depth cur parts) = all \/
  with_sep (split_loop s depth cur parts) = all ++ [PAIR_SEP].
Proof.
  revert depth cur parts. induction s as [|ch r IH]; intros depth cur parts; cbn [split_loop].
  - cbn zeta. rewrite app_nil_r. destruct cur as [|c cur'].
    + left. now rewrite app_nil_r.
    + right. rewrite with_sep_app. unfold with_sep at 2. simpl.
      rewrite app_nil_r, <- app_assoc. reflexivity.
  - cbn zeta.
    assert (Hstep : forall d,
      with_sep (split_loop r d (cur ++ [ch]) parts) = with_sep parts ++ cur ++ ch :: r \/
      with_sep (split_loop r d (cur ++ [ch]) parts) = (with_sep parts ++ cur ++ ch :: r) ++ [PAIR_SEP]).
    { intros d. specialize (IH d (cur ++ [ch]) parts). cbn zeta in IH.
      destruct IH as [IH | IH]; rewrite IH; [left | right];
        rewrite <- ?app_assoc; reflexivity. }
    destruct (ascii_eqb ch NEST_OPEN); [apply Hstep|].
    destruct (ascii_eqb ch NEST_CLOSE); [apply Hstep|].
    destruct (ascii_eqb ch PAIR_SEP && (depth =? 0)%Z) eqn:E; [|apply Hstep].
    apply andb_true_iff in E as [E _]. apply Ascii.eqb_eq in E. subst ch.
    specialize (IH depth [] (parts ++ [cur])). cbn zeta in IH.
    assert (E : with_sep (parts ++ [cur]) ++ [] ++ r = with_sep parts ++ cur ++ PAIR_SEP :: r).
    { rewrite with_sep_app. unfold with_sep at 2. simpl.
      rewrite app_nil_r, <- !app_assoc. reflexivity. }
    rewrite E in IH. exact IH.
Qed.

End Total.
(** ** What [decode] returns *)

Section DecodeShape.

Import Toon.

Lemma decoded_value_dict d :
  decoded_value_ok (VDict d) = forallb (fun kv => decoded_value_ok (snd kv)) d.
Proof.
  induction d as [|[k x] r IH]; [reflexivity|].
  cbn [forallb snd]. rewrite <- IH. reflexivity.
Qed.

Lemma try_numeric_shape s : number_or_text (_try_numeric s) = true.
Proof.
  unfold _try_numeric. destruct (parse_int s); [reflexivity|].
  destruct (parse_float s); reflexivity.
Qed.

Lemma split_on_two sep s :
  contains sep s = true -> (2 <= length (split_on sep s))%nat.
Proof.
  induction s as [|c r IH]; simpl; [discriminate|].
  destruct (ascii_eqb c sep).
  - intros _. destruct r; simpl; [lia|].
    destruct (ascii_eqb a sep); [simpl; lia|]. destruct (split_on sep r); simpl; lia.
  - intros H. specialize (IH H). destruct (split_on sep r); simpl in *; lia.
Qed.

Lemma dict_set_In key v d kv :
  In kv (dict_set key v d) -> kv = (key, v) \/ In kv d.
Proof.
  induction d as [|[k' v'] r IH]; simpl; [intros [<- | []]; now left|].
  destruct (bool_decide (k' = key)).
  - intros [<- | H]; [now left | right; now right].
  - intros [<- | H]; [right; now left|]. destruct (IH H); [now left | right; now right].
Qed.

(** [dict_set] keeps the shape of a record. *)
Lemma shaped_set key v d :
  shaped d -> decoded_value_ok v = true -> shaped (dict_set key v d).
Proof.
  unfold shaped. rewrite !decoded_value_dict, !forallb_forall.
  intros Hv Hval kv Hin.
  apply dict_set_In in Hin as [-> | Hin]; [exact Hval | now apply Hv].
Qed.

Lemma decode_value_shape dec raw x :
  (forall s d, dec s = Some d -> shaped d) ->
  _decode_value dec raw = Some x -> decoded_value_ok x = true.
Proof.
  intros Hdec. unfold _decode_value. destruct raw as [|c r]; [intros [= <-]; auto|].
  destruct (starts_with NEST_OPEN (c :: r) && ends_with NEST_CLOSE (c :: r)).
  - intros H. apply fmap_Some in H as (d & Hd & ->). exact (Hdec _ d Hd).
  - destruct (contains LIST_SEP (c :: r)) eqn:E; intros [= <-].
    + cbn [decoded_value_ok]. rewrite length_map.
      apply andb_true_iff. split.
      * apply Nat.leb_le. exact (split_on_two LIST_SEP (c :: r) E).
      * apply forallb_forall. intros y Hy. apply in_map_iff in Hy as (p & <- & _).
        apply try_numeric_shape.
    + pose proof (try_numeric_shape (c :: r)) as H.
      destruct (_try_numeric (c :: r)); try discriminate; auto.
Qed.

Lemma decode_pair_shape dec acc pair d :
  (forall s d, dec s = Some d -> shaped d) ->
  shaped acc -> decode_pair dec (Some acc) pair = Some d -> shaped d.
Proof.
  intros Hdec Hacc. unfold decode_pair.
  destruct (partition_kv pair) as [[k v]|]; [|now intros [= <-]].
  destruct (_decode_value dec (strip v)) as [x|] eqn:E; [|discriminate].
  intros [= <-]. apply shaped_set; [exact Hacc|].
  exact (decode_value_shape dec _ x Hdec E).
Qed.

Lemma fold_decode_shape dec pairs acc d :
  (forall s d, dec s = Some d -> shaped d) ->
  shaped acc -> fold_left (decode_pair dec) pairs (Some acc) = Some d -> shaped d.
Proof.
  intros Hdec. revert acc. induction pairs as [|p rest IH]; intros acc Hacc; cbn [fold_left].
  - now intros [= <-].
  - destruct (decode_pair dec (Some acc) p) as [acc'|] eqn:E.
    + apply IH. now apply (decode_pair_shape dec acc p).
    + rewrite fold_left_none. discriminate.
Qed.

(** Whatever [decode] returns has the shape of a decoded record. *)
Lemma decode_shape room s d : decode room s = Some d -> shaped d.
Proof.
  revert s d. induction room as [|n IH]; intros s d; [discriminate|].
  cbn [decode]. destruct (is_nil s || is_nil (strip s)).
  - intros [= <-]. reflexivity.
  - apply fold_decode_shape; [exact IH | reflexivity].
Qed.

Lemma shaped_no_boolean d k v : shaped d -> In (k, v) d -> forall b, v <> VBool b.
Proof.
  unfold shaped. rewrite decoded_value_dict, forallb_forall.
  intros H Hin b ->. specialize (H _ Hin). discriminate.
Qed.

(** *** A boolean in a list *)

Lemma split_on_not_nil sep s : split_on sep s <> [].
Proof.
  induction s as [|c r IH]; simpl; [discriminate|].
  destruct (ascii_eqb c sep); [discriminate|]. destruct (split_on sep r); discriminate.
Qed.

(** Splitting at a separator splits both sides of it. *)
Lemma split_on_app_sep sep p r :
  split_on sep (p ++ sep :: r) = split_on sep p ++ split_on sep r.
Proof.
  induction p as [|c p' IH]; cbn [app split_on].
  - unfold ascii_eqb. now rewrite Ascii.eqb_refl.
  - destruct (ascii_eqb c sep); [now rewrite IH|].
    rewrite IH. pose proof (split_on_not_nil sep p') as Hne.
    destruct (split_on sep p') as [|x xs]; [congruence | reflexivity].
Qed.

(** Nothing, or a text that ends with the separator. *)
Definition closed_left (sep : ascii) (pre : str) : Prop :=
  pre = [] \/ exists p, pre = p ++ [sep].

(** Nothing, or a text that begins with the separator. *)
Definition closed_right (sep : ascii) (post : str) : Prop :=
  post = [] \/ exists p, post = sep :: p.

Lemma closed_rev sep post : closed_right sep post -> closed_left sep (rev post).
Proof. intros [-> | [p ->]]; [now left | right; now exists (rev p)]. Qed.

Lemma closed_rev' sep pre : closed_left sep pre -> closed_right sep (rev pre).
Proof.
  intros [-> | [p ->]]; [now left | right]. exists (rev p). now rewrite rev_app_distr.
Qed.

(** A part of a joined text stands between separators. *)
Lemma join_member sep t ts :
  In t ts ->
  exists pre post, join [sep] ts = pre ++ t ++ post /\
                   closed_left sep pre /\ closed_right sep post.
Proof.
  induction ts as [|x rest IH]; [intros []|].
  intros [-> | Hin].
  - exists [], (match rest with [] => [] | _ => sep :: join [sep] rest end).
    destruct rest; cbn [join app].
    + rewrite app_nil_r. split; [reflexivity|]. split; now left.
    + split; [reflexivity|]. split; [now left | right; eauto].
  - destruct (IH Hin) as (pre & post & E & Hpre & Hpost).
    destruct rest as [|q rest']; [destruct Hin|].
    exists (x ++ sep :: pre), post.
    change (join [sep] (x :: q :: rest')) with (x ++ sep :: join [sep] (q :: rest')).
    rewrite E. split; [now rewrite <- app_assoc|]. split; [|exact Hpost].
    right. destruct Hpre as [-> | [p ->]]; [now exists x|].
    exists (x ++ sep :: p). now rewrite <- app_assoc.
Qed.

Lemma lstrip_member sep pre t rest c r :
  is_space sep = false -> t = c :: r -> is_space c = false -> closed_left sep pre ->
  exists pre', lstrip (pre ++ t ++ rest) = pre' ++ t ++ rest /\ closed_left sep pre'.
Proof.
  intros Hsep -> Hc. induction pre as [|x pre1 IH]; intros Hpre.
  - exists []. split; [|now left]. cbn [app lstrip]. now rewrite Hc.
  - cbn [app lstrip]. destruct (is_space x) eqn:Ex.
    + apply IH. destruct Hpre as [? | [p E]]; [discriminate|].
      destruct p as [|y p']; cbn [app] in E; injection E as -> E.
      * congruence.
      * right. now exists p'.
    + exists (x :: pre1). split; [reflexivity | exact Hpre].
Qed.

Lemma strip_member sep pre t post c r d r' :
  is_space sep = false ->
  t = c :: r -> is_space c = false -> rev t = d :: r' -> is_space d = false ->
  closed_left sep pre -> closed_right sep post ->
  exists pre' post', strip (pre ++ t ++ post) = pre' ++ t ++ post' /\
                     closed_left sep pre' /\ closed_right sep post'.
Proof.
  intros Hsep Et Hc Er Hd Hpre Hpost. unfold strip, rstrip.
  destruct (lstrip_member sep pre t post c r Hsep Et Hc Hpre) as (pre' & -> & Hpre').
  rewrite !rev_app_distr, <- app_assoc.
  destruct (lstrip_member sep (rev post) (rev t) (rev pre') d r' Hsep Er Hd
              (closed_rev sep post Hpost)) as (post' & -> & Hpost').
  exists pre', (rev post'). rewrite !rev_app_distr, !rev_involutive, <- app_assoc.
  split; [reflexivity|]. split; [exact Hpre' | now apply closed_rev'].
Qed.

Lemma split_on_member sep pre t post :
  contains sep t = false -> closed_left sep pre -> closed_right sep post ->
  In t (split_on sep (pre ++ t ++ post)).
Proof.
  intros Ht Hpre Hpost.
  assert (H : In t (split_on sep (t ++ post))).
  { destruct Hpost as [-> | [p ->]].
    - rewrite app_nil_r, split_on_no_sep by exact Ht. now left.
    - rewrite split_on_app by exact Ht. now left. }
  destruct Hpre as [-> | [p ->]]; [exact H|].
  rewrite <- app_assoc. cbn [app]. rewrite split_on_app_sep. apply in_or_app. now right.
Qed.

Lemma contains_app ch a b : contains ch (a ++ b) = contains ch a || contains ch b.
Proof.
  induction a as [|c r IH]; [reflexivity|]. simpl.
  destruct (ascii_eqb c ch); [reflexivity | exact IH].
Qed.

Lemma reread_bool b : reread (VBool b) = VInt (if b then 1 else 0).
Proof. destruct b; vm_compute; reflexivity. Qed.

(** A boolean in a list whose text holds no bracket and no pair separator
    comes back as 1 or 0: as the value itself when the list has no other
    element, and as an element of the list otherwise. *)
Lemma reread_bool_list l b :
  quiet (VList l) = true -> In (VBool b) l ->
  reread (VList l) = VInt (if b then 1 else 0) \/
  exists l', reread (VList l) = VList l' /\ In (VInt (if b then 1 else 0)) l'.
Proof.
  intros Hq Hin. unfold quiet in Hq. unfold reread.
  set (T := _encode_value (VList l)) in *.
  set (t := _encode_value (VBool b)).
  assert (Hnum : _try_numeric t = VInt (if b then 1 else 0)) by (destruct b; vm_compute; reflexivity).
  assert (Hsep : contains LIST_SEP t = false) by now destruct b.
  assert (Ht : exists c, t = [c] /\ is_space c = false) by (destruct b; eexists; split; reflexivity).
  destruct Ht as (c & Et & Hc).
  destruct (join_member LIST_SEP t (map _encode_value l)) as (pre & post & E & Hpre & Hpost).
  { apply in_map_iff. now exists (VBool b). }
  change (join [LIST_SEP] (map _encode_value l)) with T in E.
  destruct (strip_member LIST_SEP pre t post c [] c [] eq_refl Et Hc
              ltac:(now rewrite Et) Hc Hpre Hpost) as (pre' & post' & Es & Hpre' & Hpost').
  rewrite <- E in Es.
  assert (Hn : no_struct (strip T) = true) by now apply no_struct_strip.
  unfold _decode_value.
  destruct (strip T) as [|c0 r0] eqn:ET.
  { exfalso. rewrite Et in Es. destruct pre'; discriminate. }
  rewrite starts_with_no_struct by exact Hn. cbn [andb].
  destruct (contains LIST_SEP (c0 :: r0)) eqn:Ec; cbn [default].
  - right. eexists. split; [reflexivity|].
    rewrite <- Hnum. apply in_map. rewrite Es. now apply split_on_member.
  - left. rewrite Es in Ec. rewrite !contains_app in Ec.
    apply orb_false_iff in Ec as [Ec1 Ec2]. apply orb_false_iff in Ec2 as [_ Ec2].
    assert (pre' = []) as ->.
    { destruct Hpre' as [-> | [p ->]]; [reflexivity|].
      rewrite contains_app_sep in Ec1. discriminate. }
    assert (post' = []) as ->.
    { destruct Hpost' as [-> | [p ->]]; [reflexivity|].
      pose proof (contains_app_sep LIST_SEP [] p) as Hp. cbn [app] in Hp. congruence. }
    rewrite Es, app_nil_r. exact Hnum.
Qed.

End DecodeShape.
(** ** Codec: the claims *)

Section CodecClaims.

Import Toon.

Lemma back_flat_verbatim v : verbatim v = true -> back_flat v = v.
Proof.
  destruct v as [|b|z|x|s|l|d]; try discriminate; try reflexivity.
  simpl. intros H. f_equal. apply forallb_Forall in H.
  induction H as [|y l Hy _ IH]; [reflexivity|]. simpl. rewrite IH.
  destruct y; try discriminate; reflexivity.
Qed.

Lemma back_value_verbatim v : verbatim v = true -> back_value v = v.
Proof.
  intros H. destruct v as [|b|z|x|s|l|d]; try discriminate; now apply back_flat_verbatim.
Qed.

Lemma in_back r f k v :
  In (k, v) r -> is_empty v = false -> In (decoded_key k, f v) (back_pairs f r).
Proof.
  intros Hin Hne. unfold back_pairs.
  apply (in_map (fun kv => (decoded_key (fst kv), f (snd kv))) (kept r) (k, v)).
  unfold kept. apply filter_In. split; [exact Hin|]. simpl. now rewrite Hne.
Qed.

Lemma is_empty_iff v :
  is_empty v = true <-> v = VNone \/ v = VStr [] \/ v = VList [] \/ v = VDict [].
Proof.
  split.
  - destruct v as [|b|z|x|s|l|d]; try discriminate; auto;
      [destruct s | destruct l | destruct d]; try discriminate; auto.
  - intros [-> | [-> | [-> | ->]]]; reflexivity.
Qed.

(** What comes back for the pairs of a legible record, at any depth: a
    boolean as 1 or 0, a list with a boolean as that number or as a list
    with it, a nested record as the record of what comes back for its
    pairs. *)
Lemma returned_pairs d :
  (forall k b, In (k, VBool b) d ->
     In (decoded_key k, VInt (if b then 1 else 0)) (returned d)) /\
  (forall k l b, In (k, VList l) d -> quiet (VList l) = true -> In (VBool b) l ->
     In (decoded_key k, VInt (if b then 1 else 0)) (returned d) \/
     exists l', In (decoded_key k, VList l') (returned d) /\
                In (VInt (if b then 1 else 0)) l') /\
  (forall k d', In (k, VDict d') d -> d' <> [] ->
     In (decoded_key k, VDict (returned d')) (returned d)).
Proof.
  split; [|split].
  - intros k b Hin. pose proof (in_back d reread_value k (VBool b) Hin eq_refl) as H.
    cbn [reread_value] in H. now rewrite reread_bool in H.
  - intros k l b Hin Hq Hb.
    assert (Hne : is_empty (VList l) = false) by (destruct l; [destruct Hb | reflexivity]).
    pose proof (in_back d reread_value k (VList l) Hin Hne) as H.
    cbn [reread_value] in H.
    destruct (reread_bool_list l b Hq Hb) as [E | (l' & E & Hl')]; rewrite E in H.
    + now left.
    + right. now exists l'.
  - intros k d' Hin Hne.
    assert (He : is_empty (VDict d') = false) by (destruct d'; [congruence | reflexivity]).
    pose proof (in_back d reread_value k (VDict d') Hin He) as H.
    now rewrite reread_value_dict in H.
Qed.

(** A list that is written in a legible record is quiet, and a record that
    is written in it is legible. *)
Lemma legible_member d k v :
  legible_value (VDict d) = true -> In (k, v) d -> is_empty v = false ->
  key_ok k = true /\
  match v with
  | VDict d' => legible_value (VDict d') = true
  | _ => quiet v = true
  end.
Proof.
  intros Hok Hin Hne. destruct (legible_kept d Hok) as [Hkept _].
  rewrite List.Forall_forall in Hkept.
  destruct (Hkept (k, v)) as (Hk & Hv & _).
  { unfold kept. apply filter_In. split; [exact Hin|]. simpl. now rewrite Hne. }
  cbn [fst snd] in *. split; [exact Hk|].
  destruct (legible_value_cases v Hv Hne) as [[Hq _] | (d' & -> & Hrec)]; [|exact Hrec].
  destruct v; try exact Hq. now rewrite quiet_dict in Hq.
Qed.

(** C3, as stated, fails: a list with one element comes back as the element,
    a string of digits as a number, and two keys with different aliases can
    still come back as one key, so that one value is lost; whatever the room
    on the stack. *)
Lemma round_trip_loses_values :
  spec_record single_reading = true /\
  spec_record serial_number = true /\
  spec_record colliding_keys = true /\
  (forall room, round_trip (S (S (S room))) colliding_keys = Some [(lit "ab", VInt 2)]) /\
  (forall room, round_trip (S (S (S room))) single_reading = Some [(lit "read", VInt 7)]) /\
  (forall room, round_trip (S (S (S room))) serial_number = Some [(lit "seri", VInt 7)]) /\
  (forall room r', round_trip (S (S (S room))) single_reading = Some r' ->
                   ~ In (VList [VInt 7]) (map snd r')) /\
  (forall room r', round_trip (S (S (S room))) serial_number = Some r' ->
                   ~ In (VStr (lit "007")) (map snd r')).
Proof.
  assert (E1 : forall room,
             round_trip (S (S (S room))) single_reading = Some [(lit "read", VInt 7)])
    by (intros room; vm_compute; reflexivity).
  assert (E2 : forall room,
             round_trip (S (S (S room))) serial_number = Some [(lit "seri", VInt 7)])
    by (intros room; vm_compute; reflexivity).
  split; [reflexivity|]. split; [reflexivity|].
  split; [reflexivity|]. split; [intros room; vm_compute; reflexivity|].
  split; [exact E1|]. split; [exact E2|]. split.
  - intros room r' H. rewrite E1 in H. injection H as <-. simpl. intros [H | []]. discriminate.
  - intros room r' H. rewrite E2 in H. injection H as <-. simpl. intros [H | []]. discriminate.
Qed.

(** C3, amended.  Take a record whose keys are ASCII, hold no separator or
    bracket and give distinct decoded keys, and whose values are integers
    that [str] prints, booleans, binary64 floats, plain texts, lists of two
    or more of these, omitted values, or one level of nested record of such
    values.  With room for four levels on the stack, [encode] returns a text
    and [decode] returns for it, in order and under the decoded keys, every
    value that is not omitted: integers, plain texts and lists of them
    exactly, a boolean as 1 or 0, and a float as the int or the binary64
    float that its four-digit text spells.  That text differs from the float
    by at most half a unit of the fourth digit, and the number that comes
    back by at most one unit; it is finite unless the text is out of the
    range of binary64. *)
Theorem codec_round_trip (room : nat) (r : record) :
  record_ok r = true -> (4 <= room)%nat ->
  encode room r = Some (encode_dict true r) /\
  decode room (encode_dict true r) = Some (back r) /\
  round_trip room r = Some (back r) /\
  map fst (back r) = map (fun kv => decoded_key (fst kv)) (kept r) /\
  (forall k v, In (k, v) r -> verbatim v = true -> is_empty v = false ->
               In (decoded_key k, v) (back r)) /\
  (forall k b, In (k, VBool b) r -> In (decoded_key k, VInt (if b then 1 else 0)) (back r)) /\
  (forall k x, In (k, VFloat x) r -> In (decoded_key k, float_back x) (back r)) /\
  (forall q, is_b64 q = true -> ~ (q == 0)%Q ->
     exists (dec : Q) (m e : Z),
       (1000 <= m <= 9999)%Z /\
       (Qabs dec == inject_Z m * pow10 (e - 3))%Q /\
       (Qabs (q - dec) <= (1 # 2) * pow10 (e - 3))%Q /\
       ((exists z, float_back (FFin q) = VInt z /\ (inject_Z z == dec)%Q) \/
        float_back (FFin q) = VFloat (b64_round dec)) /\
       (forall v, number_value (float_back (FFin q)) = Some v ->
                  (Qabs (q - v) <= pow10 (e - 3))%Q) /\
       ((Qabs dec < pow2 1024 - pow2 970)%Q ->
        exists v, number_value (float_back (FFin q)) = Some v)) /\
  (forall k d, In (k, VDict d) r -> d <> [] ->
               In (decoded_key k, VDict (back_pairs back_flat d)) (back r) /\
               forall k' v, In (k', v) d -> verbatim v = true -> is_empty v = false ->
                            In (decoded_key k', v) (back_pairs back_flat d)).
Proof.
  intros Hok Hroom.
  pose proof (encode_record_ok room r Hok Hroom) as Henc.
  pose proof (round_trip_record room r Hok Hroom) as Hrt.
  split; [exact Henc|]. split.
  { unfold round_trip in Hrt. now rewrite Henc in Hrt. }
  split; [exact Hrt|]. split; [|split; [|split; [|split; [|split]]]].
  - unfold back, back_pairs. rewrite map_map. reflexivity.
  - intros k v Hin Hv Hne. pose proof (in_back r back_value k v Hin Hne) as H.
    now rewrite (back_value_verbatim v Hv) in H.
  - intros k b Hin. apply (in_back r back_value k (VBool b) Hin eq_refl).
  - intros k x Hin. apply (in_back r back_value k (VFloat x) Hin eq_refl).
  - apply float_back_close.
  - intros k d Hin Hd. split.
    + apply (in_back r back_value k (VDict d) Hin). destruct d; [congruence | reflexivity].
    + intros k' v Hin' Hv Hne. pose proof (in_back d back_flat k' v Hin' Hne) as H.
      now rewrite (back_flat_verbatim v Hv) in H.
Qed.

Lemma codec_round_trip_witness :
  round_trip 4 pump_report = Some (back pump_report) /\
  In (lit "oper_hour", VInt 1200) (back pump_report).
Proof.
  assert (H : record_ok pump_report = true) by (vm_compute; reflexivity).
  pose proof (codec_round_trip 4 pump_report H (Nat.le_refl 4)) as (_ & _ & E & _ & Hv & _).
  split; [exact E|].
  apply (Hv (lit "operational_hours") (VInt 1200)); [|reflexivity|reflexivity].
  vm_compute. tauto.
Defined.

(** C4, as stated, fails: a text with an opening bracket that is never
    closed decodes to a record, and so does a text with a closing bracket
    too many, whose first value swallows the next pair. *)
Lemma unbalanced_text_decodes :
  unbalanced (lit "A:(B:1|C:2") = true /\
  (forall room,
     decode (S room) (lit "A:(B:1|C:2") = Some [(lit "a", VStr (lit "(B:1|C:2"))]) /\
  unbalanced (lit "K:a)|L:(b|M:c") = true /\
  (forall room,
     decode (S room) (lit "K:a)|L:(b|M:c") =
       Some [(lit "k", VStr (lit "a)|L:(b")); (lit "m", VStr (lit "c"))]).
Proof.
  split; [reflexivity|]. split; [intros room; vm_compute; reflexivity|].
  split; [reflexivity|]. intros room. vm_compute. reflexivity.
Qed.

(** C4, amended.  [decode] never checks the brackets and has no error of
    its own: it returns a record for every text, with matching brackets or
    not, as long as the stack has room for one call more than the text has
    opening brackets, and the record does not depend on the room.  The one
    exception that escapes is the [RecursionError] of the interpreter, and
    it strikes well-formed text as well: a record nested [room] times is
    read with [room + 1] calls and raises with [room].  The scanner drops no
    character: its parts, each followed by the pair separator, spell the
    text, with at most one separator added at the end. *)
Theorem decode_returns_within_room (room : nat) (s : str) :
  ((count_open s < room)%nat -> exists d, decode room s = Some d) /\
  (forall d room', decode room s = Some d -> (room <= room')%nat ->
                   decode room' s = Some d) /\
  (decode room s = None -> (room <= count_open s)%nat) /\
  unbalanced (deep room) = false /\
  decode room (deep room) = None /\
  decode (S room) (deep room) = Some (deep_record room) /\
  (with_sep (_split_respecting_nesting s) = s \/
   with_sep (_split_respecting_nesting s) = s ++ [PAIR_SEP]).
Proof.
  split; [|split; [|split; [|split; [|split; [|split]]]]].
  - intros H. exact (decode_total room s H).
  - intros d room' H Hle. exact (decode_mono room room' s d H Hle).
  - intros H. destruct (Nat.le_gt_cases room (count_open s)) as [Hle | Hgt]; [exact Hle|].
    destruct (decode_total room s Hgt) as [d Hd]. congruence.
  - apply deep_balanced.
  - apply decode_deep.
  - apply decode_deep.
  - apply (split_loop_keeps s 0 [] []).
Qed.

(** C10, as stated, fails for the record-level consequence: a text value
    with an opening bracket swallows the boolean that follows it. *)
Lemma boolean_swallowed :
  (forall room,
     round_trip (S (S room)) note_and_flag = Some [(lit "note", VStr (lit "(|Flag:1"))]) /\
  forall room r', round_trip (S (S room)) note_and_flag = Some r' ->
                  ~ exists k, In (k, VInt 1) r' \/ In (k, VInt 0) r'.
Proof.
  assert (E : forall room,
            round_trip (S (S room)) note_and_flag = Some [(lit "note", VStr (lit "(|Flag:1"))])
    by (intros room; vm_compute; reflexivity).
  split; [exact E|]. intros room r' H. rewrite E in H. injection H as <-.
  intros (k & [[H | []] | [H | []]]); discriminate.
Qed.

(** C10, amended.  [encode] leaves out exactly the pairs whose value is
    [None], the empty string, the empty list or the empty dict; the integer
    0 and both booleans are written, the booleans as "1" and "0".  When the
    text of the record keeps its framing (the keys that are written are
    ASCII, hold no bracket or separator and come back distinct, and the
    values are texts without bracket and pair separator or records of such
    pairs, nested to any depth), [decode] returns a record without any
    boolean, in which every boolean of the record has come back as 1 or 0
    under its decoded key: at the top, in a list (as the number itself when
    the list has no other element), and in a nested record. *)
Theorem booleans_come_back_as_integers (room : nat) (r : record) (text : str) :
  encode room r = Some text ->
  (forall v, is_empty v = true <-> v = VNone \/ v = VStr [] \/ v = VList [] \/ v = VDict []) /\
  text = join [PAIR_SEP] (map pair_text (kept r)) /\
  is_empty (VInt 0) = false /\
  is_empty (VBool true) = false /\
  is_empty (VBool false) = false /\
  pair_text (lit "flag", VBool true) = lit "Flag:1" /\
  pair_text (lit "flag", VBool false) = lit "Flag:0" /\
  (forall k b, In (k, VBool b) r ->
     In (_snake_to_short_pascal k ++ KV_SEP :: (if b then lit "1" else lit "0"))
        (map pair_text (kept r))) /\
  (legible r = true ->
   decode room text = Some (returned r) /\
   round_trip room r = Some (returned r) /\
   (forall k v, In (k, v) (returned r) -> decoded_value_ok v = true /\ forall b, v <> VBool b) /\
   (forall d k l, legible_value (VDict d) = true -> In (k, VList l) d -> l <> [] ->
                  quiet (VList l) = true) /\
   (forall d k d', legible_value (VDict d) = true -> In (k, VDict d') d -> d' <> [] ->
                   legible_value (VDict d') = true) /\
   forall d,
     (forall k b, In (k, VBool b) d ->
        In (decoded_key k, VInt (if b then 1 else 0)) (returned d)) /\
     (forall k l b, In (k, VList l) d -> quiet (VList l) = true -> In (VBool b) l ->
        In (decoded_key k, VInt (if b then 1 else 0)) (returned d) \/
        exists l', In (decoded_key k, VList l') (returned d) /\
                   In (VInt (if b then 1 else 0)) l') /\
     (forall k d', In (k, VDict d') d -> d' <> [] ->
        In (decoded_key k, VDict (returned d')) (returned d))).
Proof.
  intros Henc. destruct (encode_Some room r text Henc) as (-> & Hh & Hp).
  split; [apply is_empty_iff|].
  split; [unfold encode_dict; now rewrite encode_parts_kept|].
  split; [reflexivity|]. split; [reflexivity|]. split; [reflexivity|].
  split; [reflexivity|]. split; [reflexivity|]. split.
  { intros k b Hin. apply (in_map pair_text (kept r) (k, VBool b)).
    unfold kept. apply filter_In. split; [exact Hin | reflexivity]. }
  intros Hok.
  assert (Hleg : legible_value (VDict r) = true).
  { unfold legible in Hok. now apply andb_true_iff in Hok as [? _]. }
  pose proof (decode_encode_legible room r Hleg Hh) as Hdec.
  split; [exact Hdec|]. split; [now apply round_trip_legible|]. split; [|split; [|split]].
  - intros k v Hin. pose proof (decode_shape _ _ _ Hdec) as Hs. split.
    + unfold shaped in Hs. rewrite decoded_value_dict, forallb_forall in Hs.
      apply (Hs (k, v) Hin).
    + exact (shaped_no_boolean _ k v Hs Hin).
  - intros d k l Hd Hin Hne.
    apply (legible_member d k (VList l) Hd Hin). destruct l; [congruence | reflexivity].
  - intros d k d' Hd Hin Hne.
    apply (legible_member d k (VDict d') Hd Hin). destruct d'; [congruence | reflexivity].
  - apply returned_pairs.
Qed.

Lemma booleans_come_back_as_integers_witness :
  In (decoded_key (lit "is_running"), VInt 1) (returned pump_report) /\
  decode 4 (encode_dict true pump_report) = Some (returned pump_report).
Proof.
  assert (H : encode 4 pump_report = Some (encode_dict true pump_report))
    by (vm_compute; reflexivity).
  assert (Hok : legible pump_report = true) by (vm_compute; reflexivity).
  pose proof (booleans_come_back_as_integers 4 pump_report _ H)
    as (_ & _ & _ & _ & _ & _ & _ & _ & Hback).
  destruct (Hback Hok) as (Hdec & _ & _ & _ & _ & Hall).
  split; [|exact Hdec].
  apply (proj1 (Hall pump_report) (lit "is_running") true). vm_compute. tauto.
Defined.

End CodecClaims.

(** ** The calculator toolkit *)

Section ToolFacts.

Import Tools.

(** Rounding to the nearest integer never crosses an integer. *)
Lemma round_half_even_le_int (y : Q) (m : Z) :
  y <= inject_Z m -> (round_half_even y <= m)%Z.
Proof.
  destruct y as [n d]. unfold Qle, inject_Z, round_half_even. cbn [Qnum Qden].
  intros H.
  pose proof (Z.div_mod n (Z.pos d) ltac:(lia)) as Hdm.
  pose proof (Z.mod_pos_bound n (Z.pos d) ltac:(lia)) as Hr.
  set (fl := (n / Z.pos d)%Z) in *. set (r := (n mod Z.pos d)%Z) in *.
  assert (Hfl : (fl <= m)%Z) by nia.
  destruct (Z.eq_dec fl m) as [E|E].
  - assert (r = 0)%Z by nia.
    destruct (2 * r <? Z.pos d)%Z eqn:E1; [lia|]. apply Z.ltb_ge in E1. lia.
  - repeat match goal with |- context [if ?c then _ else _] => destruct c end; lia.
Qed.

Lemma round_half_even_ge_int (y : Q) (m : Z) :
  inject_Z m <= y -> (m <= round_half_even y)%Z.
Proof.
  destruct y as [n d]. unfold Qle, inject_Z, round_half_even. cbn [Qnum Qden].
  intros H.
  pose proof (Z.div_mod n (Z.pos d) ltac:(lia)) as Hdm.
  pose proof (Z.mod_pos_bound n (Z.pos d) ltac:(lia)) as Hr.
  set (fl := (n / Z.pos d)%Z) in *. set (r := (n mod Z.pos d)%Z) in *.
  assert (Hfl : (m <= fl)%Z) by nia.
  repeat match goal with |- context [if ?c then _ else _] => destruct c end; lia.
Qed.

Lemma scale_pos (n : nat) : 0 < inject_Z (10 ^ Z.of_nat n).
Proof.
  change 0 with (inject_Z 0). rewrite <- Zlt_Qlt. apply Z.pow_pos_nonneg; lia.
Qed.

(** [round(x, n)] stays on the same side of an integer as [x]. *)
Lemma py_round_le (n : nat) (x : Q) (k : Z) : x <= inject_Z k -> py_round n x <= inject_Z k.
Proof.
  intros H. unfold py_round. pose proof (scale_pos n) as Hp.
  apply Qle_shift_div_r; [exact Hp|].
  rewrite <- inject_Z_mult, <- Zle_Qle. apply round_half_even_le_int.
  rewrite inject_Z_mult. apply Qmult_le_compat_r; [exact H | lra].
Qed.

Lemma py_round_ge (n : nat) (x : Q) (k : Z) : inject_Z k <= x -> inject_Z k <= py_round n x.
Proof.
  intros H. unfold py_round. pose proof (scale_pos n) as Hp.
  apply Qle_shift_div_l; [exact Hp|].
  rewrite <- inject_Z_mult, <- Zle_Qle. apply round_half_even_ge_int.
  rewrite inject_Z_mult. apply Qmult_le_compat_r; [exact H | lra].
Qed.

(** The rounded value is within half a unit of the last kept decimal. *)
Lemma py_round_close (n : nat) (x : Q) :
  Qabs (py_round n x - x) <= (1 # 2) / inject_Z (10 ^ Z.of_nat n).
Proof.
  unfold py_round. pose proof (scale_pos n) as Hp.
  set (P := inject_Z (10 ^ Z.of_nat n)) in *.
  destruct (round_half_even_close (x * P)) as [Hlo Hhi].
  set (r := inject_Z (round_half_even (x * P))) in *.
  assert (E : r / P - x == (r - x * P) / P) by (field; lra).
  rewrite E. apply Qabs_Qle_condition. split.
  - apply Qle_shift_div_l; [exact Hp|].
    assert (E2 : - ((1 # 2) / P) * P == - (1 # 2)) by (field; lra).
    rewrite E2. lra.
  - apply Qle_shift_div_r; [exact Hp|].
    assert (E2 : (1 # 2) / P * P == 1 # 2) by (field; lra).
    rewrite E2. lra.
Qed.

Lemma py_min_le_l a b : py_min a b <= a.
Proof.
  unfold py_min. destruct (Qle_bool a b) eqn:E; [lra|].
  apply Qle_bool_false in E. lra.
Qed.

Lemma ratio_ge_one (e i : Z) : (0 < i)%Z -> (i <= e)%Z -> 1 <= inject_Z e / inject_Z i.
Proof.
  intros Hi He. apply Qle_shift_div_l.
  - change 0 with (inject_Z 0). now rewrite <- Zlt_Qlt.
  - rewrite Qmult_1_l. now rewrite <- Zle_Qle.
Qed.

Lemma ratio_nonneg (e i : Z) : (0 < i)%Z -> (0 <= e)%Z -> 0 <= inject_Z e / inject_Z i.
Proof.
  intros Hi He. apply Qle_shift_div_l.
  - change 0 with (inject_Z 0). now rewrite <- Zlt_Qlt.
  - rewrite Qmult_0_l. change 0 with (inject_Z 0). now rewrite <- Zle_Qle.
Qed.

(** X1.  The service-gap tool is consistent with itself: a task is overdue
    exactly when no hours remain; otherwise the remaining hours are the
    interval minus the hours run since the last service; the share of life
    used never exceeds 1, is exactly 1 for an overdue task with a positive
    interval, is not negative when the meter has not run backwards, and is
    0 when the interval is not positive. *)
Theorem service_gap_consistent (cur last interval : Z) :
  let g := calculate_service_gap cur last interval in
  (is_overdue g = true <-> hours_remaining g = 0%Z) /\
  (is_overdue g = false ->
     hours_remaining g = (interval - (cur - last))%Z /\ (0 < hours_remaining g)%Z) /\
  (0 <= hours_remaining g)%Z /\
  percentage_of_life_used g <= 1 /\
  ((0 < interval)%Z -> is_overdue g = true -> percentage_of_life_used g == 1) /\
  ((0 < interval)%Z -> (last <= cur)%Z -> 0 <= percentage_of_life_used g) /\
  ((interval <= 0)%Z -> percentage_of_life_used g == 0).
Proof.
  cbn zeta. unfold calculate_service_gap. cbn [hours_remaining is_overdue percentage_of_life_used].
  split; [|split; [|split; [|split; [|split; [|split]]]]].
  - rewrite Z.leb_le. lia.
  - rewrite Z.leb_gt. lia.
  - lia.
  - apply (py_round_le 3 _ 1). destruct (0 <? interval)%Z; [apply py_min_le_l | discriminate].
  - intros Hi Ho. apply Z.leb_le in Ho. apply Z.ltb_lt in Hi as Hi'. rewrite Hi'.
    unfold py_min. pose proof (ratio_ge_one _ _ Hi Ho) as H1.
    apply Qle_bool_iff in H1. rewrite H1. reflexivity.
  - intros Hi Hc. apply Z.ltb_lt in Hi as Hi'. rewrite Hi'.
    apply (py_round_ge 3 _ 0). unfold py_min.
    destruct (Qle_bool 1 _); [discriminate | apply ratio_nonneg; lia].
  - intros Hi. apply Z.ltb_ge in Hi. rewrite Hi. reflexivity.
Qed.

Lemma service_gap_consistent_witness :
  hours_remaining (calculate_service_gap 1200 700 500) = 0%Z /\
  percentage_of_life_used (calculate_service_gap 1200 700 500) == 1 /\
  hours_remaining (calculate_service_gap 1100 700 500) = 100%Z.
Proof.
  pose proof (service_gap_consistent 1200 700 500) as (H1 & _ & _ & _ & H2 & _).
  pose proof (service_gap_consistent 1100 700 500) as (_ & H3 & _).
  split; [apply H1; reflexivity|]. split; [apply H2; [lia | reflexivity]|].
  apply H3. reflexivity.
Defined.

(** X2.  The tool and the compliance stage draw the line differently: what
    the stage records as overdue the tool calls overdue too, with no hours
    remaining; the two differ exactly at the boundary, where the hours run
    since the last service equal the interval: the tool says overdue, the
    stage records nothing. *)
Theorem service_gap_tool_vs_node (db : ServiceAge.Database) (pump task : str) (cur interval : Z) :
  let last := ServiceAge.last_done_of db pump task in
  let g := calculate_service_gap cur last interval in
  let recorded := ServiceAge.check_task db pump cur (task, interval) in
  (forall t, recorded = Some t ->
     is_overdue g = true /\ hours_remaining g = 0%Z /\
     ServiceAge.overdue_hours t = (cur - last - interval)%Z) /\
  (is_overdue g = true /\ recorded = None <-> (cur - last)%Z = interval) /\
  (is_overdue g = false -> recorded = None).
Proof.
  cbn zeta. unfold calculate_service_gap, ServiceAge.check_task.
  cbn [hours_remaining is_overdue].
  set (last := ServiceAge.last_done_of db pump task).
  destruct (0 <? cur - last - interval)%Z eqn:E;
    [apply Z.ltb_lt in E | apply Z.ltb_ge in E].
  - split; [|split].
    + intros t [= <-]. cbn. rewrite Z.leb_le. lia.
    + rewrite Z.leb_le. split; [intros [_ [=]] | lia].
    + rewrite Z.leb_gt. lia.
  - split; [|split].
    + intros t [=].
    + rewrite Z.leb_le. split; [lia | intros <-; split; [lia | reflexivity]].
    + reflexivity.
Qed.

Lemma service_gap_tool_vs_node_witness :
  is_overdue (calculate_service_gap 1200 0 1200) = true /\
  ServiceAge.check_task ServiceAge.sample_db (lit "P-001") 1200 (lit "Seal check", 1200%Z) = None.
Proof.
  apply (proj1 (proj2 (service_gap_tool_vs_node ServiceAge.sample_db (lit "P-001")
                         (lit "Seal check") 1200 1200))).
  reflexivity.
Defined.

Lemma to_lower_idem c : Toon.to_lower (Toon.to_lower c) = Toon.to_lower c.
Proof. all_chars c. Qed.

Lemma lower_idem s : Toon.lower (Toon.lower s) = Toon.lower s.
Proof.
  unfold Toon.lower. rewrite map_map. apply map_ext. intros c. apply to_lower_idem.
Qed.

Ltac converter_case E :=
  apply andb_true_iff in E as [?Ea ?Eb];
  apply bool_decide_eq_true in Ea; apply bool_decide_eq_true in Eb.

(** X3.  The conversions that the converter supports come in pairs: when
    it converts from one unit to another it also converts from the second
    to the first, and a pair of units that it refuses is refused the other
    way round as well, whatever the values. *)
Theorem unit_converter_pairs (v w : Q) (f t : str) :
  (forall r, unit_converter v f t = Converted r ->
     exists r', unit_converter w t f = Converted r') /\
  (forall e, unit_converter v f t = Unsupported e ->
     exists e', unit_converter w t f = Unsupported e').
Proof.
  unfold unit_converter. cbv zeta.
  generalize (Toon.lower f) (Toon.lower t). intros a b.
  assert (D : forall x y : string, {a = lit x /\ b = lit y} + {~ (a = lit x /\ b = lit y)}).
  { intros x y. destruct (decide (a = lit x)) as [?|?], (decide (b = lit y)) as [?|?];
      [left; auto | right; tauto ..]. }
  assert (B : forall x y : string,
             bool_decide (a = lit x) && bool_decide (b = lit y) = true <->
             a = lit x /\ b = lit y).
  { intros x y. rewrite andb_true_iff, !bool_decide_eq_true. reflexivity. }
  destruct (D "c" "f") as [[-> ->]|N1]; [split; intros ? [=]; eexists; reflexivity|].
  destruct (D "celsius" "fahrenheit") as [[-> ->]|N2]; [split; intros ? [=]; eexists; reflexivity|].
  destruct (D "f" "c") as [[-> ->]|N3]; [split; intros ? [=]; eexists; reflexivity|].
  destruct (D "fahrenheit" "celsius") as [[-> ->]|N4]; [split; intros ? [=]; eexists; reflexivity|].
  destruct (D "bar" "psi") as [[-> ->]|N5]; [split; intros ? [=]; eexists; reflexivity|].
  destruct (D "psi" "bar") as [[-> ->]|N6]; [split; intros ? [=]; eexists; reflexivity|].
  destruct (D "days" "hours") as [[-> ->]|N7]; [split; intros ? [=]; eexists; reflexivity|].
  destruct (D "hours" "days") as [[-> ->]|N8]; [split; intros ? [=]; eexists; reflexivity|].
  assert (F : forall x y : string, ~ (a = lit x /\ b = lit y) ->
                bool_decide (a = lit x) && bool_decide (b = lit y) = false).
  { intros x y N. destruct (_ && _) eqn:E; [|reflexivity]. apply B in E. contradiction. }
  assert (F' : forall x y : string, ~ (a = lit x /\ b = lit y) ->
                 bool_decide (b = lit y) && bool_decide (a = lit x) = false).
  { intros x y N. rewrite andb_comm. now apply F. }
  rewrite !F, !F' by assumption. cbn [orb].
  split; intros ? [=]. eexists; reflexivity.
Qed.

(** X4.  The converter compares unit names without regard to case, and it
    has no identity conversion: asking for a unit in terms of itself is
    answered with the error text, for every unit name. *)
Theorem unit_converter_same_unit (v : Q) (f t u : str) :
  unit_converter v f t = unit_converter v (Toon.lower f) (Toon.lower t) /\
  unit_converter v u u =
    Unsupported (lit "Unsupported conversion: " ++ Toon.lower u ++ lit " to " ++ Toon.lower u).
Proof.
  split.
  - unfold unit_converter. now rewrite !lower_idem.
  - unfold unit_converter. cbv zeta. generalize (Toon.lower u). intros a.
    repeat match goal with
    | |- context [bool_decide (a = ?x) && bool_decide (a = ?y)] =>
        let E := fresh "E" in
        destruct (bool_decide (a = x) && bool_decide (a = y)) eqn:E;
        [apply andb_true_iff in E as [Ea Eb];
         apply bool_decide_eq_true in Ea; apply bool_decide_eq_true in Eb;
         rewrite Ea in Eb; discriminate
        | cbn [orb] ]
    end.
    reflexivity.
Qed.

Lemma or_zero_unit (s : option Q) :
  (forall q, s = Some q -> 0 <= q <= 1) -> 0 <= or_zero s <= 1.
Proof.
  intros H. destruct s as [q|]; simpl; [|split; lra].
  destruct (Qeq_bool q 0); [split; lra | now apply H].
Qed.

Lemma or_zero_present (s : option Q) (q : Q) :
  s = Some q -> is_present s = true -> or_zero s = q.
Proof.
  intros -> H. simpl in *. apply negb_true_iff in H. now rewrite H.
Qed.

Lemma py_round_near (n : nat) (X q : Q) :
  X == q -> Qabs (py_round n X - q) <= (1 # 2) / inject_Z (10 ^ Z.of_nat n).
Proof. intros E. rewrite <- E. apply py_round_close. Qed.

Ltac reduce_weights :=
  repeat match goal with
  | |- context [(?n / ?d)] =>
      let v := eval vm_compute in (Qred (n / d)) in
      let E := fresh "E" in
      assert (E : n / d == v) by reflexivity; rewrite !E; clear E
  end.

(** X5.  The risk scaler answers a list that does not have three scores
    with its error text.  For three scores in [0,1] it returns a fused
    score in [0,1] and three weights in [0,1]; a modality that is missing
    (no score, or the score 0) gets weight 0; the weights add up to 1 as
    soon as one modality is present and are all 0 otherwise, with fused
    score 0; and when exactly one modality is present the fused score is
    that modality's score to four decimals. *)
Theorem risk_scaler_bounds (scores : list (option Q)) :
  (length scores <> 3%nat ->
     risk_scaler scores = ScalerError (lit "raw_scores must be [sensor, vision, history]")) /\
  (length scores = 3%nat ->
   (forall q, In (Some q) scores -> 0 <= q <= 1) ->
   exists f ws,
     risk_scaler scores = Fused f ws /\
     0 <= f <= 1 /\
     length ws = 3%nat /\
     Forall (fun w => 0 <= w <= 1) ws /\
     (forall i, is_present (nth i scores None) = false -> nth i ws 0 == 0) /\
     (existsb is_present scores = true -> py_sum ws == 1) /\
     (existsb is_present scores = false -> f = 0 /\ ws = [0; 0; 0]) /\
     (forall i q, nth i scores None = Some q -> is_present (Some q) = true ->
        (forall j, j <> i -> is_present (nth j scores None) = false) ->
        Qabs (f - q) <= 1 # 20000)).
Proof.
  split.
  - intros H. unfold risk_scaler. apply Nat.eqb_neq in H. now rewrite H.
  - intros Hlen Hu. destruct scores as [|a [|b [|c [|]]]]; try discriminate. clear Hlen.
    assert (Ha : 0 <= or_zero a <= 1) by (apply or_zero_unit; intros q ->; apply Hu; simpl; tauto).
    assert (Hb : 0 <= or_zero b <= 1) by (apply or_zero_unit; intros q ->; apply Hu; simpl; tauto).
    assert (Hc : 0 <= or_zero c <= 1) by (apply or_zero_unit; intros q ->; apply Hu; simpl; tauto).
    clear Hu. destruct Ha as [Ha0 Ha1], Hb as [Hb0 Hb1], Hc as [Hc0 Hc1].
    unfold risk_scaler. cbv zeta. cbn [length Nat.eqb negb map existsb].
    destruct (is_present a) eqn:Ea, (is_present b) eqn:Eb, (is_present c) eqn:Ec;
      cbn [existsb id orb negb zip zip_with base_weights map];
      try (unfold py_sum at 1; cbn [fold_left];
           match goal with |- context [Qeq_bool ?t 0] => change (Qeq_bool t 0) with false end);
      (eexists _, _; split; [reflexivity|]);
      (split; [|split; [reflexivity|split; [|split; [|split; [|split]]]]]).
    all: try (intros [=]; fail).
    all: try (intros _; split; reflexivity).
    all: try (intros _; reflexivity).
    all: try (lazymatch goal with |- Forall _ _ => idtac end;
              repeat constructor; vm_compute; discriminate).
    all: try (intros i; destruct i as [|[|[|i]]]; cbn [nth]; rewrite ?Ea, ?Eb, ?Ec;
              intros H; try discriminate; try reflexivity; destruct i; reflexivity).
    all: try (split; [apply (py_round_ge 4 _ 0) | apply (py_round_le 4 _ 1)];
              unfold py_sum; cbn [fold_left]; reduce_weights;
              change (inject_Z 0) with 0; change (inject_Z 1) with 1; lra).
    all: try (split; [vm_compute; discriminate | vm_compute; discriminate]).
    all: intros i q Hq Hp Hj;
      pose proof (Hj 0%nat) as H0; pose proof (Hj 1%nat) as H1; pose proof (Hj 2%nat) as H2;
      cbn [nth] in H0, H1, H2; rewrite ?Ea, ?Eb, ?Ec in H0, H1, H2;
      destruct i as [|[|[|i]]]; cbn [nth] in Hq;
      try (specialize (H0 ltac:(lia)); congruence);
      try (specialize (H1 ltac:(lia)); congruence);
      try (specialize (H2 ltac:(lia)); congruence);
      try (destruct i; discriminate);
      try (rewrite Hq in *; simpl in Hp; congruence).
    all: try (rewrite Hq in Ea; congruence); try (rewrite Hq in Eb; congruence);
      try (rewrite Hq in Ec; congruence).
    all: assert (Hq' : or_zero (Some q) = q) by (now apply or_zero_present);
      rewrite Hq in *; rewrite Hq' in *.
    all: (eapply Qle_trans; [apply py_round_near | vm_compute; discriminate]);
      unfold py_sum; cbn [fold_left]; reduce_weights; ring.
Qed.

Lemma risk_scaler_bounds_witness :
  exists f ws,
    risk_scaler [Some (9 # 10); None; Some (5 # 10)] = Fused f ws /\ 0 <= f <= 1 /\
    nth 1 ws 0 == 0.
Proof.
  assert (H : forall q, In (Some q) [Some (9 # 10); None; Some (5 # 10)] -> 0 <= q <= 1).
  { intros q [[= <-] | [[=] | [[= <-] | []]]]; split; vm_compute; discriminate. }
  destruct (proj2 (risk_scaler_bounds [Some (9 # 10); None; Some (5 # 10)]) eq_refl H)
    as (f & ws & E & B & _ & _ & Z & _).
  exists f, ws. split; [exact E|]. split; [exact B|]. apply (Z 1%nat). reflexivity.
Defined.

End ToolFacts.

(** ** The graph *)

Section GraphFacts.

Import Orchestrator.

Variable py_str : value -> str.
Variable quantile : Q -> list Q -> Q.
Variable mean : list Q -> Q.
Variable std : list Q -> Q.

Lemma reassert_lookup_ne (key : string) (st merged : state) (k : string) :
  k <> key -> reassert key st merged !! k = merged !! k.
Proof.
  intros H. unfold reassert. destruct (merged !! key), (st !! key); try reflexivity.
  rewrite lookup_insert_ne; [reflexivity | congruence].
Qed.

Lemma preserve_lookup_ne (st merged : state) (k : string) :
  k <> "manual_context"%string -> k <> "anomaly_query"%string ->
  preserve st merged !! k = merged !! k.
Proof.
  intros H1 H2. unfold preserve. now rewrite !reassert_lookup_ne.
Qed.

Lemma append_query_lookup_ne text (m m' : state) (k : string) :
  append_query text m = Some m' -> k <> "anomaly_query"%string -> m' !! k = m !! k.
Proof.
  unfold append_query. destruct (default _ _); try discriminate.
  intros [= <-] H. rewrite lookup_insert_ne; [reflexivity | congruence].
Qed.

Lemma append_query_keeps text (m m' : state) (k : string) :
  append_query text m = Some m' -> is_Some (m !! k) -> is_Some (m' !! k).
Proof.
  unfold append_query. destruct (default _ _); try discriminate.
  intros [= <-] H. destruct (decide (k = "anomaly_query"%string)) as [-> | Hne].
  - rewrite lookup_insert_eq. eauto.
  - rewrite lookup_insert_ne; [exact H | congruence].
Qed.

Lemma merge_keeps (st r : state) (k : string) :
  is_Some (st !! k) -> is_Some (merge st r !! k).
Proof. rewrite merge_lookup. destruct (r !! k); eauto. Qed.

Lemma preserve_keeps (st m : state) (k : string) :
  is_Some (m !! k) -> is_Some (preserve st m !! k).
Proof. intros H. now rewrite preserve_lookup. Qed.

(** Each wrapper: a key of the state is a key of what the wrapper returns. *)
Lemma sensor_node_keeps (st r s : state) (k : string) :
  sensor_node py_str st r = Some s -> is_Some (st !! k) -> is_Some (s !! k).
Proof.
  unfold sensor_node. intros H Hk.
  assert (Hm : is_Some (preserve st (merge st r) !! k)) by now apply preserve_keeps, merge_keeps.
  destruct (r !! "sensor_anomaly") as [a|]; [destruct (py_truthy a)|].
  - eapply append_query_keeps; eauto.
  - now injection H as <-.
  - now injection H as <-.
Qed.

Lemma service_age_node_keeps (st : state) (r : option state) (k : string) :
  is_Some (st !! k) -> is_Some (service_age_node py_str st r !! k).
Proof.
  unfold service_age_node. intros Hk. destruct r as [r|]; [|exact Hk].
  assert (Hm : is_Some (preserve st (merge st r) !! k)) by now apply preserve_keeps, merge_keeps.
  destruct (r !! "service_age_anomaly") as [a|]; [destruct (py_truthy a)|]; try exact Hm.
  destruct (append_query _ _) as [m'|] eqn:E; simpl; [|exact Hk].
  eapply append_query_keeps; eauto.
Qed.

Lemma feature_node_keeps (st r : state) (k : string) :
  is_Some (st !! k) -> is_Some (feature_node st r !! k).
Proof. intros Hk. now apply preserve_keeps, merge_keeps. Qed.

Lemma manual_context_node_keeps (st : state) (v : value) (k : string) :
  is_Some (st !! k) -> is_Some (manual_context_node st v !! k).
Proof.
  intros Hk. unfold manual_context_node.
  destruct (decide (k = "manual_context"%string)) as [-> | Hne].
  - rewrite lookup_insert_eq. eauto.
  - rewrite lookup_insert_ne; [exact Hk | congruence].
Qed.

Lemma vision_node_keeps (st s : state) (summary : option str) (k : string) :
  vision_node st summary = Some s -> is_Some (st !! k) -> is_Some (s !! k).
Proof.
  unfold vision_node. destruct (validate st); [|discriminate].
  destruct summary as [text|]; [|now intros [= <-]].
  intros H Hk. eapply append_query_keeps; [exact H|].
  apply preserve_keeps.
  destruct (decide (k = "vision_summary"%string)) as [-> | Hne].
  - rewrite lookup_insert_eq. eauto.
  - rewrite lookup_insert_ne; [exact Hk | congruence].
Qed.

Lemma fusion_node_keeps (st : state) (k : string) :
  is_Some (st !! k) -> is_Some (fusion_node st !! k).
Proof.
  intros Hk. unfold fusion_node. destruct (validate st).
  - now apply preserve_keeps, merge_keeps.
  - now apply merge_keeps.
Qed.

(** Each wrapper: a key outside the update and the protected keys keeps its
    value. *)
Lemma sensor_node_frame (st r s : state) (k : string) :
  sensor_node py_str st r = Some s ->
  k <> "manual_context"%string -> k <> "anomaly_query"%string ->
  s !! k = merge st r !! k.
Proof.
  unfold sensor_node. intros H H1 H2.
  destruct (r !! "sensor_anomaly") as [a|]; [destruct (py_truthy a)|].
  - rewrite (append_query_lookup_ne _ _ _ k H H2). now apply preserve_lookup_ne.
  - injection H as <-. now apply preserve_lookup_ne.
  - injection H as <-. now apply preserve_lookup_ne.
Qed.

Lemma service_age_node_frame (st r : state) (k : string) :
  k <> "manual_context"%string -> k <> "anomaly_query"%string ->
  service_age_node py_str st (Some r) !! k = merge st r !! k \/
  service_age_node py_str st (Some r) = st.
Proof.
  unfold service_age_node. intros H1 H2.
  destruct (r !! "service_age_anomaly") as [a|]; [destruct (py_truthy a)|].
  - destruct (append_query _ _) as [m'|] eqn:E; simpl; [|now right].
    left. rewrite (append_query_lookup_ne _ _ _ k E H2). now apply preserve_lookup_ne.
  - left. now apply preserve_lookup_ne.
  - left. now apply preserve_lookup_ne.
Qed.

Lemma feature_node_frame (st r : state) (k : string) :
  k <> "manual_context"%string -> k <> "anomaly_query"%string ->
  feature_node st r !! k = merge st r !! k.
Proof. intros H1 H2. now apply preserve_lookup_ne. Qed.

Lemma vision_node_frame (st s : state) (summary : option str) (k : string) :
  vision_node st summary = Some s ->
  k <> "manual_context"%string -> k <> "anomaly_query"%string ->
  k <> "vision_summary"%string ->
  s !! k = st !! k.
Proof.
  unfold vision_node. destruct (validate st); [|discriminate].
  destruct summary as [text|]; [|now intros [= <-]].
  intros H H1 H2 H3. rewrite (append_query_lookup_ne _ _ _ k H H2).
  rewrite preserve_lookup_ne by assumption.
  rewrite lookup_insert_ne; [reflexivity | congruence].
Qed.


Ltac split_keys H :=
  repeat (apply not_elem_of_cons in H as [? H]).

Lemma copy_key_lookup (key : string) (st fb : state) (k : string) :
  copy_key key st fb !! k =
    if decide (k = key)
    then match st !! key with Some v => Some v | None => fb !! key end
    else fb !! k.
Proof.
  unfold copy_key. destruct (decide (k = key)) as [-> | Hne].
  - destruct (st !! key); [now rewrite lookup_insert_eq | reflexivity].
  - destruct (st !! key); [|reflexivity].
    rewrite lookup_insert_ne; [reflexivity | congruence].
Qed.

Lemma fallback_lookup (st : state) (k : string) :
  merge st (fallback_for st) !! k =
    match fallback !! k with Some v => Some v | None => st !! k end.
Proof.
  rewrite merge_lookup. unfold fallback_for. rewrite !copy_key_lookup.
  repeat match goal with |- context [decide (k = ?x)] => destruct (decide (k = x)) as [-> | ?] end;
    try reflexivity;
    try (change (fallback !! _) with (@None value); destruct (st !! _); reflexivity).
Qed.

Lemma report_update_none (r : Fusion.FinalReport) (k : string) :
  k ∉ report_keys -> report_update r !! k = None.
Proof.
  intros H. unfold report_keys in H. split_keys H. unfold report_update.
  rewrite !lookup_insert_ne by congruence. now rewrite lookup_singleton_ne by congruence.
Qed.

Lemma fallback_none (k : string) : k ∉ report_keys -> fallback !! k = None.
Proof.
  intros H. unfold report_keys in H. split_keys H. unfold fallback.
  rewrite !lookup_insert_ne by congruence. now rewrite lookup_singleton_ne by congruence.
Qed.

Lemma fusion_node_frame (st : state) (k : string) :
  k ∉ report_keys -> fusion_node st !! k = st !! k.
Proof.
  intros H. unfold fusion_node. destruct (validate st) as [agent|].
  - assert (H' := H). unfold report_keys in H'. split_keys H'.
    rewrite preserve_lookup_ne by congruence.
    rewrite merge_lookup. now rewrite report_update_none.
  - rewrite fallback_lookup. now rewrite fallback_none.
Qed.

(** The keys of the report come from the update. *)
Lemma fusion_node_report (st : state) (agent : Fusion.AgentState) (k : string) :
  validate st = Some agent -> k ∈ report_keys ->
  fusion_node st !! k = report_update (Fusion.fuse_and_explain agent) !! k.
Proof.
  intros Hv Hk. unfold fusion_node. rewrite Hv.
  assert (Hs : is_Some (report_update (Fusion.fuse_and_explain agent) !! k)).
  { unfold report_keys in Hk.
    repeat (apply elem_of_cons in Hk as [-> | Hk]; [eexists; reflexivity|]).
    inversion Hk. }
  destruct Hs as [v Hs].
  assert (Hm : merge st (report_update (Fusion.fuse_and_explain agent)) !! k = Some v)
    by (rewrite merge_lookup, Hs; reflexivity).
  rewrite preserve_lookup; [now rewrite Hm, Hs | rewrite Hm; eauto].
Qed.

Lemma validate_ext (st st' : state) :
  (forall k, k ∈ validated_keys -> st' !! k = st !! k) -> validate st' = validate st.
Proof.
  intros H. unfold validate.
  rewrite (H "pump_id"%string), (H "current_total_hours"%string),
    (H "sensor_risk_score"%string), (H "vision_result"%string),
    (H "history_result"%string), (H "history_risk_score"%string),
    (H "triggered_sensors"%string)
    by (apply list_elem_of_In; simpl; tauto).
  reflexivity.
Qed.

(** The fields of a validated state. *)
Lemma validate_fields (st : state) (agent : Fusion.AgentState) :
  validate st = Some agent ->
  field as_float 0 (st !! "sensor_risk_score") = Some (Fusion.sensor_risk_score agent) /\
  optional validate_vision (st !! "vision_result") = Some (Fusion.vision_result agent) /\
  optional as_float (st !! "history_risk_score") = Some (Fusion.history_risk_score agent) /\
  Fusion.service_age_risk_score agent = None /\
  Fusion.transactional_risk_score agent = None.
Proof.
  unfold validate. intros H.
  apply bind_Some in H as (x1 & _ & H). apply bind_Some in H as (x2 & _ & H).
  apply bind_Some in H as (x3 & H3 & H). apply bind_Some in H as (x4 & H4 & H).
  apply bind_Some in H as (x5 & H5 & H). apply bind_Some in H as (x6 & H6 & H).
  apply bind_Some in H as (x7 & H7 & H). injection H as <-. simpl. auto.
Qed.

(** X6.  Nothing is lost on the way through the graph: a key of the initial
    state is a key of the final state, and a key that no stage reports and
    that is neither protected nor part of the report leaves the graph with
    the value it came in with. *)
Theorem run_graph_keeps_state (a : Answers) (initial final : state) (k : string) :
  run_graph py_str a initial = Some final ->
  (is_Some (initial !! k) -> is_Some (final !! k)) /\
  (k ∉ "vision_summary"%string :: report_keys ->
   sensor_result a !! k = None ->
   (forall r, service_age_result a = Some r -> r !! k = None) ->
   feature_result a !! k = None ->
   final !! k = initial !! k).
Proof.
  unfold run_graph. intros H.
  apply bind_Some in H as (s1 & H1 & H). apply bind_Some in H as (s5 & H5 & H).
  injection H as <-. split.
  - intros Hk. apply fusion_node_keeps. eapply vision_node_keeps; [exact H5|].
    apply manual_context_node_keeps, feature_node_keeps, service_age_node_keeps.
    eapply sensor_node_keeps; eauto.
  - intros Hk Hs Ha Hf. apply not_elem_of_cons in Hk as [Hv Hk].
    assert (Hk' := Hk). unfold report_keys in Hk'. split_keys Hk'.
    rewrite fusion_node_frame by exact Hk.
    rewrite (vision_node_frame _ _ _ k H5) by congruence.
    unfold manual_context_node. rewrite lookup_insert_ne by congruence.
    rewrite feature_node_frame by congruence. rewrite merge_lookup, Hf.
    assert (E1 : s1 !! k = initial !! k).
    { rewrite (sensor_node_frame _ _ _ k H1) by congruence. now rewrite merge_lookup, Hs. }
    rewrite <- E1. destruct (service_age_result a) as [r|]; [|reflexivity].
    destruct (service_age_node_frame s1 r k ltac:(congruence) ltac:(congruence)) as [E | E].
    + rewrite E, merge_lookup, (Ha r eq_refl). reflexivity.
    + now rewrite E.
Qed.


Ltac solve_notin :=
  let H := fresh in
  intros H; apply list_elem_of_In in H; simpl in H;
  repeat (destruct H as [H | H]; [discriminate H|]); exact H.

Lemma validate_needs_ids (st : state) :
  st !! "pump_id" = None \/ st !! "current_total_hours" = None -> validate st = None.
Proof.
  unfold validate. intros [H | H]; rewrite H; [reflexivity|].
  destruct (st !! "pump_id" ≫= as_str); reflexivity.
Qed.

(** X7.  A state without pump id or without running hours cannot be
    validated; the fusion stage then answers with its default report
    (score 0, label low, one action item) and leaves every other key of the
    state, the two protected ones included, exactly as it found it. *)
Theorem fusion_node_incomplete_state (st : state) (k : string) :
  st !! "pump_id" = None \/ st !! "current_total_hours" = None ->
  fusion_node st !! "fused_score" = Some (VFloatQ 0) /\
  fusion_node st !! "status_label" = Some (VStr (lit "low")) /\
  fusion_node st !! "explanation" = Some (VStr (lit "Unable to process: incomplete state")) /\
  fusion_node st !! "top_signals" = Some (VList []) /\
  fusion_node st !! "action_items" = Some (VList [VStr (lit "Check system configuration")]) /\
  (k ∉ ["fused_score"; "status_label"; "explanation"; "top_signals"; "action_items"]%string ->
   fusion_node st !! k = st !! k).
Proof.
  intros H. apply validate_needs_ids in H. unfold fusion_node. rewrite H.
  rewrite !fallback_lookup. repeat (split; [reflexivity|]).
  intros Hk. split_keys Hk. unfold fallback.
  rewrite !lookup_insert_ne by congruence. now rewrite lookup_singleton_ne by congruence.
Qed.

Lemma fusion_node_incomplete_state_witness :
  fusion_node (<["manual_context" := VStr (lit "Max Pressure: 60 psi")]> ∅) !! "manual_context"
    = Some (VStr (lit "Max Pressure: 60 psi")) /\
  fusion_node (<["manual_context" := VStr (lit "Max Pressure: 60 psi")]> ∅) !! "status_label"
    = Some (VStr (lit "low")).
Proof.
  pose proof (fusion_node_incomplete_state
                (<["manual_context" := VStr (lit "Max Pressure: 60 psi")]> ∅)
                "manual_context" (or_introl eq_refl)) as (_ & L & _ & _ & _ & F).
  split; [|exact L]. rewrite F; [reflexivity | solve_notin].
Defined.

Lemma service_age_update_lookup (st : state) (r : ServiceAge.NodeResult) (k : string) :
  k ∉ ["overdue_tasks"; "open_requests"; "anomaly_query"; "investigator_error"]%string ->
  service_age_update py_str st r !! k = None \/ service_age_update py_str st r = st.
Proof.
  intros Hk. split_keys Hk. destruct r as [msg | overdue reqs |]; simpl; auto.
  - left. now rewrite lookup_singleton_ne by congruence.
  - destruct (default (VStr []) (st !! "anomaly_query")); auto. left.
    rewrite !lookup_insert_ne by congruence. now rewrite lookup_singleton_ne by congruence.
Qed.

Lemma service_age_stage_lookup (st : state) (r : ServiceAge.NodeResult) (k : string) :
  k ∉ ["overdue_tasks"; "open_requests"; "anomaly_query"; "investigator_error";
       "manual_context"]%string ->
  service_age_node py_str st (Some (service_age_update py_str st r)) !! k = st !! k.
Proof.
  intros Hk.
  assert (Hu : k ∉ ["overdue_tasks"; "open_requests"; "anomaly_query"; "investigator_error"]%string).
  { intros Hin. apply Hk. apply list_elem_of_In in Hin. apply list_elem_of_In.
    simpl in *. tauto. }
  split_keys Hk.
  destruct (service_age_node_frame st (service_age_update py_str st r) k
              ltac:(congruence) ltac:(congruence)) as [E | E]; [|now rewrite E].
  rewrite E, merge_lookup.
  destruct (service_age_update_lookup st r k Hu) as [-> | ->]; [reflexivity|].
  destruct (st !! k); reflexivity.
Qed.

(** X8.  What the compliance stage finds never reaches the fusion: after
    the stage the state validates to the same fields as before, so the
    fused score, the label, the explanation, the signals and the action
    items are the same with overdue tasks as without. *)
Theorem service_age_never_reaches_fusion (st : state) (r : ServiceAge.NodeResult) (k : string) :
  let st' := service_age_node py_str st (Some (service_age_update py_str st r)) in
  validate st' = validate st /\
  (k ∈ ["fused_score"; "status_label"; "explanation"; "top_signals"; "action_items";
        "modality_contributions"]%string ->
   fusion_node st' !! k = fusion_node st !! k).
Proof.
  cbn zeta.
  assert (Hv : validate (service_age_node py_str st (Some (service_age_update py_str st r)))
               = validate st).
  { apply validate_ext. intros k' Hk'. unfold validated_keys in Hk'.
    repeat (apply elem_of_cons in Hk' as [-> | Hk'];
            [apply service_age_stage_lookup; solve_notin|]).
    inversion Hk'. }
  split; [exact Hv|]. intros Hk.
  destruct (validate st) as [agent|] eqn:E.
  - rewrite (fusion_node_report _ agent k Hv), (fusion_node_report _ agent k E); [reflexivity| |];
      unfold report_keys; apply list_elem_of_In; apply list_elem_of_In in Hk; simpl in *; tauto.
  - unfold fusion_node. rewrite Hv, E. rewrite !fallback_lookup.
    repeat (apply elem_of_cons in Hk as [-> | Hk];
            [rewrite service_age_stage_lookup by solve_notin; reflexivity|]).
    inversion Hk.
Qed.


Lemma sensor_update_lookup (st r : state) (b : bool) (p : option Q) (k : string) :
  sensor_update py_str st b p = Some r ->
  k <> "sensor_risk_score"%string -> k <> "anomaly_query"%string ->
  r !! k = None.
Proof.
  unfold sensor_update. intros H H1 H2.
  destruct (validate st); [|now injection H as <-].
  destruct (negb b); [now injection H as <-|].
  destruct (default (VStr []) (st !! "anomaly_query")); try discriminate.
  destruct p; injection H as <-;
    rewrite lookup_insert_ne by congruence; now rewrite lookup_singleton_ne by congruence.
Qed.

Lemma sensor_update_score (st r : state) (b : bool) (p : option Q) :
  sensor_update py_str st b p = Some r ->
  r !! "sensor_risk_score" = None \/
  r !! "sensor_risk_score" = Some (VFloatQ 0) \/
  exists q, p = Some q /\ r !! "sensor_risk_score" = Some (VFloatQ q).
Proof.
  unfold sensor_update. intros H.
  destruct (validate st); [|injection H as <-; now left].
  destruct (negb b); [injection H as <-; now left|].
  destruct (default (VStr []) (st !! "anomaly_query")); try discriminate.
  destruct p as [q|]; injection H as <-.
  - right. right. exists q. split; reflexivity.
  - right. left. reflexivity.
Qed.

Lemma history_update_lookup (res : Baseline.Result) (toon : value) (k : string) :
  k ∉ ["adaptive_thresholds"; "rolling_means"; "drift_scores"; "is_historical_outlier";
       "historical_toon_string"; "history_risk_score"; "triggered_sensors"]%string ->
  history_update res toon !! k = None.
Proof.
  intros Hk. split_keys Hk. unfold history_update.
  rewrite !lookup_insert_ne by congruence. now rewrite lookup_singleton_ne by congruence.
Qed.

Lemma feature_update_lookup (st : state) file live texts (k : string) :
  k ∉ ["adaptive_thresholds"; "rolling_means"; "drift_scores"; "is_historical_outlier";
       "historical_toon_string"; "history_risk_score"; "triggered_sensors";
       "transactional_toon_string"; "anomaly_query"]%string ->
  feature_update quantile mean std st file live texts !! k = None.
Proof.
  intros Hk.
  assert (Hu : k ∉ ["adaptive_thresholds"; "rolling_means"; "drift_scores";
                    "is_historical_outlier"; "historical_toon_string"; "history_risk_score";
                    "triggered_sensors"]%string).
  { intros Hin. apply Hk. apply list_elem_of_In in Hin. apply list_elem_of_In.
    simpl in *. tauto. }
  split_keys Hk. unfold feature_update.
  destruct file; [apply history_update_lookup; exact Hu ..|].
  destruct (default (VStr []) (st !! "anomaly_query"));
    lazymatch goal with
    | |- history_update _ _ !! _ = None => apply history_update_lookup; exact Hu
    | _ => idtac
    end.
  rewrite !lookup_insert_ne by congruence. apply history_update_lookup; exact Hu.
Qed.

(** The baseline stage reports an outlier score of 0.5 or none at all. *)
Lemma baseline_risk_values file live :
  Baseline.history_risk_score (Baseline.feature_node quantile mean std file live) = None \/
  Baseline.history_risk_score (Baseline.feature_node quantile mean std file live) = Some (5 # 10).
Proof.
  destruct file; simpl; auto.
  match goal with |- context [if ?c then _ else _] => destruct c end; auto.
Qed.

Lemma feature_update_risk (st : state) file live texts :
  feature_update quantile mean std st file live texts !! "history_risk_score" = Some VNone \/
  feature_update quantile mean std st file live texts !! "history_risk_score"
    = Some (VFloatQ (5 # 10)).
Proof.
  assert (He : forall toon, history_update Baseline._empty_history toon !! "history_risk_score"
                            = Some VNone) by reflexivity.
  unfold feature_update. destruct file; auto.
  destruct (default (VStr []) (st !! "anomaly_query")); auto.
  rewrite !lookup_insert_ne by discriminate.
  change (history_update ?res ?toon !! "history_risk_score")
    with (Some (optional_float (Baseline.history_risk_score res))).
  destruct (baseline_risk_values (Baseline.Frame vibration temperature pressure) live)
    as [-> | ->]; auto.
Qed.

Lemma label_below_high (p : Q) :
  p < 60 # 100 ->
  Fusion.get_risk_threshold_label p = lit "low" \/
  Fusion.get_risk_threshold_label p = lit "medium".
Proof.
  intros H. unfold Fusion.get_risk_threshold_label.
  destruct (Qle_bool (85 # 100) p) eqn:E1; [apply Qle_bool_iff in E1; lra|].
  destruct (Qle_bool (60 # 100) p) eqn:E2; [apply Qle_bool_iff in E2; lra|].
  destruct (Qle_bool (35 # 100) p); auto.
Qed.

Lemma report_label (agent : Fusion.AgentState) :
  report_update (Fusion.fuse_and_explain agent) !! "status_label" =
    Some (VStr (Fusion.get_risk_threshold_label (Fusion.fused_prob agent))).
Proof. reflexivity. Qed.

Lemma report_score (agent : Fusion.AgentState) :
  report_update (Fusion.fuse_and_explain agent) !! "fused_score" =
    Some (VFloatQ (Fusion.fused_prob agent)).
Proof. reflexivity. Qed.

(** The fused score of a state as the graph validates it: the schema has
    no field for the service-age and the transactional score. *)
Lemma validated_fused_prob (st : state) (agent : Fusion.AgentState) :
  validate st = Some agent ->
  Fusion.fused_prob agent ==
    (8 # 15) * Fusion.sensor_risk_score agent + (2 # 15) * Fusion.vision_score agent +
    (1 # 15) * Fusion.history_score agent.
Proof.
  intros H. apply validate_fields in H as (_ & _ & _ & Hsa & Htr).
  unfold Fusion.fused_prob, Fusion.service_age_score, Fusion.transactional_score,
    Fusion.sensor_score.
  rewrite Hsa, Htr. simpl default.
  rewrite weight_sensor, weight_vision, weight_history.
  assert (E8 : (8 # 10) / Fusion.nominal_total == 8 # 15) by reflexivity.
  assert (E2 : (2 # 10) / Fusion.nominal_total == 2 # 15) by reflexivity.
  assert (E1 : (1 # 10) / Fusion.nominal_total == 1 # 15) by reflexivity.
  rewrite E8, E2, E1. ring.
Qed.




(** X10.  The whole graph, run on a state that carries no vision result,
    never reports more than "medium": no stage writes a vision result, the
    baseline stage reports an outlier score of 0.5 or none, and the findings
    of the compliance stage are not read; with a sensor score of at most 1
    the fused score is at most 17/30. *)
Theorem graph_label_at_most_medium (c : Collaborators) (initial final : state) :
  build_graph py_str quantile mean std c initial = Some final ->
  initial !! "vision_result" = None \/ initial !! "vision_result" = Some VNone ->
  (forall q, field as_float 0 (initial !! "sensor_risk_score") = Some q -> q <= 1) ->
  (forall p, prediction c = Some p -> p <= 1) ->
  (final !! "status_label" = Some (VStr (lit "low")) \/
   final !! "status_label" = Some (VStr (lit "medium"))) /\
  exists q, final !! "fused_score" = Some (VFloatQ q) /\ q <= 17 # 30.
Proof.
  unfold build_graph. intros H Hvis Hsens Hpred.
  apply bind_Some in H as (r1 & Hr1 & H). apply bind_Some in H as (s1 & Hs1 & H).
  apply bind_Some in H as (s5 & Hs5 & H). injection H as <-.
  set (s2 := service_age_node py_str s1 (Some (service_age_update py_str s1 (investigation c)))) in *.
  set (upd := feature_update quantile mean std s2 (history_file c) (live_values c) (feature_texts c)) in *.
  (* the three keys at the fusion stage *)
  assert (K5 : forall k, k ∈ ["vision_result"; "sensor_risk_score"; "history_risk_score"]%string ->
                 s5 !! k = merge s2 upd !! k).
  { intros k Hk.
    assert (k <> "manual_context"%string /\ k <> "anomaly_query"%string /\
            k <> "vision_summary"%string) as (N1 & N2 & N3).
    { repeat (apply elem_of_cons in Hk as [-> | Hk]; [repeat split; discriminate|]).
      inversion Hk. }
    rewrite (vision_node_frame _ _ _ k Hs5 N1 N2 N3).
    unfold manual_context_node. rewrite lookup_insert_ne by congruence.
    now apply feature_node_frame. }
  assert (K2 : forall k, k ∈ ["vision_result"; "sensor_risk_score"]%string ->
                 s5 !! k = merge initial r1 !! k).
  { intros k Hk. rewrite K5 by (apply list_elem_of_In; apply list_elem_of_In in Hk; simpl in *; tauto).
    rewrite merge_lookup. unfold upd.
    rewrite feature_update_lookup
      by (repeat (apply elem_of_cons in Hk as [-> | Hk]; [solve_notin|]); inversion Hk).
    unfold s2. rewrite service_age_stage_lookup
      by (repeat (apply elem_of_cons in Hk as [-> | Hk]; [solve_notin|]); inversion Hk).
    apply (sensor_node_frame _ _ _ k Hs1);
      repeat (apply elem_of_cons in Hk as [-> | Hk]; [discriminate|]); inversion Hk. }
  assert (Kv : s5 !! "vision_result" = initial !! "vision_result").
  { rewrite K2 by (apply list_elem_of_In; simpl; tauto). rewrite merge_lookup.
    now rewrite (sensor_update_lookup _ _ _ _ "vision_result" Hr1). }
  assert (Ks : forall q, field as_float 0 (s5 !! "sensor_risk_score") = Some q -> q <= 1).
  { intros q. rewrite K2 by (apply list_elem_of_In; simpl; tauto). rewrite merge_lookup.
    destruct (sensor_update_score _ _ _ _ Hr1) as [-> | [-> | (p & Hp & ->)]].
    - apply Hsens.
    - intros [= <-]. lra.
    - intros [= <-]. now apply Hpred. }
  assert (Kh : s5 !! "history_risk_score" = Some VNone \/
               s5 !! "history_risk_score" = Some (VFloatQ (5 # 10))).
  { rewrite K5 by (apply list_elem_of_In; simpl; tauto). rewrite merge_lookup. unfold upd.
    destruct (feature_update_risk s2 (history_file c) (live_values c) (feature_texts c))
      as [-> | ->]; auto. }
  destruct (validate s5) as [agent|] eqn:Hv.
  - pose proof (validate_fields s5 agent Hv) as (Fs & Fv & Fh & _ & _).
    pose proof (validated_fused_prob s5 agent Hv) as E.
    specialize (Ks _ Fs).
    assert (Hvz : Fusion.vision_score agent = 0).
    { unfold Fusion.vision_score. rewrite Kv in Fv.
      destruct Hvis as [Hi | Hi]; rewrite Hi in Fv; injection Fv as <-; reflexivity. }
    assert (Hhz : Fusion.history_score agent <= 5 # 10).
    { unfold Fusion.history_score.
      destruct Kh as [Hi | Hi]; rewrite Hi in Fh; injection Fh as <-; [lra|].
      vm_compute. discriminate. }
    assert (Hb : Fusion.fused_prob agent <= 17 # 30) by (rewrite E, Hvz; lra).
    split.
    + rewrite (fusion_node_report s5 agent _ Hv);
        [|unfold report_keys; apply list_elem_of_In; simpl; tauto].
      rewrite report_label.
      destruct (label_below_high (Fusion.fused_prob agent)) as [-> | ->]; [lra | auto | auto].
    + exists (Fusion.fused_prob agent). split; [|exact Hb].
      rewrite (fusion_node_report s5 agent _ Hv); [apply report_score|].
      unfold report_keys. apply list_elem_of_In. simpl. tauto.
  - unfold fusion_node. rewrite Hv, !fallback_lookup. split; [left; reflexivity|].
    exists 0. split; [reflexivity | lra].
Qed.

End GraphFacts.

Lemma run_graph_keeps_state_witness :
  exists final,
    Orchestrator.run_graph Orchestrator.plain_str Orchestrator.sample_answers
      Orchestrator.fresh_state = Some final /\
    final !! "pump_id" = Some (VStr (lit "P-001")).
Proof.
  pose (r := Orchestrator.run_graph Orchestrator.plain_str Orchestrator.sample_answers
               Orchestrator.fresh_state).
  assert (E : exists final, r = Some final).
  { let v := eval vm_compute in r in
    lazymatch v with
    | Some ?f => exists f; vm_cast_no_check (@eq_refl (option Orchestrator.state) (Some f))
    end. }
  destruct E as [final E]. exists final. split; [exact E|].
  pose proof (run_graph_keeps_state Orchestrator.plain_str Orchestrator.sample_answers
                Orchestrator.fresh_state final "pump_id" E) as [_ F].
  rewrite F; [reflexivity | | reflexivity | intros x [=] | reflexivity].
  intros H. apply list_elem_of_In in H. simpl in H.
  repeat (destruct H as [H | H]; [discriminate H|]). exact H.
Defined.

Lemma graph_label_at_most_medium_witness :
  exists final,
    Orchestrator.build_graph Orchestrator.plain_str Baseline.quantile_nearest
      Baseline.mean_b64 Baseline.std_b64 Orchestrator.sample_run Orchestrator.fresh_state = Some final /\
    (final !! "status_label" = Some (VStr (lit "low")) \/
     final !! "status_label" = Some (VStr (lit "medium"))).
Proof.
  pose (r := Orchestrator.build_graph Orchestrator.plain_str Baseline.quantile_nearest
               Baseline.mean_b64 Baseline.std_b64 Orchestrator.sample_run Orchestrator.fresh_state).
  assert (E : exists final, r = Some final).
  { let v := eval vm_compute in r in
    lazymatch v with
    | Some ?f => exists f; vm_cast_no_check (@eq_refl (option Orchestrator.state) (Some f))
    end. }
  destruct E as [final E]. exists final. split; [exact E|].
  refine (proj1 (graph_label_at_most_medium Orchestrator.plain_str Baseline.quantile_nearest
                   Baseline.mean_b64 Baseline.std_b64 Orchestrator.sample_run Orchestrator.fresh_state
                   final E _ _ _)).
  - left. reflexivity.
  - intros q [= <-]. vm_compute. discriminate.
  - intros p [= <-]. vm_compute. discriminate.
Defined.

(** ** Routing *)

Section RoutingFacts.

Import Orchestrator.

Ltac concrete_in H :=
  apply list_elem_of_In in H; simpl in H;
  repeat (destruct H as [H | H]; [try discriminate H|]); try contradiction.

(** X11.  The router never answers with an empty list and never names a
    node twice; it names the fusion node exactly when it recognises none of
    the modalities, and then nothing else; it depends only on which names
    occur, not on their case, order or number; and for the modality "text"
    it names a node that the graph does not register. *)
Theorem route_modalities_facts (ms ms' : list str) :
  let nodes := route_modalities ms in
  let norm := map Toon.lower ms in
  nodes <> [] /\
  NoDup nodes /\
  (forall n, n ∈ nodes ->
     n ∈ ["sensor_node"; "text_node"; "vision_node"; "feature_node"; "fusion_node"]%string) /\
  ("fusion_node"%string ∈ nodes <-> nodes = ["fusion_node"%string]) /\
  (nodes = ["fusion_node"%string] <->
     (lit "sensor" ∉ norm) /\ (lit "text" ∉ norm) /\ (lit "vision" ∉ norm) /\
     (lit "historical" ∉ norm) /\ (lit "history" ∉ norm)) /\
  ("text_node"%string ∈ nodes <-> lit "text" ∈ norm) /\
  ("text_node"%string ∉ graph_nodes) /\
  ((forall m, m ∈ map Toon.lower ms' <-> m ∈ norm) ->
   route_modalities ms' = route_modalities ms).
Proof.
  cbn zeta. split; [|split; [|split; [|split; [|split; [|split; [|split]]]]]].
  8: { intros H. unfold route_modalities. cbv zeta.
       rewrite !(bool_decide_ext _ _ (H _)). reflexivity. }
  7: { intros H. concrete_in H. }
  all: unfold route_modalities; cbv zeta; repeat case_bool_decide; cbn [orb app is_nil].
  all: try discriminate.
  all: try (repeat constructor; rewrite list_elem_of_In; simpl; intuition discriminate).
  all: try (intros n Hn; apply list_elem_of_In in Hn; apply list_elem_of_In; simpl in *; tauto).
  all: try (split; [intros Hx; concrete_in Hx; try reflexivity | intros Hx; try discriminate Hx;
                    try tauto; try (apply list_elem_of_In; simpl; tauto)]).
  all: try tauto.
  all: split; [discriminate | tauto].
Qed.

End RoutingFacts.

(** ** Fusion: bounds and actions *)

Section FusionBounds.

Import Fusion.

Lemma fused_prob_value (st : AgentState) :
  fused_prob st ==
    (8 # 15) * sensor_score st + (2 # 15) * vision_score st + (1 # 15) * history_score st +
    (2 # 15) * service_age_score st + (2 # 15) * transactional_score st.
Proof.
  unfold fused_prob.
  rewrite weight_sensor, weight_vision, weight_history, weight_service_age, weight_transactional.
  assert (E8 : (8 # 10) / nominal_total == 8 # 15) by reflexivity.
  assert (E2 : (2 # 10) / nominal_total == 2 # 15) by reflexivity.
  assert (E1 : (1 # 10) / nominal_total == 1 # 15) by reflexivity.
  rewrite E8, E2, E1. reflexivity.
Qed.

Lemma rank_monotone (p q : Q) :
  p <= q -> (rank (_risk_from_prob p) <= rank (_risk_from_prob q))%nat.
Proof.
  intros H. unfold _risk_from_prob.
  destruct (Qle_bool (85 # 100) p) eqn:P85; destruct (Qle_bool (60 # 100) p) eqn:P60;
    destruct (Qle_bool (35 # 100) p) eqn:P35;
    destruct (Qle_bool (85 # 100) q) eqn:Q85; destruct (Qle_bool (60 # 100) q) eqn:Q60;
    destruct (Qle_bool (35 # 100) q) eqn:Q35;
    repeat match goal with
           | H : Qle_bool _ _ = true |- _ => apply Qle_bool_iff in H
           | H : Qle_bool _ _ = false |- _ => apply Qle_bool_false in H
           end; simpl; solve [lia | lra].
Qed.

Ltac five_scores H :=
  unfold scores in H;
  repeat match type of H with
         | Forall _ (_ :: _) => let Hx := fresh "Hs" in apply Forall_cons in H as [Hx H]
         | Forall2 _ (_ :: _) (_ :: _) =>
             let Hx := fresh "Hs" in apply Forall2_cons in H as [Hx H]
         end.

(** X12.  The fused score does not fall when no score falls, and neither
    does the label: a higher score of any modality never lowers the
    reported risk.  With all five scores 0 the fused score is 0 and the
    label "low". *)
Theorem fused_score_monotone (st st' : AgentState) :
  (Forall2 Qle (scores st) (scores st') ->
     fused_prob st <= fused_prob st' /\
     (rank (_risk_from_prob (fused_prob st)) <= rank (_risk_from_prob (fused_prob st')))%nat) /\
  (Forall (fun s => s == 0) (scores st) ->
     fused_prob st == 0 /\ status_label (fuse_and_explain st) = lit "low").
Proof.
  pose proof (fused_prob_value st) as E. pose proof (fused_prob_value st') as E'.
  split.
  - intros H. five_scores H.
    assert (Hb : fused_prob st <= fused_prob st') by (rewrite E, E'; lra).
    split; [exact Hb | now apply rank_monotone].
  - intros H. five_scores H.
    assert (Hb : fused_prob st == 0) by (rewrite E; lra).
    split; [exact Hb|]. simpl. unfold get_risk_threshold_label.
    destruct (Qle_bool (85 # 100) (fused_prob st)) eqn:E1; [apply Qle_bool_iff in E1; lra|].
    destruct (Qle_bool (60 # 100) (fused_prob st)) eqn:E2; [apply Qle_bool_iff in E2; lra|].
    destruct (Qle_bool (35 # 100) (fused_prob st)) eqn:E3; [apply Qle_bool_iff in E3; lra|].
    reflexivity.
Qed.

Lemma fused_score_monotone_witness :
  fused_prob scenario_A <= fused_prob all_modalities.
Proof.
  apply (proj1 (fused_score_monotone scenario_A all_modalities)).
  repeat constructor; vm_compute; discriminate.
Defined.

(** X13.  No label above "medium" without the sensor: with all scores in
    [0,1], "critical" needs a sensor score of at least 23/32 and "high" one
    of at least 1/4; and the sensor alone, whatever it reports, gives
    "medium" at most. *)
Theorem label_needs_sensor (st : AgentState) :
  scores_in_unit st ->
  (status_label (fuse_and_explain st) = lit "critical" -> 23 # 32 <= sensor_score st) /\
  ((2 <= rank (_risk_from_prob (fused_prob st)))%nat -> 1 # 4 <= sensor_score st) /\
  (vision_score st == 0 -> history_score st == 0 -> service_age_score st == 0 ->
   transactional_score st == 0 ->
   (rank (_risk_from_prob (fused_prob st)) <= 1)%nat).
Proof.
  intros Hu. pose proof (fused_prob_value st) as E.
  pose proof (vision_score_unit st Hu) as [? ?].
  pose proof (history_score_unit st Hu) as [? ?].
  pose proof (service_age_score_unit st Hu) as [? ?].
  pose proof (transactional_score_unit st Hu) as [? ?].
  destruct Hu as ([Hs0 Hs1] & _). fold (sensor_score st) in Hs0, Hs1.
  split; [|split].
  - simpl. unfold get_risk_threshold_label.
    destruct (Qle_bool (85 # 100) (fused_prob st)) eqn:E1.
    + intros _. apply Qle_bool_iff in E1. rewrite E in E1. lra.
    + destruct (Qle_bool (60 # 100) _); [discriminate|].
      destruct (Qle_bool (35 # 100) _); discriminate.
  - unfold _risk_from_prob.
    destruct (Qle_bool (85 # 100) (fused_prob st)) eqn:E1;
      [intros _; apply Qle_bool_iff in E1; rewrite E in E1; lra|].
    destruct (Qle_bool (60 # 100) (fused_prob st)) eqn:E2;
      [intros _; apply Qle_bool_iff in E2; rewrite E in E2; lra|].
    destruct (Qle_bool (35 # 100) (fused_prob st)); simpl; lia.
  - intros Hv Hh Ha Ht. unfold _risk_from_prob.
    assert (Hb : fused_prob st < 60 # 100) by (rewrite E, Hv, Hh, Ha, Ht; lra).
    destruct (Qle_bool (85 # 100) (fused_prob st)) eqn:E1; [apply Qle_bool_iff in E1; lra|].
    destruct (Qle_bool (60 # 100) (fused_prob st)) eqn:E2; [apply Qle_bool_iff in E2; lra|].
    destruct (Qle_bool (35 # 100) (fused_prob st)); simpl; lia.
Qed.

Lemma label_needs_sensor_witness :
  (rank (_risk_from_prob (fused_prob scenario_A)) <= 1)%nat.
Proof.
  assert (H : scores_in_unit scenario_A).
  { unfold scores_in_unit, in_unit; simpl.
    split; [split; vm_compute; discriminate|].
    split; [intros ? [=]|]. split; [intros ? [=]|].
    split; intros ? [=]. }
  apply (proj2 (proj2 (label_needs_sensor scenario_A H))); reflexivity.
Defined.

End FusionBounds.

Section FusionActions.

Import Fusion.

Lemma gt_half_false (q : Q) : gt_half q = false <-> q <= 5 # 10.
Proof.
  unfold gt_half. rewrite negb_false_iff. apply Qle_bool_iff.
Qed.

Lemma is_nil_true {A} (l : list A) : is_nil l = true <-> l = [].
Proof. destruct l; simpl; split; congruence. Qed.

(** X14.  The report always carries an action item.  It is the single
    item "Continue routine monitoring." exactly when the image shows
    neither leak nor crack, the history result lists no overdue task and
    neither the service-age nor the transactional score exceeds 0.5;
    otherwise that item does not occur.  The sensor score, the history
    score and the triggered sensors never change the action items.  There
    are at most five action items, and at most seven signals besides those
    of the triggered sensors (two of the image, three overdue tasks, two of
    the scores). *)
Theorem action_items_facts (st st' : AgentState) :
  let items := action_items (fuse_and_explain st) in
  let routine := lit "Continue routine monitoring." in
  items <> [] /\
  (length items <= 5)%nat /\
  (items = [routine] <->
     vision_has_leaks st = false /\ vision_has_cracks st = false /\
     history_overdue st = [] /\
     service_age_score st <= 5 # 10 /\ transactional_score st <= 5 # 10) /\
  (In routine items -> items = [routine]) /\
  (vision_result st' = vision_result st -> history_result st' = history_result st ->
   service_age_risk_score st' = service_age_risk_score st ->
   transactional_risk_score st' = transactional_risk_score st ->
   action_items (fuse_and_explain st') = items) /\
  (length (top_signals (fuse_and_explain st)) <= length (triggered_sensors st) + 7)%nat.
Proof.
  cbn zeta. cbn [action_items top_signals fuse_and_explain].
  split; [|split; [|split; [|split; [|split]]]].
  5: { intros Hv Hh Ha Ht.
       unfold build_action_items, vision_has_leaks, vision_has_cracks, history_overdue,
         service_age_score, transactional_score.
       now rewrite Hv, Hh, Ha, Ht. }
  5: { unfold build_top_signals. rewrite !length_app, !length_map.
       change (@length str) with (@length (list ascii)).
       match goal with
       | |- context [@length ?A (@take ?B 3 ?l)] =>
           assert (Hl : (@length A (@take B 3 l) <= 3)%nat) by (rewrite length_take; lia);
           revert Hl; generalize (@length A (@take B 3 l)); intros n Hl
       end.
       destruct (vision_has_leaks st), (vision_has_cracks st), (gt_half (service_age_score st)),
         (gt_half (transactional_score st)); simpl; lia. }
  all: rewrite <- ?gt_half_false, <- ?is_nil_true; unfold build_action_items;
    destruct (vision_has_leaks st), (vision_has_cracks st), (is_nil (history_overdue st)),
      (gt_half (service_age_score st)), (gt_half (transactional_score st));
    cbn [negb app is_nil length].
  all: try discriminate.
  all: try lia.
  all: try (split; [intros _; repeat split | reflexivity]; fail).
  all: try (split; [intros [=] | intros (? & ? & ? & ? & ?); discriminate]; fail).
  all: try (intros _; reflexivity).
  all: try (intros Hin; exfalso; vm_compute in Hin; intuition discriminate).
Qed.

Lemma action_items_facts_witness :
  action_items (fuse_and_explain scenario_A) = [lit "Continue routine monitoring."].
Proof.
  apply (proj2 (proj1 (proj2 (proj2 (action_items_facts scenario_A scenario_A))))).
  repeat split; vm_compute; discriminate.
Defined.

End FusionActions.

(** ** Maintenance compliance: further properties *)

Section ServiceAgeMore.

Import ServiceAge.

Local Open Scope Z_scope.

Lemma omap_cons_eq {A B} (f : A -> option B) (a : A) (l : list A) :
  omap f (a :: l) = match f a with Some y => y :: omap f l | None => omap f l end.
Proof. reflexivity. Qed.

Lemma omap_ext_in {A B} (f g : A -> option B) (l : list A) :
  (forall a, In a l -> f a = g a) -> omap f l = omap g l.
Proof.
  induction l as [|a l IH]; intros H; [reflexivity|].
  rewrite !omap_cons_eq, (H a (or_introl eq_refl)), IH; [reflexivity|].
  intros x Hx. apply H. now right.
Qed.

Lemma omap_sublist {A B} (f : A -> option B) (g : B -> A) (l : list A) :
  (forall a b, f a = Some b -> g b = a) -> sublist (map g (omap f l)) l.
Proof.
  intros H. induction l as [|a l IH]; [constructor|].
  rewrite omap_cons_eq. destruct (f a) as [b|] eqn:E.
  - cbn [map]. rewrite (H a b E). now constructor.
  - now constructor.
Qed.

(** X15.  Every entry of the overdue list belongs to a scheduled task of
    the pump and carries the numbers it was computed from, with a positive
    number of overdue hours; the entries follow the order of the schedule, at
    most one per scheduled row; a pump without schedule has no overdue
    task, whatever its work log says. *)
Theorem overdue_tasks_sound (db : Database) (pump : str) (cur : Z) :
  (forall t, In t (overdue_tasks db pump cur) ->
     In (task_name t, interval_hours t) (sched_rows db pump) /\
     0 < overdue_hours t /\
     overdue_hours t = cur - last_done t - interval_hours t /\
     last_done t = last_done_of db pump (task_name t) /\
     current_total_hours t = cur) /\
  sublist (map (fun t => (task_name t, interval_hours t)) (overdue_tasks db pump cur))
          (sched_rows db pump) /\
  (length (overdue_tasks db pump cur) <= length (sched_rows db pump))%nat /\
  (sched_rows db pump = [] -> overdue_tasks db pump cur = []).
Proof.
  split; [|split; [|split]].
  - intros t Hin. unfold overdue_tasks in Hin.
    apply list_elem_of_In, list_elem_of_omap in Hin as (sched & Hs & Hc).
    apply check_task_inv in Hc as (-> & H). split; [now apply list_elem_of_In | exact H].
  - unfold overdue_tasks. apply omap_sublist. intros a b Hc.
    apply check_task_inv in Hc as (-> & _). reflexivity.
  - unfold overdue_tasks.
    induction (sched_rows db pump) as [|a l IH]; [simpl; lia|].
    rewrite omap_cons_eq. destruct (check_task db pump cur a); cbn [length]; lia.
  - unfold overdue_tasks. now intros ->.
Qed.

Lemma check_task_later db pump cur cur' sched t :
  cur <= cur' -> check_task db pump cur sched = Some t ->
  check_task db pump cur' sched =
    Some {| task_name := task_name t; overdue_hours := overdue_hours t + (cur' - cur);
            interval_hours := interval_hours t; last_done := last_done t;
            current_total_hours := cur' |}.
Proof.
  destruct sched as [task interval]. unfold check_task. intros Hle.
  destruct (0 <? cur - last_done_of db pump task - interval) eqn:E; [|discriminate].
  apply Z.ltb_lt in E. intros [= <-]. simpl.
  assert (E' : (0 <? cur' - last_done_of db pump task - interval) = true)
    by (apply Z.ltb_lt; lia).
  rewrite E'. do 2 f_equal. lia.
Qed.

(** X16.  Running hours only make things worse: a task that is overdue at
    some meter reading is overdue at every later reading, by as many hours
    more as the meter has advanced, and the overdue list never gets
    shorter. *)
Theorem overdue_grows_with_hours (db : Database) (pump : str) (cur cur' : Z) :
  cur <= cur' ->
  (forall t, In t (overdue_tasks db pump cur) ->
     In {| task_name := task_name t; overdue_hours := overdue_hours t + (cur' - cur);
           interval_hours := interval_hours t; last_done := last_done t;
           current_total_hours := cur' |}
        (overdue_tasks db pump cur')) /\
  (length (overdue_tasks db pump cur) <= length (overdue_tasks db pump cur'))%nat.
Proof.
  intros Hle. split.
  - intros t Hin. unfold overdue_tasks in *.
    apply list_elem_of_In, list_elem_of_omap in Hin as (sched & Hs & Hc).
    apply list_elem_of_In, list_elem_of_omap. exists sched. split; [exact Hs|].
    now apply check_task_later.
  - unfold overdue_tasks.
    induction (sched_rows db pump) as [|a l IH]; [simpl; lia|].
    rewrite !omap_cons_eq. destruct (check_task db pump cur a) as [t|] eqn:E.
    + rewrite (check_task_later _ _ _ _ _ _ Hle E). cbn [length]. lia.
    + destruct (check_task db pump cur' a); cbn [length]; lia.
Qed.

Lemma overdue_grows_with_hours_witness :
  (length (overdue_tasks sample_db (lit "P-001") 1200) <=
   length (overdue_tasks sample_db (lit "P-001") 2000))%nat.
Proof.
  apply (proj2 (overdue_grows_with_hours sample_db (lit "P-001") 1200 2000 ltac:(lia))).
Defined.

Lemma first_row_some rows : rows <> [] -> is_Some (first_row rows).
Proof.
  destruct rows as [|r rest]; [congruence|]. intros _. simpl.
  destruct (first_row rest) as [b|]; [destruct (sorts_before r b)|]; eauto.
Qed.

Lemma sorts_before_both a b :
  sorts_before a b = true -> sorts_before b a = true ->
  hours_at_service a = hours_at_service b.
Proof.
  unfold sorts_before. rewrite !orb_true_iff, !andb_true_iff.
  rewrite !Z.ltb_lt, !Z.eqb_eq, !Z.leb_le. lia.
Qed.

Lemma matching_logs_In db pump task r :
  In r (matching_logs db pump task) <->
  In r (work_done_logs db) /\ log_pump_id r = pump /\ log_task_name r = task.
Proof.
  unfold matching_logs. rewrite <- !list_elem_of_In, list_elem_of_filter. tauto.
Qed.

(** The answer of the work-log query depends on the rows of the table, not
    on their order. *)
Lemma last_done_of_ext db db' pump task :
  (forall r, In r (matching_logs db' pump task) <-> In r (matching_logs db pump task)) ->
  last_done_of db' pump task = last_done_of db pump task.
Proof.
  intros H. unfold last_done_of, log_row.
  destruct (first_row (matching_logs db' pump task)) as [r'|] eqn:E';
    destruct (first_row (matching_logs db pump task)) as [r|] eqn:E; simpl.
  - apply first_row_spec in E' as [Hin' Hmax']. apply first_row_spec in E as [Hin Hmax].
    apply sorts_before_both; [apply Hmax', H, Hin | apply Hmax, H, Hin'].
  - apply first_row_spec in E' as [Hin' _]. apply H in Hin'.
    destruct (matching_logs db pump task) as [|x l]; [destruct Hin'|].
    destruct (first_row_some (x :: l)) as [? ?]; congruence.
  - apply first_row_spec in E as [Hin _]. apply H in Hin.
    destruct (matching_logs db' pump task) as [|x l]; [destruct Hin|].
    destruct (first_row_some (x :: l)) as [? ?]; congruence.
  - reflexivity.
Qed.

(** X17.  Logging a service clears the task: when the work log gains a row
    for a task of a pump, newer than every row the task had, the hours of
    that row become the last service of the task, wherever the row sits in
    the table, and the task is not overdue as long as the hours run since
    do not exceed the interval; the other tasks of the pump and the other
    pumps are evaluated as before. *)
Theorem logged_service_clears_task (db db' : Database) (row : WorkDoneLogRow) (cur interval : Z) :
  service_schedules db' = service_schedules db ->
  (forall r, In r (work_done_logs db') <-> r = row \/ In r (work_done_logs db)) ->
  (forall r, In r (matching_logs db (log_pump_id row) (log_task_name row)) ->
             timestamp r < timestamp row) ->
  last_done_of db' (log_pump_id row) (log_task_name row) = hours_at_service row /\
  (cur - hours_at_service row <= interval ->
   check_task db' (log_pump_id row) cur (log_task_name row, interval) = None) /\
  (forall pump task, (pump, task) <> (log_pump_id row, log_task_name row) ->
     last_done_of db' pump task = last_done_of db pump task) /\
  (forall pump, pump <> log_pump_id row -> overdue_tasks db' pump cur = overdue_tasks db pump cur).
Proof.
  intros Hs Hr Hnew.
  assert (Hother : forall pump task, (pump, task) <> (log_pump_id row, log_task_name row) ->
                     last_done_of db' pump task = last_done_of db pump task).
  { intros pump task Hne. apply last_done_of_ext. intros r.
    rewrite !matching_logs_In, Hr. split; [|tauto].
    intros ([-> | Hin] & Hp & Ht); [|tauto]. exfalso. apply Hne. congruence. }
  assert (Hlast : last_done_of db' (log_pump_id row) (log_task_name row) = hours_at_service row).
  { unfold last_done_of, log_row.
    assert (Hin : In row (matching_logs db' (log_pump_id row) (log_task_name row))).
    { apply matching_logs_In. rewrite Hr. auto. }
    destruct (first_row_some (matching_logs db' (log_pump_id row) (log_task_name row)))
      as [r' E]; [intros E0; rewrite E0 in Hin; destruct Hin|].
    rewrite E. simpl. apply first_row_spec in E as [Hin' Hmax].
    specialize (Hmax row Hin).
    apply matching_logs_In in Hin' as (Hin' & Hp & Ht). apply Hr in Hin' as [-> | Hold];
      [reflexivity|].
    assert (Hlt : timestamp r' < timestamp row)
      by (apply Hnew, matching_logs_In; auto).
    unfold sorts_before in Hmax. rewrite orb_true_iff, andb_true_iff in Hmax.
    rewrite Z.ltb_lt, Z.eqb_eq in Hmax. lia. }
  split; [exact Hlast|]. split; [|split; [exact Hother|]].
  - intros Hle. apply check_task_none. rewrite Hlast. lia.
  - intros pump Hne. unfold overdue_tasks, sched_rows. rewrite Hs.
    apply omap_ext_in. intros [task i] _.
    unfold check_task. rewrite Hother; [reflexivity|]. congruence.
Qed.


Lemma fold_max_spec (h : Z) (t : list Z) :
  In (fold_right Z.max h t) (h :: t) /\ forall x, In x (h :: t) -> x <= fold_right Z.max h t.
Proof.
  induction t as [|y t [IHin IHle]]; simpl.
  - split; [now left | intros x [<- | []]; lia].
  - split.
    + destruct (Z.max_spec y (fold_right Z.max h t)) as [[_ ->] | [_ ->]].
      * destruct IHin as [E | Hin]; [left; exact E | right; right; exact Hin].
      * right. now left.
    + intros x [<- | [<- | Hx]].
      * specialize (IHle h (or_introl eq_refl)). lia.
      * lia.
      * specialize (IHle x (or_intror Hx)). lia.
Qed.

(** X18.  When the modules of the store cannot be imported the stage gives
    the state back before it looks at the hours.  Otherwise the running
    hours of the state win over the history file; without them the stage
    takes the largest value of the hours column; and it reports its error
    exactly when the state has no hours and the file gives none, whether or
    not the session can then be opened. *)
Theorem service_age_node_hours (pump : str) (cur : option Z) (hist : option (list Z))
    (store : Store) (db : Database) :
  service_age_node pump cur hist NoModule = Unchanged /\
  (forall c, cur = Some c ->
     service_age_node pump cur hist store = service_age_node pump (Some c) None store) /\
  (forall m, cur = None -> hours_from_history hist = Some m ->
     (exists l, hist = Some l /\ In m l /\ forall h, In h l -> h <= m) /\
     service_age_node pump cur hist store = service_age_node pump (Some m) None store) /\
  ((exists msg, service_age_node pump cur hist store = InvestigatorError msg) <->
     store <> NoModule /\ cur = None /\ (hist = None \/ hist = Some [])) /\
  (cur = None -> hours_from_history hist = None ->
     service_age_node pump cur hist NoSession = service_age_node pump cur hist (Tables db)).
Proof.
  split; [reflexivity|]. split; [|split; [|split]].
  - intros c ->. destruct store; reflexivity.
  - intros m -> Hm. split.
    + destruct hist as [[|h t]|]; try discriminate. injection Hm as <-.
      exists (h :: t). split; [reflexivity|]. apply fold_max_spec.
    + unfold service_age_node. now rewrite Hm.
  - unfold service_age_node. destruct store as [| |d].
    + split; [intros [msg H]; discriminate | intros [H _]; congruence].
    + destruct cur as [c|]; [|destruct hist as [[|h t]|]]; simpl;
        (split; [intros [msg H]; try discriminate; repeat split; auto; discriminate
                | intros (_ & Hc & Hh); try discriminate;
                  try (destruct Hh; discriminate); eauto]).
    + destruct cur as [c|]; [|destruct hist as [[|h t]|]]; simpl;
        (split; [intros [msg H]; try discriminate; repeat split; auto; discriminate
                | intros (_ & Hc & Hh); try discriminate;
                  try (destruct Hh; discriminate); eauto]).
  - intros -> Hn. unfold service_age_node. now rewrite Hn.
Qed.

Lemma logged_service_clears_task_witness :
  last_done_of serviced_db (lit "P-001") (lit "Seal check") = 1100 /\
  check_task serviced_db (lit "P-001") 1200 (lit "Seal check", 1200) = None.
Proof.
  assert (H1 : service_schedules serviced_db = service_schedules sample_db) by reflexivity.
  assert (H2 : forall r, In r (work_done_logs serviced_db) <->
                         r = seal_check_row \/ In r (work_done_logs sample_db)).
  { intros r. simpl. split; intros [H | H]; auto. }
  assert (H3 : forall r, In r (matching_logs sample_db (log_pump_id seal_check_row)
                                 (log_task_name seal_check_row)) ->
                         timestamp r < timestamp seal_check_row).
  { intros r H. vm_compute in H. destruct H. }
  pose proof (logged_service_clears_task sample_db serviced_db seal_check_row 1200 1200
                H1 H2 H3) as (L & C & _).
  split; [exact L | apply C; vm_compute; discriminate].
Defined.

End ServiceAgeMore.

(** ** Baseline statistics: further properties *)

Section BaselineMore.

Import Baseline.

Variable quantile : Q -> list Q -> Q.
Variable mean : list Q -> Q.
Variable std : list Q -> Q.

Lemma triggered_true (cv : option Q) (st : SensorStats) :
  triggered cv st = true <->
  exists c t, cv = Some c /\ adaptive_threshold st = Some t /\ t < c.
Proof.
  unfold triggered. destruct cv as [c|], (adaptive_threshold st) as [t|]; split;
    try discriminate; try (intros (? & ? & [=] & _); fail);
    try (intros (? & ? & _ & [=] & _); fail).
  - intros H. apply Qlt_bool_true in H. eauto.
  - intros (c' & t' & [= <-] & [= <-] & H). now apply Qlt_bool_true.
Qed.

Lemma threshold_needs_samples (col : list (option Q)) (t : Q) :
  adaptive_threshold (sensor_stats quantile mean std col) = Some t ->
  (10 <= length (drop_nulls col))%nat /\ t = quantile (95 # 100) (drop_nulls col).
Proof.
  unfold sensor_stats. destruct (length (drop_nulls col) <? 10)%nat eqn:E; [discriminate|].
  apply Nat.ltb_ge in E. simpl. intros [= <-]. auto.
Qed.

(** X19.  The baseline stage either reports no history score or the score
    0.5, and it reports 0.5 exactly when it names a triggered sensor.  A
    sensor is named exactly when its live value is a number that exceeds
    the 95th percentile of a column with at least ten samples; the names
    keep the order vibration, temperature, pressure.  Without a usable
    file the result is the empty one. *)
Theorem feature_node_outlier (file : HistoryFile) (live : string -> option Q) :
  let res := feature_node quantile mean std file live in
  (history_risk_score res = None \/ history_risk_score res = Some (5 # 10)) /\
  (history_risk_score res = Some (5 # 10) <-> is_historical_outlier res = true) /\
  (is_historical_outlier res = true <-> triggered_sensors res <> []) /\
  (forall s, In s (triggered_sensors res) <->
     exists v t p col c,
       file = Frame v t p /\
       In (s, col) [("Vibration"%string, v); ("Temperature"%string, t); ("Pressure"%string, p)] /\
       live s = Some c /\
       (10 <= length (drop_nulls col))%nat /\
       quantile (95 # 100) (drop_nulls col) < c) /\
  sublist (triggered_sensors res) sensors /\
  ((forall v t p, file <> Frame v t p) -> res = _empty_history).
Proof.
  cbn zeta. destruct file as [| | | |v t p].
  1-4: (split; [now left|]; split; [split; discriminate|];
        split; [split; [discriminate | intros H; now contradiction H]|];
        split; [intros s; split; [intros [] | intros (? & ? & ? & ? & ? & [=] & _)]|];
        split; [apply sublist_nil_l | reflexivity]).
  assert (Hs : forall s col,
            triggered (live s) (sensor_stats quantile mean std col) = true <->
            exists c, live s = Some c /\ (10 <= length (drop_nulls col))%nat /\
                      quantile (95 # 100) (drop_nulls col) < c).
  { intros s col. rewrite triggered_true. split.
    - intros (c & th & Hc & Ht & Hlt). apply threshold_needs_samples in Ht as [Hn ->]. eauto.
    - intros (c & Hc & Hn & Hlt). exists c, (quantile (95 # 100) (drop_nulls col)).
      split; [exact Hc|]. split; [|exact Hlt].
      unfold sensor_stats. apply Nat.ltb_ge in Hn. now rewrite Hn. }
  cbn [feature_node history_risk_score is_historical_outlier triggered_sensors map].
  pose proof (Hs "Vibration"%string v) as Hv.
  pose proof (Hs "Temperature"%string t) as Ht.
  pose proof (Hs "Pressure"%string p) as Hp.
  destruct (triggered (live "Vibration"%string) (sensor_stats quantile mean std v)) eqn:Ev;
    destruct (triggered (live "Temperature"%string) (sensor_stats quantile mean std t)) eqn:Et;
    destruct (triggered (live "Pressure"%string) (sensor_stats quantile mean std p)) eqn:Ep.
  all: repeat (first [rewrite filter_cons_True by (simpl; congruence)
                     | rewrite filter_cons_False by (simpl; congruence)]);
    rewrite filter_nil; cbn [map fst bool_decide negb].
  all: split; [auto|]; split; [split; [intros; reflexivity || discriminate | intros; reflexivity || discriminate]|].
  all: split; [split; [intros; discriminate || reflexivity | intros H; try reflexivity; try (now contradiction H)]|].
  all: split; [|split; [|intros H; now contradiction (H v t p)]].
  all: try (unfold sensors; repeat constructor; fail).
  all: intros s; split.
  all: try (intros Hin; simpl in Hin;
            repeat (destruct Hin as [<- | Hin]); try contradiction;
            first [ destruct (proj1 Hv eq_refl) as (c & ? & ? & ?); exists v, t, p, v, c;
                    solve [split; [reflexivity|]; split; [simpl; tauto | auto]]
                  | destruct (proj1 Ht eq_refl) as (c & ? & ? & ?); exists v, t, p, t, c;
                    solve [split; [reflexivity|]; split; [simpl; tauto | auto]]
                  | destruct (proj1 Hp eq_refl) as (c & ? & ? & ?); exists v, t, p, p, c;
                    solve [split; [reflexivity|]; split; [simpl; tauto | auto]] ]; fail).
  all: intros (v0 & t0 & p0 & col & c & [= <- <- <-] & Hin & Hc & Hn & Hlt);
    simpl in Hin; destruct Hin as [[= <- <-] | [[= <- <-] | [[= <- <-] | []]]].
  all: try (simpl; tauto).
  all: first [ assert (Hx : false = true) by (apply Hv; eauto); discriminate Hx
             | assert (Hx : false = true) by (apply Ht; eauto); discriminate Hx
             | assert (Hx : false = true) by (apply Hp; eauto); discriminate Hx ].
Qed.

Lemma drop_app_length {A} (l : list A) (n : nat) :
  (n <= length l)%nat -> length (drop (length l - n) l) = n.
Proof. intros H. rewrite length_drop. lia. Qed.

(** X20.  With at least ten and fewer than a hundred samples the rolling
    mean is the mean of the whole column, so the drift score is 0; from a
    hundred samples on the rolling mean is the mean of exactly the last
    hundred. *)
Theorem short_history_no_drift (col : list (option Q)) :
  let vals := drop_nulls col in
  let st := sensor_stats quantile mean std col in
  ((10 <= length vals < 100)%nat ->
     rolling_mean st = Some (mean vals) /\
     exists d, drift_score st = Some d /\ d == 0) /\
  ((100 <= length vals)%nat ->
     rolling_mean st = Some (mean (last_100 vals)) /\
     length (last_100 vals) = 100%nat /\
     exists older, vals = older ++ last_100 vals).
Proof.
  cbn zeta. unfold sensor_stats. split.
  - intros [H10 H100]. apply Nat.ltb_ge in H10. rewrite H10.
    assert (E : (100 <=? length (drop_nulls col))%nat = false) by (apply Nat.leb_gt; lia).
    rewrite E. cbn [rolling_mean drift_score]. split; [reflexivity|].
    eexists. split; [reflexivity|].
    pose proof (global_std_pos std (drop_nulls col)) as Hp.
    field. intros H0. rewrite H0 in Hp. lra.
  - intros H100.
    assert (E10 : (length (drop_nulls col) <? 10)%nat = false) by (apply Nat.ltb_ge; lia).
    rewrite E10. apply Nat.leb_le in H100 as E. rewrite E. cbn [rolling_mean].
    split; [reflexivity|]. unfold last_100. split; [now apply drop_app_length|].
    exists (take (length (drop_nulls col) - 100) (drop_nulls col)).
    now rewrite take_drop.
Qed.

End BaselineMore.

Lemma feature_node_outlier_witness :
  Baseline.history_risk_score
    (Baseline.feature_node Baseline.quantile_nearest Baseline.mean_b64 Baseline.std_b64 Baseline.Missing
       (fun _ => Some 1)) = None.
Proof.
  pose proof (feature_node_outlier Baseline.quantile_nearest Baseline.mean_b64 Baseline.std_b64
                Baseline.Missing (fun _ => Some 1)) as (_ & _ & _ & _ & _ & H).
  rewrite H; [reflexivity | discriminate].
Defined.

Lemma short_history_no_drift_witness :
  Baseline.rolling_mean
    (Baseline.sensor_stats Baseline.quantile_nearest Baseline.mean_b64 Baseline.std_b64 Baseline.ten_samples)
  = Some (Baseline.mean_b64 (Baseline.drop_nulls Baseline.ten_samples)).
Proof.
  apply (proj1 (short_history_no_drift Baseline.quantile_nearest Baseline.mean_b64 Baseline.std_b64
                  Baseline.ten_samples)).
  vm_compute. lia.
Defined.
(** ** The values that [decode] returns *)

Section DecodedValues.

Import Toon.

(** X21.  [decode] returns a record for every text that has fewer opening
    brackets than the stack has room for calls, and whenever it returns,
    the values of the record are nothing, numbers, texts, lists of at least
    two numbers or texts, or records of such values: no boolean ever comes
    out of it, and no list inside a list. *)
Theorem decode_never_yields_booleans (room : nat) (s : str) :
  ((count_open s < room)%nat -> exists r, decode room s = Some r) /\
  forall r, decode room s = Some r ->
    decoded_value_ok (VDict r) = true /\
    forall k v, In (k, v) r -> decoded_value_ok v = true /\ forall b, v <> VBool b.
Proof.
  split; [apply decode_total|].
  intros r Hr. pose proof (decode_shape _ _ _ Hr) as Hv. split; [exact Hv|].
  intros k v Hin. split; [|exact (shaped_no_boolean r k v Hv Hin)].
  unfold shaped in Hv. rewrite decoded_value_dict, forallb_forall in Hv.
  exact (Hv (k, v) Hin).
Qed.

End DecodedValues.

(** ** Key names *)

Section KeyNames.

Import Toon.

Lemma alias_parts key :
  _snake_to_short_pascal key = concat (map short_part (split_on "_" key)).
Proof. reflexivity. Qed.





Lemma short_part_is_take p : short_part p = capitalize (take 4 p).
Proof.
  unfold short_part. destruct (length p <=? 4)%nat eqn:E; [|reflexivity].
  apply Nat.leb_le in E. now rewrite take_ge.
Qed.













(** *** The way back *)

Lemma lower_not_upper c : is_lower c = true -> is_upper c = false.
Proof. all_chars c. Qed.

Lemma lower_not_digit c : is_lower c = true -> is_digit c = false.
Proof. all_chars c. Qed.

Lemma lower_not_newline c : is_lower c = true -> is_newline c = false.
Proof. all_chars c. Qed.

Lemma upper_not_lower c : is_upper c = true -> is_lower c = false.
Proof. all_chars c. Qed.

Lemma upper_not_digit c : is_upper c = true -> is_digit c = false.
Proof. all_chars c. Qed.

(** One step of the first pattern. *)
Lemma re1_step_plain c c' t :
  is_upper c' = false -> camel_re_1_sub 0 (c :: c' :: t) = c :: camel_re_1_sub 0 (c' :: t).
Proof.
  intros H. change (camel_re_1_sub 0 (c :: c' :: t)) with
    (match c' :: t with
     | u :: l :: _ =>
         if negb (is_newline c) && is_upper u && is_lower l
         then c :: "_"%char :: camel_re_1_sub 3 (c' :: t)
         else c :: camel_re_1_sub 0 (c' :: t)
     | _ => c :: camel_re_1_sub 0 (c' :: t)
     end).
  destruct t as [|l t']; [reflexivity|]. rewrite H, andb_false_r. reflexivity.
Qed.

Lemma re1_step_last c : camel_re_1_sub 0 [c] = [c].
Proof. reflexivity. Qed.

Lemma re1_step_match c u l t :
  is_newline c = false -> is_upper u = true -> is_lower l = true ->
  camel_re_1_sub 0 (c :: u :: l :: t) = c :: "_"%char :: u :: l :: camel_re_1_sub 1 t.
Proof.
  intros Hc Hu Hl. change (camel_re_1_sub 0 (c :: u :: l :: t)) with
    (if negb (is_newline c) && is_upper u && is_lower l
     then c :: "_"%char :: camel_re_1_sub 3 (u :: l :: t)
     else c :: camel_re_1_sub 0 (u :: l :: t)).
  rewrite Hc, Hu, Hl. reflexivity.
Qed.

Lemma re1_copy_lower c t :
  is_lower c = true -> camel_re_1_sub 1 (c :: t) = c :: camel_re_1_sub 1 t.
Proof.
  intros H. change (camel_re_1_sub 1 (c :: t)) with
    (if is_lower c then c :: camel_re_1_sub 1 t else camel_re_1_sub 0 (c :: t)).
  now rewrite H.
Qed.

Lemma re1_copy_other c t :
  is_lower c = false -> camel_re_1_sub 1 (c :: t) = camel_re_1_sub 0 (c :: t).
Proof.
  intros H. change (camel_re_1_sub 1 (c :: t)) with
    (if is_lower c then c :: camel_re_1_sub 1 t else camel_re_1_sub 0 (c :: t)).
  now rewrite H.
Qed.

(** The first pattern, inside a run of lower-case letters that is followed
    by nothing or by an upper-case letter. *)
Lemma re1_copy_run ls R :
  Forall (fun c => is_lower c = true) ls -> upper_start R ->
  camel_re_1_sub 1 (ls ++ R) = ls ++ camel_re_1_sub 0 R.
Proof.
  intros Hl HR. induction Hl as [|c r Hc Hr IH].
  - destruct R as [|c t]; [reflexivity|]. simpl in HR.
    cbn [app]. now rewrite re1_copy_other by now apply upper_not_lower.
  - cbn [app]. rewrite re1_copy_lower by exact Hc. now rewrite IH.
Qed.

Lemma re1_scan_run ls v m ms R :
  ls <> [] -> Forall (fun c => is_lower c = true) ls ->
  is_upper v = true -> Forall (fun c => is_lower c = true) (m :: ms) -> upper_start R ->
  camel_re_1_sub 0 (ls ++ v :: m :: ms ++ R) =
    ls ++ "_"%char :: v :: m :: ms ++ camel_re_1_sub 0 R.
Proof.
  intros Hne Hl Hv Hm HR. induction Hl as [|c r Hc Hr IH]; [congruence|].
  inversion Hm as [|? ? Hm1 Hms]; subst.
  destruct r as [|c' r'].
  - cbn [app]. rewrite re1_step_match; [|now apply lower_not_newline|exact Hv|exact Hm1].
    now rewrite re1_copy_run.
  - cbn [app] in *. inversion Hr as [|? ? Hc' _]; subst.
    rewrite re1_step_plain by now apply lower_not_upper.
    f_equal. apply IH. discriminate.
Qed.

Lemma re1_scan_last ls :
  Forall (fun c => is_lower c = true) ls -> camel_re_1_sub 0 ls = ls.
Proof.
  induction 1 as [|c r Hc Hr IH]; [reflexivity|].
  destruct r as [|c' r']; [reflexivity|].
  inversion Hr as [|? ? Hc' _]; subst.
  rewrite re1_step_plain by now apply lower_not_upper. now rewrite IH.
Qed.

Lemma re1_word_head u l t :
  is_lower l = true -> camel_re_1_sub 0 (u :: l :: t) = u :: camel_re_1_sub 0 (l :: t).
Proof. intros Hl. apply re1_step_plain. now apply lower_not_upper. Qed.

Lemma re1_single w : word w -> camel_re_1_sub 0 w = w.
Proof.
  intros (u & l & ls & -> & Hu & Hl). inversion Hl as [|? ? Hl1 Hls]; subst.
  rewrite re1_word_head by exact Hl1. now rewrite re1_scan_last.
Qed.

Lemma re1_pair w1 w2 R :
  word w1 -> word w2 -> upper_start R ->
  camel_re_1_sub 0 (w1 ++ w2 ++ R) = w1 ++ "_"%char :: w2 ++ camel_re_1_sub 0 R.
Proof.
  intros (u & l & ls & -> & Hu & Hl) (v & m & ms & -> & Hv & Hm) HR.
  inversion Hl as [|? ? Hl1 Hls]; subst.
  change ((u :: l :: ls) ++ (v :: m :: ms) ++ R) with (u :: l :: (ls ++ v :: m :: ms ++ R)).
  rewrite re1_word_head by exact Hl1.
  change (l :: (ls ++ v :: m :: ms ++ R)) with ((l :: ls) ++ v :: m :: ms ++ R).
  rewrite re1_scan_run; [reflexivity | discriminate | exact Hl | exact Hv | exact Hm | exact HR].
Qed.

(** One step of the second pattern. *)
Lemma re2_step_plain c b t :
  (is_lower c || is_digit c) && is_upper b = false ->
  camel_re_2_sub (c :: b :: t) = c :: camel_re_2_sub (b :: t).
Proof.
  intros H. change (camel_re_2_sub (c :: b :: t)) with
    (if (is_lower c || is_digit c) && is_upper b
     then c :: "_"%char :: b :: camel_re_2_sub t
     else c :: camel_re_2_sub (b :: t)).
  now rewrite H.
Qed.

Lemma re2_step_match c b t :
  is_lower c = true -> is_upper b = true ->
  camel_re_2_sub (c :: b :: t) = c :: "_"%char :: b :: camel_re_2_sub t.
Proof.
  intros Hc Hb. change (camel_re_2_sub (c :: b :: t)) with
    (if (is_lower c || is_digit c) && is_upper b
     then c :: "_"%char :: b :: camel_re_2_sub t
     else c :: camel_re_2_sub (b :: t)).
  now rewrite Hc, Hb.
Qed.

Lemma re2_upper_head u t :
  is_upper u = true -> camel_re_2_sub (u :: t) = u :: camel_re_2_sub t.
Proof.
  intros Hu. destruct t as [|b r]; [reflexivity|]. apply re2_step_plain.
  now rewrite (upper_not_lower u Hu), (upper_not_digit u Hu).
Qed.

Lemma re2_sep_head t : camel_re_2_sub ("_"%char :: t) = "_"%char :: camel_re_2_sub t.
Proof. destruct t as [|b r]; [reflexivity|]. now apply re2_step_plain. Qed.

Lemma re2_run_end ls :
  Forall (fun c => is_lower c = true) ls -> camel_re_2_sub ls = ls.
Proof.
  induction 1 as [|c r Hc Hr IH]; [reflexivity|].
  destruct r as [|c' r']; [reflexivity|].
  inversion Hr as [|? ? Hc' _]; subst.
  rewrite re2_step_plain by (rewrite (lower_not_upper c' Hc'); apply andb_false_r).
  now rewrite IH.
Qed.

Lemma re2_run_sep ls X :
  Forall (fun c => is_lower c = true) ls ->
  camel_re_2_sub (ls ++ "_"%char :: X) = ls ++ camel_re_2_sub ("_"%char :: X).
Proof.
  induction 1 as [|c r Hc Hr IH]; [reflexivity|].
  cbn [app]. destruct r as [|c' r'].
  - cbn [app]. now rewrite re2_step_plain by apply andb_false_r.
  - cbn [app] in *. inversion Hr as [|? ? Hc' _]; subst.
    rewrite re2_step_plain by (rewrite (lower_not_upper c' Hc'); apply andb_false_r).
    f_equal. exact IH.
Qed.

Lemma re2_run_upper ls v Y :
  ls <> [] -> Forall (fun c => is_lower c = true) ls -> is_upper v = true ->
  camel_re_2_sub (ls ++ v :: Y) = ls ++ "_"%char :: v :: camel_re_2_sub Y.
Proof.
  intros Hne Hl Hv. induction Hl as [|c r Hc Hr IH]; [congruence|].
  cbn [app]. destruct r as [|c' r'].
  - cbn [app]. now rewrite re2_step_match.
  - cbn [app] in *. inversion Hr as [|? ? Hc' _]; subst.
    rewrite re2_step_plain by (rewrite (lower_not_upper c' Hc'); apply andb_false_r).
    f_equal. apply IH. discriminate.
Qed.

Lemma re2_word w : word w -> camel_re_2_sub w = w.
Proof.
  intros (u & l & ls & -> & Hu & Hl). rewrite re2_upper_head by exact Hu.
  now rewrite re2_run_end.
Qed.

Lemma re2_word_sep w X :
  word w -> camel_re_2_sub (w ++ "_"%char :: X) = w ++ "_"%char :: camel_re_2_sub X.
Proof.
  intros (u & l & ls & -> & Hu & Hl).
  change ((u :: l :: ls) ++ "_"%char :: X) with (u :: ((l :: ls) ++ "_"%char :: X)).
  rewrite re2_upper_head by exact Hu. rewrite re2_run_sep by exact Hl.
  now rewrite re2_sep_head.
Qed.

Lemma re2_word_upper w v Y :
  word w -> is_upper v = true ->
  camel_re_2_sub (w ++ v :: Y) = w ++ "_"%char :: camel_re_2_sub (v :: Y).
Proof.
  intros (u & l & ls & -> & Hu & Hl) Hv.
  change ((u :: l :: ls) ++ v :: Y) with (u :: ((l :: ls) ++ v :: Y)).
  rewrite re2_upper_head by exact Hu.
  rewrite re2_run_upper; [|discriminate|exact Hl|exact Hv].
  now rewrite (re2_upper_head v Y Hv).
Qed.

Lemma re1_first c t : exists Y, camel_re_1_sub 0 (c :: t) = c :: Y.
Proof.
  change (camel_re_1_sub 0 (c :: t)) with
    (match t with
     | u :: l :: _ =>
         if negb (is_newline c) && is_upper u && is_lower l
         then c :: "_"%char :: camel_re_1_sub 3 t
         else c :: camel_re_1_sub 0 t
     | _ => c :: camel_re_1_sub 0 t
     end).
  destruct t as [|u [|l r]]; eauto.
  destruct (negb (is_newline c) && is_upper u && is_lower l); eauto.
Qed.

Lemma concat_words_upper ws : Forall word ws -> upper_start (concat ws).
Proof.
  destruct 1 as [|w ws (u & l & ls & -> & Hu & _) _]; [exact I | exact Hu].
Qed.

(** Both patterns on a run of capitalised parts: an underscore between
    every two of them. *)
Lemma camel_subs_words n ws :
  (length ws <= n)%nat -> ws <> [] -> Forall word ws ->
  camel_re_2_sub (camel_re_1_sub 0 (concat ws)) = join ["_"%char] ws.
Proof.
  revert ws. induction n as [|n IH]; intros ws Hn Hne Hw.
  - destruct ws; [congruence | simpl in Hn; lia].
  - destruct ws as [|w1 [|w2 rest]]; [congruence| |].
    + cbn [concat join]. rewrite app_nil_r.
      inversion Hw; subst. rewrite re1_single by assumption. now apply re2_word.
    + inversion Hw as [|? ? Hw1 Hw']; subst. inversion Hw' as [|? ? Hw2 Hrest]; subst.
      cbn [concat]. rewrite re1_pair; [|assumption|assumption|now apply concat_words_upper].
      rewrite re2_word_sep by assumption.
      destruct rest as [|w3 rest'].
      * cbn [concat camel_re_1_sub]. rewrite app_nil_r. rewrite re2_word by assumption.
        reflexivity.
      * assert (Hr : camel_re_2_sub (camel_re_1_sub 0 (concat (w3 :: rest')))
                     = join ["_"%char] (w3 :: rest')).
        { apply IH; [simpl in *; lia | discriminate | assumption]. }
        inversion Hrest as [|? ? (u & l & ls & E3 & Hu & Hl) _]; subst.
        cbn [concat] in *.
        change ((u :: l :: ls) ++ concat rest') with (u :: (l :: ls) ++ concat rest') in *.
        destruct (re1_first u ((l :: ls) ++ concat rest')) as [Y EY].
        rewrite EY in *. rewrite re2_word_upper by assumption. rewrite Hr.
        change (join ["_"%char] (w1 :: w2 :: (u :: l :: ls) :: rest'))
          with (w1 ++ ["_"%char] ++ w2 ++ ["_"%char] ++ join ["_"%char] ((u :: l :: ls) :: rest')).
        reflexivity.
Qed.

Lemma to_lower_upper c : is_lower c = true -> to_lower (to_upper c) = c.
Proof. all_chars c. Qed.

Lemma to_lower_lower c : is_lower c = true -> to_lower c = c.
Proof. all_chars c. Qed.

Lemma to_upper_is_upper c : is_lower c = true -> is_upper (to_upper c) = true.
Proof. all_chars c. Qed.

Lemma lower_lower s : Forall (fun c => is_lower c = true) s -> lower s = s.
Proof.
  induction 1 as [|c r Hc _ IH]; [reflexivity|].
  unfold lower in *. cbn [map]. now rewrite IH, to_lower_lower.
Qed.

Lemma Forall_take {A} (P : A -> Prop) n (l : list A) : Forall P l -> Forall P (take n l).
Proof.
  intros H. revert n. induction H as [|x l Hx _ IH]; intros [|n]; simpl; constructor; auto.
Qed.

Lemma short_part_word p : plain_segment p -> word (short_part p).
Proof.
  intros [Hlen Hl]. rewrite short_part_is_take.
  destruct p as [|c [|c' r]]; simpl in Hlen; try lia.
  inversion Hl as [|? ? Hc Hl']; subst. inversion Hl' as [|? ? Hc' Hr]; subst.
  cbn [take capitalize lower map].
  exists (to_upper c), (to_lower c'), (map to_lower (take 2 r)).
  split; [reflexivity|]. split; [now apply to_upper_is_upper|].
  rewrite (to_lower_lower c' Hc').
  change (map to_lower (take 2 r)) with (lower (take 2 r)).
  rewrite lower_lower by now apply Forall_take.
  constructor; [exact Hc' | now apply Forall_take].
Qed.

Lemma lower_short_part p : plain_segment p -> lower (short_part p) = take 4 p.
Proof.
  intros [Hlen Hl]. rewrite short_part_is_take.
  pose proof (Forall_take _ 4 p Hl) as Ht.
  destruct (take 4 p) as [|c r]; [reflexivity|].
  inversion Ht; subst. unfold lower. cbn [capitalize map].
  rewrite to_lower_upper by assumption. f_equal.
  unfold lower. rewrite map_map.
  rewrite <- (map_id r) at 2. apply map_ext_in. intros x Hx.
  rewrite to_lower_idem. apply to_lower_lower.
  rewrite List.Forall_forall in H2. now apply H2.
Qed.

Lemma lower_join parts :
  lower (join ["_"%char] parts) = join ["_"%char] (map lower parts).
Proof.
  induction parts as [|p [|q rest] IH]; [reflexivity|reflexivity|].
  change (join ["_"%char] (p :: q :: rest)) with (p ++ "_"%char :: join ["_"%char] (q :: rest)).
  unfold lower in *. rewrite map_app. cbn [map]. rewrite IH. reflexivity.
Qed.

Lemma lower_no_underscore p :
  Forall (fun c => is_lower c = true) p -> contains "_" p = false.
Proof.
  intros H. apply contains_false. eapply Forall_impl; [exact H|].
  intros c Hc. revert Hc. all_chars c.
Qed.

(** X24.  A key made of segments of at least two lower-case letters comes
    back from its alias with every segment cut to four letters; so a key
    whose segments have two to four lower-case letters comes back as it
    is. *)
Theorem key_round_trip (segs : list str) :
  segs <> [] -> Forall plain_segment segs ->
  _pascal_to_snake (_snake_to_short_pascal (join ["_"%char] segs))
    = join ["_"%char] (map (take 4) segs) /\
  (Forall (fun p => (length p <= 4)%nat) segs ->
   _pascal_to_snake (_snake_to_short_pascal (join ["_"%char] segs)) = join ["_"%char] segs).
Proof.
  intros Hne Hs.
  assert (E : _pascal_to_snake (_snake_to_short_pascal (join ["_"%char] segs))
              = join ["_"%char] (map (take 4) segs)).
  { unfold _pascal_to_snake. rewrite alias_parts, split_on_join; [|exact Hne|].
    - rewrite (camel_subs_words (length (map short_part segs)));
        [|lia|destruct segs; [congruence|discriminate]|].
      + rewrite lower_join, map_map. f_equal.
        apply map_ext_in. intros p Hp. apply lower_short_part.
        rewrite List.Forall_forall in Hs. now apply Hs.
      + apply Forall_map. eapply Forall_impl; [exact Hs|]. intros p. apply short_part_word.
    - eapply Forall_impl; [exact Hs|]. intros p [_ Hp]. now apply lower_no_underscore. }
  split; [exact E|]. intros Hlen. rewrite E. f_equal.
  rewrite <- (map_id segs) at 2. apply map_ext_in. intros p Hp.
  rewrite List.Forall_forall in Hlen. apply take_ge. now apply Hlen.
Qed.

Lemma key_round_trip_witness :
  _pascal_to_snake (_snake_to_short_pascal (lit "pump_id")) = lit "pump_id".
Proof.
  assert (H : Forall plain_segment [lit "pump"; lit "id"]).
  { repeat constructor; simpl; lia. }
  apply (proj2 (key_round_trip [lit "pump"; lit "id"] ltac:(discriminate) H)).
  repeat constructor; simpl; lia.
Defined.

End KeyNames.

(** ** The feature vector of the sensor model *)

Section SensorFeatures.

Import SensorModel.

(** X25.  The feature vector of a reading always has the six entries
    temperature, vibration, pressure, flow rate, rpm and hours, and a
    missing value enters as 0, so that it cannot be told from a measured 0.
    Picked by column name in the strict order the features are that vector;
    an unknown column gives 0; and under the default columns the vector is
    hours, vibration, temperature, pressure, flow rate: the rpm plays no
    part. *)
Theorem feature_vector_facts (reading : SensorReading) (cols : list string) (col : string) :
  length (_reading_to_strict_feature_list reading) = 6%nat /\
  _reading_to_strict_feature_list (zero_filled reading) = _reading_to_strict_feature_list reading /\
  _reading_to_features STRICT_FEATURE_ORDER reading = _reading_to_strict_feature_list reading /\
  length (_reading_to_features cols reading) = length cols /\
  (col ∉ STRICT_FEATURE_ORDER -> _reading_to_features [col] reading = [0]) /\
  _reading_to_features DEFAULT_FEATURE_COLS reading =
    [inject_Z (operational_hours reading); _coerce_float (vibration reading);
     _coerce_float (temperature reading); _coerce_float (pressure reading);
     _coerce_float (flow_rate reading)].
Proof.
  split; [reflexivity|]. split; [reflexivity|]. split; [reflexivity|].
  split; [unfold _reading_to_features; now rewrite length_map|].
  split; [|reflexivity].
  intros H. unfold STRICT_FEATURE_ORDER in H.
  repeat (apply not_elem_of_cons in H as [? H]).
  unfold _reading_to_features, STRICT_FEATURE_ORDER, _reading_to_strict_feature_list.
  cbn [zip zip_with list_to_map foldr map fst snd uncurry].
  rewrite !lookup_insert_ne by congruence. rewrite lookup_empty. reflexivity.
Qed.

End SensorFeatures.
